(** * Chat analyzer: transcript parsing, conversation segmentation and
      reply-latency classification

    A shallow embedding of [parse_chat], [get_conversation_ends],
    [classify_response_times] and of the part of the main script that chains
    them (src/untitled0.py), with the properties of the specification stated
    and settled against it.

    Conventions.
    - A Python [str] is a sequence of Unicode code points: [str := list N].
    - A timestamp is a number of seconds ([Z]); a [timedelta] is their
      difference. The formats of the source have minute resolution.
    - A [DataFrame] with a fresh [RangeIndex] is the list of its rows;
      [iterrows] yields the positions 0, 1, ... with the rows.
    - A Python exception is the [Raise] case of [result].
    - [parse_chat] starts from the lines of the transcript: opening the
      file, reading and decoding it are not modelled.
    - What the source takes from the Python runtime and from third-party
      packages (Unicode tables, [str.lower], [strptime], [pd.to_datetime],
      [emoji.distinct_emoji_list], [DataFrame.sort_values]) is the interface
      [Runtime]. The properties are proved for every implementation of it;
      the reference runtime evaluates the program on concrete inputs, with
      a stable sort or with the sort of numpy that [sort_values] reaches by
      default. *)

From Stdlib Require Import ZArith NArith List Bool Lia String Ascii.
From Stdlib Require Import Permutation Sorted FinFun.
Import ListNotations.

(** ** Strings *)

Module Str.

Definition char := N.
Definition str := list char.

(** An ASCII literal as a Python string. *)
Definition of_string (s : string) : str :=
  List.map N_of_ascii (list_ascii_of_string s).

Definition eqb (a b : str) : bool :=
  if list_eq_dec N.eq_dec a b then true else false.

(** [Py_UNICODE_ISSPACE]: the characters [str.strip()] removes and the
    regular expression class [\s] accepts. *)
Definition isspace (c : char) : bool :=
  ((9 <=? c) && (c <=? 13)
   || (28 <=? c) && (c <=? 32)
   || (c =? 133) || (c =? 160) || (c =? 5760)
   || (8192 <=? c) && (c <=? 8202)
   || (c =? 8232) || (c =? 8233) || (c =? 8239) || (c =? 8287)
   || (c =? 12288))%N.

Fixpoint lstrip (s : str) : str :=
  match s with
  | c :: s' => if isspace c then lstrip s' else s
  | [] => []
  end.

Definition rstrip (s : str) : str := rev (lstrip (rev s)).

(** [s.strip()] *)
Definition strip (s : str) : str := rstrip (lstrip s).

(** [s.startswith(p)] *)
Fixpoint startswith (s p : str) : bool :=
  match p, s with
  | [], _ => true
  | _ :: _, [] => false
  | a :: p', b :: s' => (a =? b)%N && startswith s' p'
  end.

(** [p in s] *)
Fixpoint contains (s p : str) : bool :=
  startswith s p ||
  match s with
  | [] => false
  | _ :: s' => contains s' p
  end.

(** Truth value of a string: [bool(s)]. *)
Definition nonempty (s : str) : bool :=
  match s with [] => false | _ :: _ => true end.

End Str.
Import Str.

(** ** Exceptions *)

Inductive exn : Type :=
| IndexError                 (* single positional indexer is out-of-bounds *)
| DateParseError (s : str).  (* raised by pd.to_datetime *)

Inductive result (A : Type) : Type :=
| Ok (a : A)
| Raise (e : exn).
Arguments Ok {A} a.
Arguments Raise {A} e.

Definition bind {A B} (m : result A) (k : A -> result B) : result B :=
  match m with
  | Ok a => k a
  | Raise e => Raise e
  end.

Notation "x <- m ;; k" := (bind m (fun x => k))
  (at level 61, m at next level, right associativity).

(** ** The rows of the data frame *)

Record row : Type := mkRow {
  dt : Z;
  author : str;
  text : str;
  emojis : list str
}.

Definition set_text (r : row) (t : str) : row :=
  mkRow (dt r) (author r) t (emojis r).

Definition dt_le (a b : row) : Prop := (dt a <= dt b)%Z.

(** ** What the source imports *)

Class Runtime : Type := {
  (** [Py_UNICODE_ISDECIMAL], the class [\d] of a [str] pattern. *)
  isdecimal : char -> bool;
  (** [str.lower] *)
  lower : str -> str;
  (** [datetime.strptime(s, "%d.%m.%Y %H:%M")]; [None] when it raises. *)
  strptime : str -> option Z;
  (** [pd.to_datetime(s, dayfirst=True)]; [None] when it raises. *)
  to_datetime : str -> option Z;
  (** [emoji.distinct_emoji_list] *)
  distinct_emoji_list : str -> list str;
  (** [DataFrame.sort_values("dt")] with its default [kind], followed by
      [reset_index(drop=True)]. pandas promises an ordered rearrangement of
      the rows; only [kind="mergesort"] and [kind="stable"] promise more. *)
  sort_values : list row -> list row;
  sort_values_perm : forall l, Permutation l (sort_values l);
  sort_values_sorted : forall l, StronglySorted dt_le (sort_values l);
  (** Among the ASCII characters the decimal digits are 0 to 9. *)
  isdecimal_ascii :
    forall c, (c < 128)%N -> isdecimal c = ((48 <=? c) && (c <=? 57))%N
}.

(** ** Regular expressions

    The fragment of [re] that [LINE_RE] is written in: anchors, capture
    groups without nesting, and greedy repetitions of one-character classes,
    matched by backtracking as [re.match] does. *)

Module Re.

Inductive cls : Type :=
| Digit                (* \d *)
| Space                (* \s *)
| Lit (c : char)       (* a literal character *)
| NotLit (c : char)    (* [^c] *)
| Dot.                 (* . without DOTALL *)

Inductive node : Type :=
| Rep (c : cls) (lo : nat) (hi : option nat)   (* c{lo,hi}, greedy *)
| GOpen                                        (* ( *)
| GClose                                       (* ) *)
| Bol                                          (* ^ *)
| Eol.                                         (* $ *)

Definition regex := list node.

Definition one (c : cls) : node := Rep c 1 (Some 1).
Definition plus (c : cls) : node := Rep c 1 None.
Definition star (c : cls) : node := Rep c 0 None.
Definition times (c : cls) (n : nat) : node := Rep c n (Some n).

Definition test (dec : char -> bool) (c : cls) (a : char) : bool :=
  match c with
  | Digit => dec a
  | Space => isspace a
  | Lit b => (a =? b)%N
  | NotLit b => negb (a =? b)%N
  | Dot => negb (a =? 10)%N
  end.

(** Matcher state: position, the group being captured, the groups closed
    so far (last one first). *)
Record mstate : Type := mkM {
  pos : nat;
  cur : option str;
  closed : list str
}.

Definition start : mstate := mkM 0 None [].

Definition eat (a : char) (m : mstate) : mstate :=
  mkM (S (pos m))
      (match cur m with Some g => Some (g ++ [a]) | None => None end)
      (closed m).

(** The state after the characters of [u]. *)
Fixpoint eats (u : str) (m : mstate) : mstate :=
  match u with
  | [] => m
  | a :: u' => eats u' (eat a m)
  end.

Definition may_more (hi : option nat) : bool :=
  match hi with Some 0 => false | _ => true end.

Section Matcher.
Variable dec : char -> bool.

(** Greedy [c{lo,hi}] followed by the continuation [k]: one more
    character first, the shorter repetition when that fails. *)
Fixpoint rep (c : cls) (lo : nat) (hi : option nat)
         (k : str -> mstate -> option (list str))
         (s : str) (m : mstate) {struct s} : option (list str) :=
  let stop := match lo with 0 => k s m | S _ => None end in
  match s with
  | [] => stop
  | a :: s' =>
      if test dec c a && may_more hi then
        match rep c (Nat.pred lo) (option_map Nat.pred hi) k s' (eat a m) with
        | Some r => Some r
        | None => stop
        end
      else stop
  end.

Fixpoint run (p : regex) : str -> mstate -> option (list str) :=
  match p with
  | [] => fun _ m => Some (rev (closed m))
  | n :: p' =>
      let k := run p' in
      match n with
      | Rep c lo hi => rep c lo hi k
      | GOpen => fun s m => k s (mkM (pos m) (Some []) (closed m))
      | GClose => fun s m =>
          match cur m with
          | Some g => k s (mkM (pos m) None (g :: closed m))
          | None => None
          end
      | Bol => fun s m => match pos m with 0 => k s m | S _ => None end
      | Eol => fun s m =>
          match s with
          | [] => k s m
          | [c] => if (c =? 10)%N then k s m else None
          | _ => None
          end
      end
  end.

(** [p.match(s)], as the groups of the match. *)
Definition re_match (p : regex) (s : str) : option (list str) :=
  run p s start.
End Matcher.

End Re.
Import Re.

(** [LINE_RE], group by group: start of string; a date of one or two
    digits, a dot, one or two digits, a dot and four digits; white space; a
    time of one or two digits, a colon and two digits; white space, a
    hyphen and one white space character; an author free of colons; a colon
    and one white space character; the rest of the line; end of string. *)
Definition LINE_RE : regex :=
  [ Bol;
    GOpen; Rep Digit 1 (Some 2); one (Lit 46%N); Rep Digit 1 (Some 2);
           one (Lit 46%N); times Digit 4; GClose;
    plus Space;
    GOpen; Rep Digit 1 (Some 2); one (Lit 58%N); times Digit 2; GClose;
    plus Space; one (Lit 45%N); one Space;
    GOpen; plus (NotLit 58%N); GClose;
    one (Lit 58%N); one Space;
    GOpen; star Dot; GClose;
    Eol ].

Section Program.
Context {R : Runtime}.

(** [m = LINE_RE.match(s)] and [m.groups()]. *)
Definition line_match (s : str) : option (str * str * str * str) :=
  match re_match isdecimal LINE_RE s with
  | Some [date_str; time_str; a; t] => Some (date_str, time_str, a, t)
  | _ => None
  end.

(** The [try]/[except] around the two timestamp parsers. *)
Definition parse_dt (s : str) : result Z :=
  match strptime s with
  | Some d => Ok d
  | None =>
      match to_datetime s with
      | Some d => Ok d
      | None => Raise (DateParseError s)
      end
  end.

(** [rows[-1]["text"] += extra], for a non-empty [rows]. *)
Fixpoint append_last (rows : list row) (extra : str) : list row :=
  match rows with
  | [] => []
  | [r] => [set_text r (text r ++ extra)]
  | r :: rows' => r :: append_last rows' extra
  end.

(** One iteration of the loop over the lines of [parse_chat]. *)
Definition parse_line (rows : list row) (line : str) : result (list row) :=
  match line_match (strip line) with
  | None =>
      Ok (match rows with
          | _ :: _ => append_last rows (32%N :: strip line)
          | [] => rows
          end)
  | Some (date_str, time_str, a, t) =>
      d <- parse_dt (date_str ++ 32%N :: time_str) ;;
      Ok (rows ++ [mkRow d (strip a) (strip t) (distinct_emoji_list t)])
  end.

Fixpoint parse_lines (lines : list str) (rows : list row)
  : result (list row) :=
  match lines with
  | [] => Ok rows
  | line :: lines' =>
      rows' <- parse_line rows line ;;
      parse_lines lines' rows'
  end.

(** [parse_chat], from the lines of the file on: the empty data frame
    when no row was extracted, the rows ordered by [dt] otherwise. *)
Definition parse_chat (lines : list str) : result (list row) :=
  rows <- parse_lines lines [] ;;
  Ok (match rows with
      | _ :: _ => sort_values rows
      | [] => []
      end).

(** [df.iloc[k]], with Python's negative positions. *)
Definition iloc (df : list row) (k : Z) : result row :=
  let n := Z.of_nat (List.length df) in
  let j := (if k <? 0 then n + k else k)%Z in
  if ((0 <=? j) && (j <? n))%Z then
    match nth_error df (Z.to_nat j) with
    | Some r => Ok r
    | None => Raise IndexError
    end
  else Raise IndexError.

(** [df.iterrows()] *)
Definition iterrows (df : list row) : list (nat * row) :=
  combine (seq 0 (List.length df)) df.

(** [timedelta(hours=6)], in seconds. *)
Definition six_hours : Z := 6 * 3600.

(** [any(ep.strip().lower() in msg for ep in end_phrases if ep.strip())]
    with [msg = row["text"].lower()]. *)
Definition is_end (end_phrases : list str) (r : row) : bool :=
  let msg := lower (text r) in
  existsb (fun ep => contains msg (lower (strip ep)))
          (filter (fun ep => nonempty (strip ep)) end_phrases).

(** The variables of the loop of [get_conversation_ends]. *)
Record seg : Type := mkSeg {
  ends : list Z;
  starters : list str;
  prev_time : Z
}.

(** The gap the loop compares with six hours. *)
Definition gap (st : seg) (r : row) : Z := (dt r - prev_time st)%Z.

(** The assignments before the loop. [prev_author] is read from the same
    row and never used. *)
Definition seg_init (df : list row) : result seg :=
  r0 <- iloc df 0 ;;
  Ok (mkSeg [(-1)%Z] [] (dt r0)).

Definition seg_step (df : list row) (end_phrases : list str)
           (st : seg) (ir : nat * row) : result seg :=
  let (i, r) := ir in
  st' <- (if is_end end_phrases r || (six_hours <? gap st r)%Z then
            let ends' := ends st ++ [Z.of_nat i] in
            if (Z.of_nat i <? Z.of_nat (List.length df) - 1)%Z then
              nxt <- iloc df (Z.of_nat i + 1) ;;
              Ok (mkSeg ends' (starters st ++ [author nxt]) (prev_time st))
            else Ok (mkSeg ends' (starters st) (prev_time st))
          else Ok st) ;;
  Ok (mkSeg (ends st') (starters st') (dt r)).

Fixpoint seg_loop (df : list row) (end_phrases : list str)
         (todo : list (nat * row)) (st : seg) : result seg :=
  match todo with
  | [] => Ok st
  | ir :: todo' =>
      st' <- seg_step df end_phrases st ir ;;
      seg_loop df end_phrases todo' st'
  end.

(** The function up to the end of its loop. *)
Definition seg_run (df : list row) (end_phrases : list str) : result seg :=
  st0 <- seg_init df ;;
  seg_loop df end_phrases (iterrows df) st0.

Definition get_conversation_ends (df : list row) (end_phrases : list str)
  : result (list Z * list str) :=
  st <- seg_run df end_phrases ;;
  match starters st, df with
  | [], _ :: _ =>
      r0 <- iloc df 0 ;;
      Ok (ends st, starters st ++ [author r0])
  | _, _ => Ok (ends st, starters st)
  end.

(** The labels of [classify_response_times]; [None] is Python's. *)
Inductive band : Type := Early | NearEarly | Late.

(** The chain of comparisons on [td.total_seconds()]. *)
Definition band_of (td : Z) : band :=
  if (td <? 60)%Z then Early
  else if (td <? 300)%Z then NearEarly
  else Late.

(** [i in split_idx] *)
Definition in_idx (i : nat) (split_idx : list Z) : bool :=
  existsb (Z.eqb (Z.of_nat i)) split_idx.

Definition classify_step (df : list row) (split_idx : list Z)
           (ir : nat * row) : result (option band) :=
  let (i, _) := ir in
  if in_idx i split_idx then Ok None
  else
    a <- iloc df (Z.of_nat i) ;;
    b <- iloc df (Z.of_nat i - 1) ;;
    Ok (Some (band_of (dt a - dt b))).

Fixpoint classify_loop (df : list row) (split_idx : list Z)
         (todo : list (nat * row)) (reply_types : list (option band))
  : result (list (option band)) :=
  match todo with
  | [] => Ok reply_types
  | ir :: todo' =>
      b <- classify_step df split_idx ir ;;
      classify_loop df split_idx todo' (reply_types ++ [b])
  end.

Definition classify_response_times (df : list row) (split_idx : list Z)
  : result (list (option band)) :=
  classify_loop df split_idx (iterrows df) [].

(** What the main script computes from an uploaded file, up to the
    [reply_type] column. *)
Record analysis : Type := mkAnalysis {
  frame : list row;
  end_idxs : list Z;
  conversation_starters : list str;
  num_convs : nat;
  reply_types : list (option band)
}.

Inductive outcome : Type :=
| NoValidMessages          (* st.error("No valid messages ..."); st.stop() *)
| Analysed (a : analysis).

Definition main_logic (lines end_phrases : list str) : result outcome :=
  df <- parse_chat lines ;;
  match df with
  | [] => Ok NoValidMessages
  | _ :: _ =>
      es <- get_conversation_ends df end_phrases ;;
      rt <- classify_response_times df (fst es) ;;
      Ok (Analysed (mkAnalysis df (fst es) (snd es) (List.length (fst es)) rt))
  end.

End Program.

(** ** How the loops read the frame

    The values the two loops work with at a position of the frame, written
    as functions of the position. *)

Section Readings.
Context {R : Runtime}.
Variable end_phrases : list str.
Variable split_idx : list Z.

(** The timestamp the loop holds in [prev_time] when it reaches position
    [i]: that of the message before, and at position 0 that of the first
    message itself. *)
Definition prev_ts (df : list row) (i : nat) : Z :=
  nth (Nat.pred i) (List.map dt df) 0%Z.

(** The test of the loop at position [i]. *)
Definition closes (df : list row) (i : nat) : bool :=
  match nth_error df i with
  | Some r => is_end end_phrases r || (six_hours <? dt r - prev_ts df i)%Z
  | None => false
  end.

(** The author of the message after position [i], when there is one. *)
Definition next_author (df : list row) (i : nat) : list str :=
  match nth_error df (S i) with
  | Some nxt => [author nxt]
  | None => []
  end.

(** The position [df.iloc[i-1]] reads: the one before, and from
    position 0 the last one. *)
Definition wrap_prev (n i : nat) : nat :=
  match i with
  | 0 => n - 1
  | S j => j
  end.

Definition dt_at (df : list row) (i : nat) : Z := nth i (List.map dt df) 0%Z.

(** The label position [i] receives. *)
Definition label (df : list row) (i : nat) : option band :=
  if in_idx i split_idx then None
  else Some (band_of (dt_at df i - dt_at df (wrap_prev (List.length df) i))).

(** Every character is below 128. *)
Definition is_ascii (s : str) : bool := forallb (fun a => (a <? 128)%N) s.

(** Messages of one timestamp come in [df] in the order they have in
    [rows]. *)
Definition appearance_order_kept (rows df : list row) : Prop :=
  forall t, filter (fun r => (dt r =? t)%Z) df
            = filter (fun r => (dt r =? t)%Z) rows.

End Readings.

(** ** A runtime to compute with

    An implementation of [Runtime] on ASCII transcripts, used to evaluate the
    program on concrete inputs: digits 0 to 9, ASCII lower-casing, the
    format [D.M.YYYY H:MM] with the proleptic Gregorian calendar, one token
    per pictograph code point, and an insertion sort. *)

Module Ref.

Definition isdecimal (c : char) : bool := ((48 <=? c) && (c <=? 57))%N.

Definition lower (s : str) : str :=
  List.map (fun c => if ((65 <=? c) && (c <=? 90))%N then (c + 32)%N else c) s.

(** The text before and after the first [c]. *)
Fixpoint split_at (c : char) (s : str) : option (str * str) :=
  match s with
  | [] => None
  | a :: s' =>
      if (a =? c)%N then Some ([], s')
      else match split_at c s' with
           | Some (u, v) => Some (a :: u, v)
           | None => None
           end
  end.

Fixpoint digits (s : str) (acc : Z) : option Z :=
  match s with
  | [] => Some acc
  | a :: s' =>
      if isdecimal a then digits s' (10 * acc + (Z.of_N a - 48))%Z else None
  end.

Definition number (max_len : nat) (s : str) : option Z :=
  match s with
  | [] => None
  | _ :: _ => if (List.length s <=? max_len)%nat then digits s 0 else None
  end.

Definition is_leap (y : Z) : bool :=
  ((y mod 4 =? 0) && (negb (y mod 100 =? 0) || (y mod 400 =? 0)))%Z.

Definition days_in_month (y m : Z) : Z :=
  (if m =? 2 then (if is_leap y then 29 else 28)
   else if (m =? 4) || (m =? 6) || (m =? 9) || (m =? 11) then 30
   else 31)%Z.

(** Days from 1970-01-01 to the civil date. *)
Definition days_from_civil (y m d : Z) : Z :=
  (let y' := if m <=? 2 then y - 1 else y in
   let era := y' / 400 in
   let yoe := y' - era * 400 in
   let mp := (m + 9) mod 12 in
   let doy := (153 * mp + 2) / 5 + d - 1 in
   let doe := yoe * 365 + yoe / 4 - yoe / 100 + doy in
   era * 146097 + doe - 719468)%Z.

Definition seconds (y m d hh mm : Z) : option Z :=
  (if (1 <=? m) && (m <=? 12) && (1 <=? d) && (d <=? days_in_month y m)
      && (1 <=? y) && (hh <=? 23) && (mm <=? 59)
   then Some (days_from_civil y m d * 86400 + hh * 3600 + mm * 60)
   else None)%Z.

(** The five numbers of [D.M.YYYY H:MM]. *)
Definition fields (s : str) : option (Z * Z * Z * Z * Z) :=
  match split_at 46%N s with
  | Some (d, s1) =>
      match split_at 46%N s1 with
      | Some (m, s2) =>
          match split_at 32%N s2 with
          | Some (y, s3) =>
              match split_at 58%N s3 with
              | Some (hh, mm) =>
                  match number 2 d, number 2 m, number 4 y,
                        number 2 hh, number 2 mm with
                  | Some d', Some m', Some y', Some hh', Some mm' =>
                      if (List.length y =? 4)%nat && (List.length mm =? 2)%nat
                      then Some (d', m', y', hh', mm') else None
                  | _, _, _, _, _ => None
                  end
              | None => None
              end
          | None => None
          end
      | None => None
      end
  | None => None
  end.

Definition strptime (s : str) : option Z :=
  match fields s with
  | Some (d, m, y, hh, mm) => seconds y m d hh mm
  | None => None
  end.

(** Day first; month first when that is the only reading. *)
Definition to_datetime (s : str) : option Z :=
  match fields s with
  | Some (d, m, y, hh, mm) =>
      match seconds y m d hh mm with
      | Some t => Some t
      | None => seconds y d m hh mm
      end
  | None => None
  end.

Definition is_pictograph (c : char) : bool :=
  ((9728 <=? c) && (c <=? 10175) || (127744 <=? c) && (c <=? 129791))%N.

Fixpoint distinct (seen : list str) (l : list str) : list str :=
  match l with
  | [] => []
  | x :: l' =>
      if existsb (Str.eqb x) seen then distinct seen l'
      else x :: distinct (x :: seen) l'
  end.

Definition distinct_emoji_list (s : str) : list str :=
  distinct [] (List.map (fun c => [c]) (filter is_pictograph s)).

(** Insertion sorts: [before r x] decides whether the row [r], which
    comes earlier in the frame, is put in front of [x]. *)
Section Insertion.
Variable before : row -> row -> bool.

Fixpoint insert (r : row) (l : list row) : list row :=
  match l with
  | [] => [r]
  | x :: l' => if before r x then r :: l else x :: insert r l'
  end.

Definition isort (l : list row) : list row := fold_right insert [] l.
End Insertion.

(** Equal timestamps keep their order of appearance. *)
Definition sort_keep : list row -> list row :=
  isort (fun r x => (dt r <=? dt x)%Z).

End Ref.

(** ** The sort pandas reaches

    [df.sort_values("dt")] with the default [kind="quicksort"] comes down to
    [numpy.argsort] of the [datetime64] column, which is numpy's introsort
    on an array of positions ([aquicksort] of npysort): median-of-three
    partitions while a range has more than 17 elements, insertion sort on
    each shorter range, and heap sort when the partitions have gone
    [2 * floor(log2 n)] deep. Pointers into the array of positions are
    offsets ([Z]); every loop carries a bound on its number of rounds,
    large enough for the loop to end by its own test. *)

Module Numpy.

Definition SMALL_QUICKSORT : Z := 16.

Section Argsort.
Variable v : list Z.

(** [v[i]] *)
Definition key (i : nat) : Z := nth i v 0%Z.

(** [*p] *)
Definition rd (a : list nat) (p : Z) : nat := nth (Z.to_nat p) a 0%nat.

(** [*p = x] *)
Fixpoint put_nat (a : list nat) (p : nat) (x : nat) : list nat :=
  match a, p with
  | [], _ => []
  | _ :: a', 0%nat => x :: a'
  | y :: a', S p' => y :: put_nat a' p' x
  end.

Definition wr (a : list nat) (p : Z) (x : nat) : list nat :=
  if (p <? 0)%Z then a else put_nat a (Z.to_nat p) x.

(** [INTP_SWAP( *p, *q )] *)
Definition swap (a : list nat) (p q : Z) : list nat :=
  wr (wr a p (rd a q)) q (rd a p).

(** [LT(v[*p], v[*q])] *)
Definition lt (a : list nat) (p q : Z) : bool :=
  (key (rd a p) <? key (rd a q))%Z.

(** [do ++pi; while (LT(v[*pi], vp));] *)
Fixpoint up (fuel : nat) (a : list nat) (pi : Z) (vp : Z) : Z :=
  let pi' := (pi + 1)%Z in
  match fuel with
  | 0%nat => pi'
  | S f => if (key (rd a pi') <? vp)%Z then up f a pi' vp else pi'
  end.

(** [do --pj; while (LT(vp, v[*pj]));] *)
Fixpoint down (fuel : nat) (a : list nat) (pj : Z) (vp : Z) : Z :=
  let pj' := (pj - 1)%Z in
  match fuel with
  | 0%nat => pj'
  | S f => if (vp <? key (rd a pj'))%Z then down f a pj' vp else pj'
  end.

(** The [for (;;)] of the partition: the array and [pi] when it breaks. *)
Fixpoint cross (fuel : nat) (a : list nat) (pi pj : Z) (vp : Z)
  : list nat * Z :=
  let n := List.length a in
  let pi' := up n a pi vp in
  let pj' := down n a pj vp in
  if (pj' <=? pi')%Z then (a, pi')
  else
    match fuel with
    | 0%nat => (a, pi')
    | S f => cross f (swap a pi' pj') pi' pj' vp
    end.

(** What the loops carry: the positions, the range, the ranges put aside
    with their depths, the depth left. *)
Record state : Type := mkState {
  arr : list nat;
  pl : Z;
  pr : Z;
  stack : list (Z * Z * Z);
  cdepth : Z
}.

(** One round of [while ((pr - pl) > SMALL_QUICKSORT)]. *)
Definition partition (s : state) : state :=
  let a := arr s in
  let pl := pl s in
  let pr := pr s in
  let pm := (pl + Z.shiftr (pr - pl) 1)%Z in
  let a := if lt a pm pl then swap a pm pl else a in
  let a := if lt a pr pm then swap a pr pm else a in
  let a := if lt a pm pl then swap a pm pl else a in
  let vp := key (rd a pm) in
  let pj := (pr - 1)%Z in
  let a := swap a pm pj in
  let '(a, pi) := cross (List.length a) a pl pj vp in
  let pk := (pr - 1)%Z in
  let a := swap a pi pk in
  let d := (cdepth s - 1)%Z in
  if (pi - pl <? pr - pi)%Z
  then mkState a pl (pi - 1) ((pi + 1, pr, d)%Z :: stack s) d
  else mkState a (pi + 1) pr ((pl, pi - 1, d)%Z :: stack s) d.

Fixpoint partitions (fuel : nat) (s : state) : state :=
  if (SMALL_QUICKSORT <? pr s - pl s)%Z then
    match fuel with
    | 0%nat => s
    | S f => partitions f (partition s)
    end
  else s.

(** [while (pj > pl && LT(vp, v[*pk])) { *pj-- = *pk--; }] *)
Fixpoint shift (fuel : nat) (a : list nat) (pl pj : Z) (vp : Z)
  : list nat * Z :=
  if ((pl <? pj) && (vp <? key (rd a (pj - 1))))%Z then
    match fuel with
    | 0%nat => (a, pj)
    | S f => shift f (wr a pj (rd a (pj - 1))) pl (pj - 1) vp
    end
  else (a, pj).

(** The insertion sort of the range, from [pi] on. *)
Fixpoint insertion (fuel : nat) (a : list nat) (pl pr pi : Z) : list nat :=
  if (pi <=? pr)%Z then
    match fuel with
    | 0%nat => a
    | S f =>
        let vi := rd a pi in
        let '(a', pj) := shift (List.length a) a pl pi (key vi) in
        insertion f (wr a' pj vi) pl pr (pi + 1)
    end
  else a.

(** Heap sort of the [n] positions from [pl] on; [a[k]] is one-based. *)
Definition hrd (a : list nat) (pl k : Z) : nat := rd a (pl + k - 1).
Definition hwr (a : list nat) (pl k : Z) (x : nat) : list nat :=
  wr a (pl + k - 1) x.

Fixpoint sift (fuel : nat) (a : list nat) (pl i j n : Z) (tmp : nat)
  : list nat :=
  if (j <=? n)%Z then
    let j := if ((j <? n)
                 && (key (hrd a pl j) <? key (hrd a pl (j + 1))))%Z
             then (j + 1)%Z else j in
    if (key tmp <? key (hrd a pl j))%Z then
      match fuel with
      | 0%nat => hwr a pl i tmp
      | S f => sift f (hwr a pl i (hrd a pl j)) pl j (j + j) n tmp
      end
    else hwr a pl i tmp
  else hwr a pl i tmp.

(** [for (l = n >> 1; l > 0; --l)] *)
Fixpoint heapify (fuel : nat) (a : list nat) (pl l n : Z) : list nat :=
  if (0 <? l)%Z then
    match fuel with
    | 0%nat => a
    | S f =>
        heapify f (sift (List.length a) a pl l (Z.shiftl l 1) n (hrd a pl l))
                pl (l - 1) n
    end
  else a.

(** [for (; n > 1;)] *)
Fixpoint unheap (fuel : nat) (a : list nat) (pl n : Z) : list nat :=
  if (1 <? n)%Z then
    match fuel with
    | 0%nat => a
    | S f =>
        let tmp := hrd a pl n in
        let a := hwr a pl n (hrd a pl 1) in
        let n := (n - 1)%Z in
        unheap f (sift (List.length a) a pl 1 2 n tmp) pl n
    end
  else a.

Definition aheapsort (a : list nat) (pl n : Z) : list nat :=
  let k := List.length a in
  unheap k (heapify k a pl (Z.shiftr n 1) n) pl n.

(** The [while (1)] of [aquicksort]. *)
Fixpoint rounds (fuel : nat) (s : state) : list nat :=
  let k := List.length (arr s) in
  let s' :=
    if (cdepth s <? 0)%Z then
      mkState (aheapsort (arr s) (pl s) (pr s - pl s + 1))
              (pl s) (pr s) (stack s) (cdepth s)
    else
      let s1 := partitions k s in
      mkState (insertion k (arr s1) (pl s1) (pr s1) (pl s1 + 1))
              (pl s1) (pr s1) (stack s1) (cdepth s1) in
  match stack s' with
  | [] => arr s'
  | (l, r, d) :: rest =>
      match fuel with
      | 0%nat => arr s'
      | S f => rounds f (mkState (arr s') l r rest d)
      end
  end.

(** [v.argsort(kind="quicksort")] *)
Definition argsort : list nat :=
  let n := List.length v in
  rounds n (mkState (seq 0 n) 0 (Z.of_nat n - 1) []
                    (2 * Z.log2 (Z.of_nat n))).

End Argsort.

(** [df.take(indexer)] *)
Definition take (df : list row) (idx : list nat) : list row :=
  flat_map (fun i => match nth_error df i with
                     | Some r => [r]
                     | None => []
                     end) idx.

(** [df.sort_values("dt").reset_index(drop=True)]: the rows taken in the
    order of [argsort]. *)
Definition sort_values (df : list row) : list row :=
  take df (argsort (List.map dt df)).

End Numpy.

(** ** Concrete frames *)

Definition msg (t : Z) (a b : string) : row :=
  mkRow t (of_string a) (of_string b) [].

(** 1.1.2024 10:00, as the reference runtime counts seconds. *)
Definition ten : Z := 1704103200.

(** Three messages at 10:00, 10:01 and 10:10. *)
Definition morning : list row :=
  [msg ten "A" "hi"; msg (ten + 60) "B" "hey"; msg (ten + 600) "A" "so"].

(** A sign-off in the evening and a reply the next morning. *)
Definition two_days : list row :=
  [msg ten "A" "hi";
   msg (ten + 60) "B" "Iyi Geceler!";
   msg (ten + 8 * 3600) "A" "morning"].

Definition sign_offs : list str := [of_string " geceler "; of_string "  "].

(** ** Concrete transcripts *)

Definition hello_line : str := of_string "1.1.2024 10:00 - A: hello".
Definition world_line : str := of_string "world".
Definition hello_stamp : str := of_string "1.1.2024 10:00".

(** U+1F600 *)
Definition grinning : char := 128512%N.

(** The three messages of [morning] as lines of a transcript. *)
Definition morning_lines : list str :=
  [of_string "1.1.2024 10:00 - A: hi";
   of_string "1.1.2024 10:01 - B: hey";
   of_string "1.1.2024 10:10 - A: so"].

Definition bad_line : str := of_string "31.2.2024 10:00 - A: hello".

(** Eighteen messages of the same minute, numbered as they come. *)
Definition numbers : list string :=
  ["m00"; "m01"; "m02"; "m03"; "m04"; "m05"; "m06"; "m07"; "m08";
   "m09"; "m10"; "m11"; "m12"; "m13"; "m14"; "m15"; "m16"; "m17"]%string.

Definition same_minute_lines : list str :=
  List.map (fun m => of_string ("1.1.2024 10:00 - A: " ++ m)) numbers.

Definition same_minute_rows : list row := List.map (msg ten "A") numbers.

(** The order in which numpy leaves eighteen equal keys. *)
Definition same_minute_order : list nat :=
  [0; 15; 14; 13; 12; 11; 10; 9; 8; 7; 6; 5; 4; 3; 2; 1; 16; 17]%nat.

(** ** The reference runtime is a runtime *)

Section InsertionFacts.
Variable before : row -> row -> bool.
Hypothesis before_le : forall r x, before r x = true -> dt_le r x.
Hypothesis after_le : forall r x, before r x = false -> dt_le x r.

Lemma insert_perm (r : row) (l : list row) :
  Permutation (r :: l) (Ref.insert before r l).
Proof.
  induction l as [|x l IH]; simpl.
  - apply Permutation_refl.
  - destruct (before r x).
    + apply Permutation_refl.
    + eapply perm_trans; [apply perm_swap|].
      now apply perm_skip.
Qed.

Lemma isort_perm (l : list row) : Permutation l (Ref.isort before l).
Proof.
  induction l as [|r l IH]; simpl.
  - constructor.
  - eapply perm_trans; [apply perm_skip, IH|apply insert_perm].
Qed.

Lemma insert_sorted (r : row) (l : list row) :
  StronglySorted dt_le l -> StronglySorted dt_le (Ref.insert before r l).
Proof.
  induction 1 as [|x l Hs IH Hx]; simpl.
  - repeat constructor.
  - destruct (before r x) eqn:E.
    + constructor; [now constructor|].
      constructor; [now apply before_le|].
      apply before_le in E.
      eapply Forall_impl; [|exact Hx].
      unfold dt_le in *; intros; lia.
    + constructor; [exact IH|].
      eapply Permutation_Forall; [apply insert_perm|].
      constructor; [now apply after_le|exact Hx].
Qed.

Lemma isort_sorted (l : list row) : StronglySorted dt_le (Ref.isort before l).
Proof.
  induction l as [|r l IH]; simpl.
  - constructor.
  - now apply insert_sorted.
Qed.
End InsertionFacts.

Lemma ref_isdecimal_ascii (c : char) :
  (c < 128)%N -> Ref.isdecimal c = ((48 <=? c) && (c <=? 57))%N.
Proof. reflexivity. Qed.

Lemma leb_before (r x : row) : (dt r <=? dt x)%Z = true -> dt_le r x.
Proof. unfold dt_le; lia. Qed.

Lemma leb_after (r x : row) : (dt r <=? dt x)%Z = false -> dt_le x r.
Proof. unfold dt_le; lia. Qed.

(** The reference runtime; its sort keeps the order of equal timestamps. *)
Definition ref_runtime : Runtime :=
  {| isdecimal := Ref.isdecimal;
     lower := Ref.lower;
     strptime := Ref.strptime;
     to_datetime := Ref.to_datetime;
     distinct_emoji_list := Ref.distinct_emoji_list;
     sort_values := Ref.sort_keep;
     sort_values_perm := isort_perm _;
     sort_values_sorted := isort_sorted _ leb_before leb_after;
     isdecimal_ascii := ref_isdecimal_ascii |}.

(** ** The sort of numpy orders the positions *)

Section ArgsortFacts.
Variable v : list Z.
Local Open Scope Z_scope.

Import Numpy.

(** The positions [0 .. n-1], each once. *)
Definition perm (n : nat) (a : list nat) : Prop :=
  List.length a = n /\ NoDup a /\ forall x, In x a -> (x < n)%nat.

(** [a'] is [a] outside the range from [l] to [r]. *)
Definition kept (l r : Z) (a a' : list nat) : Prop :=
  forall i, 0 <= i < Z.of_nat (List.length a) -> i < l \/ r < i ->
            rd a' i = rd a i.

(** The key at a place of the array of positions. *)
Definition K (a : list nat) (p : Z) : Z := key v (rd a p).

Lemma length_put_nat (a : list nat) (p x : nat) :
  List.length (put_nat a p x) = List.length a.
Proof.
  revert p; induction a as [|y a IH]; intros [|p]; cbn [put_nat List.length];
    try reflexivity.
  now rewrite IH.
Qed.

Lemma nth_put_nat (a : list nat) (p x q : nat) :
  (p < List.length a)%nat ->
  nth q (put_nat a p x) 0%nat = if (q =? p)%nat then x else nth q a 0%nat.
Proof.
  revert p q; induction a as [|y a IH]; intros p q Hp; cbn [List.length] in Hp;
    [lia|].
  destruct p as [|p], q as [|q]; cbn [put_nat nth Nat.eqb]; try reflexivity.
  apply IH. lia.
Qed.

Lemma length_wr (a : list nat) (p : Z) (x : nat) :
  List.length (wr a p x) = List.length a.
Proof.
  unfold wr. destruct (p <? 0); [reflexivity|apply length_put_nat].
Qed.

Lemma rd_wr (a : list nat) (p q : Z) (x : nat) :
  0 <= p < Z.of_nat (List.length a) -> 0 <= q ->
  rd (wr a p x) q = if q =? p then x else rd a q.
Proof.
  intros Hp Hq. unfold wr, rd.
  destruct (Z.ltb_spec p 0) as [H|_]; [lia|].
  rewrite nth_put_nat by lia.
  destruct (Z.eqb_spec q p) as [->|Hn].
  - now rewrite Nat.eqb_refl.
  - destruct (Nat.eqb_spec (Z.to_nat q) (Z.to_nat p)) as [E|_]; [lia|].
    reflexivity.
Qed.

Lemma length_swap (a : list nat) (p q : Z) :
  List.length (swap a p q) = List.length a.
Proof. unfold swap. now rewrite !length_wr. Qed.

Lemma rd_swap (a : list nat) (p q i : Z) :
  0 <= p < Z.of_nat (List.length a) ->
  0 <= q < Z.of_nat (List.length a) ->
  0 <= i ->
  rd (swap a p q) i
  = if i =? q then rd a p else if i =? p then rd a q else rd a i.
Proof.
  intros Hp Hq Hi. unfold swap.
  rewrite rd_wr by (rewrite ?length_wr; lia).
  destruct (Z.eqb_spec i q); [reflexivity|].
  now rewrite rd_wr by lia.
Qed.

Lemma rd_nth (a : list nat) (i : nat) : rd a (Z.of_nat i) = nth i a 0%nat.
Proof. unfold rd. now rewrite Nat2Z.id. Qed.

(** An array read through a rearrangement of the places is a rearrangement
    of the array. *)
Lemma perm_reindex (n : nat) (a a' : list nat) (s : Z -> Z) :
  perm n a ->
  List.length a' = n ->
  (forall i, 0 <= i < Z.of_nat n ->
             0 <= s i < Z.of_nat n /\ rd a' i = rd a (s i)) ->
  (forall i j, 0 <= i < Z.of_nat n -> 0 <= j < Z.of_nat n ->
               s i = s j -> i = j) ->
  perm n a'.
Proof.
  intros [Hl [Hn Hb]] Hl' Hs Hinj.
  split; [exact Hl'|]. split.
  - apply (NoDup_nth a' 0%nat). intros i j Hi Hj E.
    rewrite <- !rd_nth in E.
    destruct (Hs (Z.of_nat i)) as [Hi1 Hi2]; [lia|].
    destruct (Hs (Z.of_nat j)) as [Hj1 Hj2]; [lia|].
    rewrite Hi2, Hj2 in E. unfold rd in E.
    apply (proj1 (NoDup_nth a 0%nat) Hn) in E; [|lia|lia].
    apply Nat2Z.inj. apply Hinj; lia.
  - intros x Hx. apply (In_nth _ _ 0%nat) in Hx.
    destruct Hx as [i [Hi <-]]. rewrite <- rd_nth.
    destruct (Hs (Z.of_nat i)) as [Hi1 Hi2]; [lia|].
    rewrite Hi2. apply Hb. unfold rd. apply nth_In. lia.
Qed.

Lemma perm_swap_places (n : nat) (a : list nat) (p q : Z) :
  perm n a -> 0 <= p < Z.of_nat n -> 0 <= q < Z.of_nat n ->
  perm n (swap a p q).
Proof.
  intros Ha Hp Hq. pose proof Ha as [Hl _].
  apply (perm_reindex n a _
           (fun i => if i =? q then p else if i =? p then q else i) Ha).
  - now rewrite length_swap.
  - intros i Hi. rewrite rd_swap by lia.
    destruct (Z.eqb_spec i q); [split; [lia|reflexivity]|].
    destruct (Z.eqb_spec i p); split; (lia || reflexivity).
  - intros i j Hi Hj.
    destruct (Z.eqb_spec i q), (Z.eqb_spec i p), (Z.eqb_spec j q),
      (Z.eqb_spec j p); lia.
Qed.

Lemma kept_swap (a : list nat) (l r p q : Z) :
  0 <= l -> r < Z.of_nat (List.length a) ->
  l <= p <= r -> l <= q <= r ->
  kept l r a (swap a p q).
Proof.
  intros Hl Hr Hp Hq i Hi Ho. rewrite rd_swap by lia.
  destruct (Z.eqb_spec i q); [lia|]. destruct (Z.eqb_spec i p); [lia|].
  reflexivity.
Qed.

Lemma kept_refl (l r : Z) (a : list nat) : kept l r a a.
Proof. intros i _ _. reflexivity. Qed.

Lemma kept_trans (l r : Z) (a b c : list nat) :
  List.length b = List.length a ->
  kept l r a b -> kept l r b c -> kept l r a c.
Proof.
  intros Hl H1 H2 i Hi Ho. rewrite H2 by (rewrite ?Hl; assumption).
  now apply H1.
Qed.

Lemma kept_wider (l r l' r' : Z) (a b : list nat) :
  l' <= l -> r <= r' -> kept l r a b -> kept l' r' a b.
Proof. intros Hl Hr H i Hi Ho. apply H; [exact Hi|lia]. Qed.

(** Every position is somewhere in the array. *)
Lemma perm_onto (n : nat) (a : list nat) (x : nat) :
  perm n a -> (x < n)%nat ->
  exists i, 0 <= i < Z.of_nat n /\ rd a i = x.
Proof.
  intros [Hl [Hn Hb]] Hx.
  assert (Hp : Permutation a (seq 0 n)).
  { apply NoDup_Permutation_bis; [exact Hn|rewrite length_seq; lia|].
    intros y Hy. apply in_seq. specialize (Hb y Hy). lia. }
  assert (Hin : In x a).
  { apply (Permutation_in _ (Permutation_sym Hp)). apply in_seq. lia. }
  apply (In_nth _ _ 0%nat) in Hin. destruct Hin as [i [Hi E]].
  exists (Z.of_nat i). split; [lia|]. now rewrite rd_nth.
Qed.

(** What a rearrangement inside a range shows in the range was in the
    range. *)
Lemma kept_inside (n : nat) (a a' : list nat) (l r j : Z) :
  perm n a -> perm n a' -> kept l r a a' ->
  0 <= j < Z.of_nat n -> l <= j <= r ->
  exists j', 0 <= j' < Z.of_nat n /\ l <= j' <= r /\ rd a' j = rd a j'.
Proof.
  intros Ha Ha' Hf Hj Hin.
  pose proof Ha as [Hl _]. pose proof Ha' as [Hl' [Hn' Hb']].
  assert (Hx : (rd a' j < n)%nat).
  { apply Hb'. unfold rd. apply nth_In. lia. }
  destruct (perm_onto n a _ Ha Hx) as [j' [Hj' E]].
  exists j'. split; [exact Hj'|]. split; [|now symmetry].
  destruct (Z_lt_dec j' l) as [H1|H1]; [|destruct (Z_lt_dec r j') as [H2|H2]];
    [| |lia];
    exfalso.
  - assert (E' : rd a' j' = rd a' j) by (rewrite Hf by lia; exact E).
    unfold rd in E'.
    apply (proj1 (NoDup_nth a' 0%nat) Hn') in E'; lia.
  - assert (E' : rd a' j' = rd a' j) by (rewrite Hf by lia; exact E).
    unfold rd in E'.
    apply (proj1 (NoDup_nth a' 0%nat) Hn') in E'; lia.
Qed.

(** *** The partition *)

Lemma up_spec (a : list nat) (vp : Z) (fuel : nat) :
  forall pi s,
    pi < s -> s - pi <= Z.of_nat fuel -> vp <= K a s ->
    pi < up v fuel a pi vp <= s
    /\ vp <= K a (up v fuel a pi vp)
    /\ forall i, pi < i < up v fuel a pi vp -> K a i < vp.
Proof.
  induction fuel as [|f IH]; intros pi s Hs Hf Hk; [lia|].
  cbn [up]. fold (K a (pi + 1)).
  destruct (Z.ltb_spec (K a (pi + 1)) vp) as [Hlt|Hge].
  - assert (Hne : pi + 1 <> s) by (intros E; rewrite E in Hlt; lia).
    destruct (IH (pi + 1) s) as [H1 [H2 H3]]; [lia|lia|exact Hk|].
    split; [lia|]. split; [exact H2|].
    intros i Hi. destruct (Z.eq_dec i (pi + 1)) as [->|Hn]; [exact Hlt|].
    apply H3. lia.
  - split; [lia|]. split; [exact Hge|]. intros i Hi. lia.
Qed.

Lemma down_spec (a : list nat) (vp : Z) (fuel : nat) :
  forall pj s,
    s < pj -> pj - s <= Z.of_nat fuel -> K a s <= vp ->
    s <= down v fuel a pj vp < pj
    /\ K a (down v fuel a pj vp) <= vp
    /\ forall i, down v fuel a pj vp < i < pj -> vp < K a i.
Proof.
  induction fuel as [|f IH]; intros pj s Hs Hf Hk; [lia|].
  cbn [down]. fold (K a (pj - 1)).
  destruct (Z.ltb_spec vp (K a (pj - 1))) as [Hlt|Hge].
  - assert (Hne : pj - 1 <> s) by (intros E; rewrite E in Hlt; lia).
    destruct (IH (pj - 1) s) as [H1 [H2 H3]]; [lia|lia|exact Hk|].
    split; [lia|]. split; [exact H2|].
    intros i Hi. destruct (Z.eq_dec i (pj - 1)) as [->|Hn]; [exact Hlt|].
    apply H3. lia.
  - split; [lia|]. split; [exact Hge|]. intros i Hi. lia.
Qed.

Lemma K_swap (a : list nat) (p q i : Z) :
  0 <= p < Z.of_nat (List.length a) ->
  0 <= q < Z.of_nat (List.length a) ->
  0 <= i ->
  K (swap a p q) i
  = if i =? q then K a p else if i =? p then K a q else K a i.
Proof.
  intros Hp Hq Hi. unfold K. rewrite rd_swap by assumption.
  destruct (i =? q); [reflexivity|]. now destruct (i =? p).
Qed.

(** The loop of the partition, from [pi] and [pj] with the keys up to
    [pi] not above the pivot and those from [pj] on not below it. *)
Lemma cross_spec (n : nat) (pl pr vp : Z) (fuel : nat) :
  0 <= pl -> pr < Z.of_nat n ->
  forall a pi pj,
    perm n a ->
    pl <= pi -> pi < pj -> pj <= pr - 1 ->
    pj - pi <= Z.of_nat fuel + 1 ->
    (forall i, pl <= i <= pi -> K a i <= vp) ->
    (forall j, pj <= j <= pr -> vp <= K a j) ->
    K a (pr - 1) = vp ->
    let a' := fst (cross v fuel a pi pj vp) in
    let q := snd (cross v fuel a pi pj vp) in
    perm n a' /\ kept pl pr a a'
    /\ pl < q <= pr - 1
    /\ (forall i, pl <= i < q -> K a' i <= vp)
    /\ vp <= K a' q
    /\ (forall j, q < j <= pr -> vp <= K a' j)
    /\ K a' (pr - 1) = vp.
Proof.
  intros Hpl Hpr.
  induction fuel as [|f IH]; intros a pi pj Ha Hi Hij Hj Hf Hlo Hhi Hp;
    pose proof Ha as [Hlen _];
    cbn [cross]; cbn zeta;
    (destruct (up_spec a vp (List.length a) pi pj) as [U1 [U2 U3]];
     [lia|lia|apply Hhi; lia|]);
    (destruct (down_spec a vp (List.length a) pj pi) as [D1 [D2 D3]];
     [lia|lia|apply Hlo; lia|]);
    set (pi' := up v (List.length a) a pi vp) in *;
    set (pj' := down v (List.length a) a pj vp) in *;
    assert (Hbelow : forall i, pl <= i < pi' -> K a i <= vp)
      by (intros i Hi'; destruct (Z_le_dec i pi);
          [apply Hlo; lia|apply Z.lt_le_incl, U3; lia]);
    assert (Habove : forall j, pj' < j <= pr -> vp <= K a j)
      by (intros j Hj'; destruct (Z_le_dec pj j);
          [apply Hhi; lia|apply Z.lt_le_incl, D3; lia]).
  - (* no round left: the places have met *)
    destruct (Z.leb_spec pj' pi') as [Hc|Hc]; [|lia].
    cbn [fst snd]. split; [exact Ha|]. split; [apply kept_refl|].
    split; [lia|]. split; [exact Hbelow|]. split; [exact U2|].
    split; [|exact Hp]. intros j Hj'. apply Habove. lia.
  - destruct (Z.leb_spec pj' pi') as [Hc|Hc].
    + cbn [fst snd]. split; [exact Ha|]. split; [apply kept_refl|].
      split; [lia|]. split; [exact Hbelow|]. split; [exact U2|].
      split; [|exact Hp]. intros j Hj'. apply Habove. lia.
    + assert (Hs : perm n (swap a pi' pj'))
        by (apply perm_swap_places; [exact Ha|lia|lia]).
      destruct (IH (swap a pi' pj') pi' pj' Hs) as [R1 [R2 R3]];
        try lia.
      * intros i Hi'. rewrite K_swap by lia.
        destruct (Z.eqb_spec i pj'); [lia|].
        destruct (Z.eqb_spec i pi'); [exact D2|]. apply Hbelow. lia.
      * intros j Hj'. rewrite K_swap by lia.
        destruct (Z.eqb_spec j pj'); [exact U2|].
        destruct (Z.eqb_spec j pi'); [lia|]. apply Habove. lia.
      * rewrite K_swap by lia.
        destruct (Z.eqb_spec (pr - 1) pj'); [lia|].
        destruct (Z.eqb_spec (pr - 1) pi'); [lia|]. exact Hp.
      * split; [exact R1|]. split; [|exact R3].
        apply (kept_trans pl pr a (swap a pi' pj'));
          [apply length_swap| |exact R2].
        apply kept_swap; lia.
Qed.

(** One exchange of the median of three: the key at [q] is not above the
    key at [p] afterwards. *)
Lemma exchange_spec (n : nat) (a : list nat) (p q : Z) :
  perm n a -> 0 <= p < Z.of_nat n -> 0 <= q < Z.of_nat n ->
  let a' := if lt v a p q then swap a p q else a in
  perm n a'
  /\ K a' q <= K a' p
  /\ (forall i, 0 <= i -> i <> p -> i <> q -> rd a' i = rd a i)
  /\ (K a' p = K a p /\ K a' q = K a q
      \/ K a' p = K a q /\ K a' q = K a p).
Proof.
  intros Ha Hp Hq. pose proof Ha as [Hl _]. cbn zeta. unfold lt.
  fold (K a p) (K a q).
  destruct (Z.ltb_spec (K a p) (K a q)) as [Hlt|Hge].
  - split; [now apply perm_swap_places|].
    rewrite !K_swap by lia. rewrite !Z.eqb_refl.
    destruct (Z.eqb_spec p q) as [E|E]; [subst; lia|].
    split; [lia|]. split; [|right; now split].
    intros i Hi H1 H2. rewrite rd_swap by lia.
    destruct (Z.eqb_spec i q); [lia|]. destruct (Z.eqb_spec i p); [lia|].
    reflexivity.
  - split; [exact Ha|]. split; [lia|]. split; [reflexivity|left; now split].
Qed.

Lemma partition_spec (n : nat) (s : state) :
  perm n (arr s) ->
  0 <= pl s -> pr s < Z.of_nat n -> 2 <= pr s - pl s ->
  let s' := partition v s in
  exists q,
    pl s < q < pr s
    /\ perm n (arr s')
    /\ kept (pl s) (pr s) (arr s) (arr s')
    /\ (forall i, pl s <= i < q -> K (arr s') i <= K (arr s') q)
    /\ (forall j, q < j <= pr s -> K (arr s') q <= K (arr s') j)
    /\ (pl s' = pl s /\ pr s' = q - 1
        /\ stack s' = (q + 1, pr s, cdepth s - 1) :: stack s
        \/ pl s' = q + 1 /\ pr s' = pr s
           /\ stack s' = (pl s, q - 1, cdepth s - 1) :: stack s).
Proof.
  intros Ha Hl Hr Hsz. cbn zeta. unfold partition.
  set (l := pl s) in *. set (r := pr s) in *.
  set (m := l + Z.shiftr (r - l) 1).
  assert (Hm : l < m < r).
  { unfold m. rewrite Z.shiftr_div_pow2 by lia. change (2 ^ 1) with 2.
    pose proof (Z.div_mod (r - l) 2 ltac:(lia)).
    pose proof (Z.mod_pos_bound (r - l) 2 ltac:(lia)). lia. }
  pose proof Ha as [Hlen _].
  destruct (exchange_spec n (arr s) m l Ha) as [P1 [O1 [F1 V1]]]; [lia|lia|].
  set (a1 := if lt v (arr s) m l then swap (arr s) m l else arr s) in *.
  destruct (exchange_spec n a1 r m P1) as [P2 [O2 [F2 V2]]]; [lia|lia|].
  set (a2 := if lt v a1 r m then swap a1 r m else a1) in *.
  destruct (exchange_spec n a2 m l P2) as [P3 [O3 [F3 V3]]]; [lia|lia|].
  set (a3 := if lt v a2 m l then swap a2 m l else a2) in *.
  assert (K1l : K a2 l = K a1 l)
    by (unfold K; rewrite F2 by lia; reflexivity).
  assert (K3r : K a3 r = K a2 r)
    by (unfold K; rewrite F3 by lia; reflexivity).
  assert (Hmed : K a3 l <= K a3 m <= K a3 r) by lia.
  assert (Hf3 : kept l r (arr s) a3).
  { intros i Hi Ho. rewrite F3, F2, F1 by lia. reflexivity. }
  pose proof P3 as [Hlen3 _].
  set (vp := key v (rd a3 m)). fold (K a3 m) in vp.
  set (a4 := swap a3 m (r - 1)).
  assert (P4 : perm n a4) by (apply perm_swap_places; [exact P3|lia|lia]).
  pose proof P4 as [Hlen4 _].
  assert (Hf4 : kept l r a3 a4) by (apply kept_swap; lia).
  destruct (cross_spec n l r vp (List.length a4) Hl Hr a4 l (r - 1) P4)
    as [P5 [F5 [Hq [Lo [Mid [Hi Piv]]]]]]; try lia.
  { intros i Hi. assert (i = l) by lia. subst i.
    unfold a4. rewrite K_swap by lia.
    destruct (Z.eqb_spec l (r - 1)); [lia|].
    destruct (Z.eqb_spec l m); [lia|]. unfold vp. lia. }
  { intros j Hj. unfold a4. rewrite K_swap by lia.
    destruct (Z.eqb_spec j (r - 1)); [unfold vp; lia|].
    destruct (Z.eqb_spec j m); [lia|].
    assert (j = r) by lia. subst j. unfold vp. lia. }
  { unfold a4. rewrite K_swap by lia. now rewrite Z.eqb_refl. }
  destruct (cross v (List.length a4) a4 l (r - 1) vp) as [a5 q] eqn:Ec.
  cbn [fst snd] in *. pose proof P5 as [Hlen5 _].
  set (a6 := swap a5 q (r - 1)).
  assert (P6 : perm n a6) by (apply perm_swap_places; [exact P5|lia|lia]).
  assert (Kq : K a6 q = vp).
  { unfold a6. rewrite K_swap by lia.
    destruct (Z.eqb_spec q (r - 1)) as [E|E]; [now rewrite E|].
    now rewrite Z.eqb_refl. }
  assert (Hpost : (forall i, l <= i < q -> K a6 i <= K a6 q)
                  /\ (forall j, q < j <= r -> K a6 q <= K a6 j)).
  { rewrite Kq. split.
    - intros i Hi'. unfold a6. rewrite K_swap by lia.
      destruct (Z.eqb_spec i (r - 1)); [lia|].
      destruct (Z.eqb_spec i q); [lia|]. apply Lo. lia.
    - intros j Hj'. unfold a6. rewrite K_swap by lia.
      destruct (Z.eqb_spec j (r - 1)); [exact Mid|].
      destruct (Z.eqb_spec j q); [lia|]. apply Hi. lia. }
  assert (Hf6 : kept l r (arr s) a6).
  { apply (kept_trans l r _ a3); [lia|exact Hf3|].
    apply (kept_trans l r _ a4); [lia|exact Hf4|].
    apply (kept_trans l r _ a5); [lia|exact F5|].
    apply kept_swap; lia. }
  exists q. destruct (Z.ltb_spec (q - l) (r - q));
    cbn [arr pl pr stack]; (split; [lia|]); (split; [exact P6|]);
    (split; [exact Hf6|]); (split; [exact (proj1 Hpost)|]);
    (split; [exact (proj2 Hpost)|]); [left|right]; repeat split.
Qed.

(** *** The insertion sort of a range *)

(** The array while the element of [pi] looks for its place: the elements
    after [pj] up to [pi] have moved one place up, and are above [vp]. *)
Definition shifted (a0 : list nat) (pi vp : Z) (a : list nat) (pj : Z)
  : Prop :=
  List.length a = List.length a0
  /\ (forall i, 0 <= i ->
                rd a i = if (pj <? i) && (i <=? pi) then rd a0 (i - 1)
                         else rd a0 i)
  /\ (forall i, pj < i <= pi -> vp < K a0 (i - 1)).

Lemma shift_spec (a0 : list nat) (pl pi vp : Z) (fuel : nat) :
  0 <= pl -> pi < Z.of_nat (List.length a0) ->
  forall a pj,
    pl <= pj <= pi ->
    pj - pl <= Z.of_nat fuel ->
    shifted a0 pi vp a pj ->
    let a' := fst (shift v fuel a pl pj vp) in
    let q := snd (shift v fuel a pl pj vp) in
    pl <= q <= pj
    /\ shifted a0 pi vp a' q
    /\ (q = pl \/ K a0 (q - 1) <= vp).
Proof.
  intros Hl Hr.
  induction fuel as [|f IH]; intros a pj Hj Hf [Hlen [Hrd Hgt]];
    cbn [shift]; fold (K a (pj - 1)).
  - destruct (Z.ltb_spec pl pj) as [H|H]; [lia|]. cbn [andb fst snd].
    split; [lia|]. split; [now split|left; lia].
  - destruct (Z.ltb_spec pl pj) as [H|H]; cbn [andb];
      [|cbn [fst snd]; split; [lia|]; split; [now split|left; lia]].
    assert (Ek : K a (pj - 1) = K a0 (pj - 1)).
    { unfold K. rewrite Hrd by lia.
      destruct (Z.ltb_spec pj (pj - 1)); [lia|reflexivity]. }
    destruct (Z.ltb_spec vp (K a (pj - 1))) as [Hlt|Hge];
      [|cbn [fst snd]; split; [lia|]; split; [now split|right; lia]].
    destruct (IH (wr a pj (rd a (pj - 1))) (pj - 1)) as [Q1 [Q2 Q3]];
      [lia|lia| |].
    + split; [now rewrite length_wr|]. split.
      * intros i Hi. rewrite rd_wr by lia.
        destruct (Z.eqb_spec i pj) as [->|Hn].
        -- rewrite Hrd by lia.
           destruct (Z.ltb_spec pj (pj - 1)); [lia|].
           destruct (Z.ltb_spec (pj - 1) pj); [|lia].
           destruct (Z.leb_spec pj pi); [|lia]. reflexivity.
        -- rewrite Hrd by lia.
           destruct (Z.ltb_spec pj i), (Z.ltb_spec (pj - 1) i);
             try lia; reflexivity.
      * intros i Hi. destruct (Z.eq_dec i pj) as [->|Hn]; [lia|].
        apply Hgt. lia.
    + split; [lia|]. split; [exact Q2|exact Q3].
Qed.

Definition sorted_in (a : list nat) (l r : Z) : Prop :=
  forall i j, l <= i -> i <= j -> j <= r -> K a i <= K a j.

(** The element of [pi] put at its place among the ordered elements
    before it. *)
Lemma insert_step (n : nat) (a0 a : list nat) (pl pi q : Z) :
  perm n a0 ->
  0 <= pl -> pl <= q <= pi -> pi < Z.of_nat n ->
  sorted_in a0 pl (pi - 1) ->
  shifted a0 pi (K a0 pi) a q ->
  q = pl \/ K a0 (q - 1) <= K a0 pi ->
  let a' := wr a q (rd a0 pi) in
  perm n a' /\ kept pl pi a0 a' /\ sorted_in a' pl pi.
Proof.
  intros Ha Hl Hq Hr Hs [Hlen [Hrd Hgt]] Hstop. cbn zeta.
  pose proof Ha as [Hn _].
  assert (Hv : forall i, 0 <= i ->
             rd (wr a q (rd a0 pi)) i
             = rd a0 (if i =? q then pi
                      else if (q <? i) && (i <=? pi) then i - 1 else i)).
  { intros i Hi. rewrite rd_wr by lia.
    destruct (Z.eqb_spec i q); [reflexivity|].
    rewrite Hrd by lia. now destruct ((q <? i) && (i <=? pi)). }
  split; [|split].
  - apply (perm_reindex n a0 _
             (fun i => if i =? q then pi
                       else if (q <? i) && (i <=? pi) then i - 1 else i) Ha).
    + rewrite length_wr. lia.
    + intros i Hi. split; [|apply Hv; lia].
      destruct (Z.eqb_spec i q); [lia|].
      destruct (Z.ltb_spec q i), (Z.leb_spec i pi); cbn [andb]; lia.
    + intros i j Hi Hj.
      destruct (Z.eqb_spec i q), (Z.eqb_spec j q); try lia;
        destruct (Z.ltb_spec q i), (Z.leb_spec i pi),
          (Z.ltb_spec q j), (Z.leb_spec j pi); cbn [andb]; lia.
  - intros i Hi Ho. rewrite Hv by lia.
    destruct (Z.eqb_spec i q); [lia|].
    destruct (Z.ltb_spec q i), (Z.leb_spec i pi); cbn [andb];
      (lia || reflexivity).
  - intros i j Hi Hij Hj. unfold K. rewrite !Hv by lia.
    fold (K a0 (if i =? q then pi
                else if (q <? i) && (i <=? pi) then i - 1 else i)).
    fold (K a0 (if j =? q then pi
                else if (q <? j) && (j <=? pi) then j - 1 else j)).
    destruct (Z.eqb_spec i q) as [Ei|Ei], (Z.eqb_spec j q) as [Ej|Ej].
    + lia.
    + destruct (Z.ltb_spec q j), (Z.leb_spec j pi); cbn [andb]; try lia.
      apply Z.lt_le_incl, Hgt. lia.
    + destruct (Z.ltb_spec q i), (Z.leb_spec i pi); cbn [andb]; try lia.
      destruct Hstop as [Hstop|Hstop]; [lia|].
      apply Z.le_trans with (K a0 (q - 1)); [|exact Hstop].
      apply Hs; lia.
    + destruct (Z.ltb_spec q i), (Z.leb_spec i pi),
        (Z.ltb_spec q j), (Z.leb_spec j pi); cbn [andb]; try lia;
        apply Hs; lia.
Qed.

Lemma insertion_spec (n : nat) (pl pr : Z) (fuel : nat) :
  0 <= pl -> pr < Z.of_nat n ->
  forall a pi,
    perm n a ->
    pl < pi ->
    pr + 1 - pi <= Z.of_nat fuel ->
    sorted_in a pl (pi - 1) ->
    let a' := insertion v fuel a pl pr pi in
    perm n a' /\ kept pl pr a a' /\ sorted_in a' pl pr.
Proof.
  intros Hl Hr.
  induction fuel as [|f IH]; intros a pi Ha Hi Hf Hs; cbn [insertion].
  - destruct (Z.leb_spec pi pr); [lia|].
    split; [exact Ha|]. split; [apply kept_refl|].
    intros i j H1 H2 H3. apply Hs; lia.
  - destruct (Z.leb_spec pi pr) as [Hle|Hgt];
      [|split; [exact Ha|]; split; [apply kept_refl|];
        intros i j H1 H2 H3; apply Hs; lia].
    pose proof Ha as [Hn _]. fold (K a pi).
    destruct (shift_spec a pl pi (K a pi) (List.length a) Hl ltac:(lia)
                         a pi ltac:(lia) ltac:(lia))
      as [Q1 [Q2 Q3]].
    { split; [reflexivity|]. split; [|intros i Hi'; lia].
      intros i Hi'. destruct (Z.ltb_spec pi i), (Z.leb_spec i pi);
        cbn [andb]; (lia || reflexivity). }
    destruct (shift v (List.length a) a pl pi (K a pi)) as [a1 q] eqn:Es.
    cbn [fst snd] in *.
    destruct (insert_step n a a1 pl pi q Ha Hl Q1 ltac:(lia) Hs Q2 Q3)
      as [P1 [F1 S1]].
    destruct (IH (wr a1 q (rd a pi)) (pi + 1) P1) as [P2 [F2 S2]];
      [lia|lia| |].
    + replace (pi + 1 - 1) with pi by lia. exact S1.
    + split; [exact P2|]. split; [|exact S2].
      apply (kept_trans pl pr a (wr a1 q (rd a pi)));
        [destruct P1 as [E _]; lia| |exact F2].
      apply (kept_wider pl pi); [lia|lia|exact F1].
Qed.

(** *** The heap sort of a range *)

Section Heap.
Variable n : nat.
Variable base : Z.
Hypothesis base_pos : 0 <= base.

(** The key of the heap at the one-based place [k]. *)
Definition hkey (a : list nat) (k : Z) : Z := K a (base + k - 1).

(** Every place from [lo] to [m] holds a key not below those of its
    children. *)
Definition heap (a : list nat) (lo m : Z) : Prop :=
  forall k c, lo <= k <= m -> c = 2 * k \/ c = 2 * k + 1 -> c <= m ->
              hkey a c <= hkey a k.

Lemma hkey_hwr (a : list nat) (i k : Z) (x : nat) :
  1 <= i -> base + i <= Z.of_nat (List.length a) -> 1 <= k ->
  hkey (hwr a base i x) k = if k =? i then key v x else hkey a k.
Proof.
  intros Hi Hr Hk. unfold hkey, hwr, K. rewrite rd_wr by lia.
  destruct (Z.eqb_spec (base + k - 1) (base + i - 1)),
    (Z.eqb_spec k i); (lia || reflexivity).
Qed.

Lemma length_hwr (a : list nat) (i : Z) (x : nat) :
  List.length (hwr a base i x) = List.length a.
Proof. unfold hwr. apply length_wr. Qed.

Lemma rd_hwr (a : list nat) (i : Z) (x : nat) (p : Z) :
  1 <= i -> base + i <= Z.of_nat (List.length a) -> 0 <= p ->
  rd (hwr a base i x) p = if p =? base + i - 1 then x else rd a p.
Proof. intros Hi Hr Hp. unfold hwr. now rewrite rd_wr by lia. Qed.

Section Sift.
Variables m lo : Z.
Variable tmp : nat.
Hypothesis m_fits : base + m <= Z.of_nat n.
Hypothesis lo_pos : 1 <= lo.

(** The heap with a hole at [i]. *)
Definition holed (a : list nat) (i : Z) : Prop :=
  (forall k c, lo <= k <= m -> k <> i -> c = 2 * k \/ c = 2 * k + 1 ->
               c <= m -> c <> i -> hkey a c <= hkey a k)
  /\ (forall p, lo <= p -> i = 2 * p \/ i = 2 * p + 1 ->
                key v tmp <= hkey a p
                /\ forall c, c = 2 * i \/ c = 2 * i + 1 -> c <= m ->
                             hkey a c <= hkey a p).

Lemma holed_filled (a : list nat) (i : Z) :
  List.length a = n -> lo <= i <= m ->
  holed a i ->
  (forall c, c = 2 * i \/ c = 2 * i + 1 -> c <= m ->
             hkey a c <= key v tmp) ->
  heap (hwr a base i tmp) lo m.
Proof.
  intros Hn Hi [H1 H2] Hc k c Hk Hkc Hcm.
  rewrite !hkey_hwr by lia.
  destruct (Z.eqb_spec c i) as [Ec|Ec], (Z.eqb_spec k i) as [Ek|Ek];
    try lia.
  - subst c. exact (proj1 (H2 k ltac:(lia) Hkc)).
  - subst k. now apply Hc.
  - now apply H1.
Qed.

Lemma sift_spec (fuel : nat) :
  forall a i j,
    j = 2 * i -> lo <= i <= m ->
    List.length a = n ->
    perm n (hwr a base i tmp) ->
    holed a i ->
    m + 1 - j <= Z.of_nat fuel ->
    let r := sift v fuel a base i j m tmp in
    perm n r
    /\ kept (base + i - 1) (base + m - 1) (hwr a base i tmp) r
    /\ heap r lo m.
Proof.
  induction fuel as [|f IH]; intros a i j Hj Hi Hn Hp Hh Hf; cbn [sift];
    change (key v (hrd a base j)) with (hkey a j);
    change (key v (hrd a base (j + 1))) with (hkey a (j + 1)).
  - destruct (Z.leb_spec j m); [lia|].
    split; [exact Hp|]. split; [apply kept_refl|].
    apply holed_filled; try assumption. intros c Hc Hcm. lia.
  - destruct (Z.leb_spec j m) as [Hjm|Hjm];
      [|split; [exact Hp|]; split; [apply kept_refl|];
        apply holed_filled; try assumption; intros c Hc Hcm; lia].
    set (j' := if (j <? m) && (hkey a j <? hkey a (j + 1)) then j + 1
               else j).
    assert (Hj' : (j' = j \/ j' = j + 1) /\ j' <= m
                  /\ forall c, c = 2 * i \/ c = 2 * i + 1 -> c <= m ->
                               hkey a c <= hkey a j').
    { unfold j'. destruct (Z.ltb_spec j m) as [H1|H1]; cbn [andb].
      - destruct (Z.ltb_spec (hkey a j) (hkey a (j + 1))) as [H2|H2].
        + split; [now right|]. split; [lia|].
          intros c [-> | ->] Hc; [subst j; lia|].
          replace (2 * i + 1) with (j + 1) by lia. lia.
        + split; [now left|]. split; [lia|].
          intros c [-> | ->] Hc; [subst j; lia|].
          replace (2 * i + 1) with (j + 1) by lia. lia.
      - split; [now left|]. split; [lia|].
        intros c [-> | ->] Hc; [subst j; lia|lia]. }
    destruct Hj' as [Hjj [Hj'm Hbig]].
    change (key v (hrd a base j')) with (hkey a j').
    destruct (Z.ltb_spec (key v tmp) (hkey a j')) as [Hlt|Hge];
      [|split; [exact Hp|]; split; [apply kept_refl|];
        apply holed_filled; try assumption;
        intros c Hc Hcm; specialize (Hbig c Hc Hcm); lia].
    set (a' := hwr a base i (hrd a base j')).
    assert (Hn' : List.length a' = n)
      by (unfold a'; now rewrite length_hwr).
    assert (Hv : forall p, 0 <= p ->
               rd (hwr a' base j' tmp) p
               = rd (hwr a base i tmp)
                    (if p =? base + j' - 1 then base + i - 1
                     else if p =? base + i - 1 then base + j' - 1 else p)).
    { intros p Hp0. rewrite (rd_hwr a') by lia. unfold a'.
      destruct (Z.eqb_spec p (base + j' - 1)) as [E1|E1].
      - rewrite rd_hwr by lia. now rewrite Z.eqb_refl.
      - rewrite (rd_hwr a i (hrd a base j')) by lia.
        destruct (Z.eqb_spec p (base + i - 1)) as [E2|E2].
        + rewrite rd_hwr by lia.
          destruct (Z.eqb_spec (base + j' - 1) (base + i - 1)); [lia|].
          reflexivity.
        + rewrite rd_hwr by lia.
          destruct (Z.eqb_spec p (base + i - 1)); [lia|reflexivity]. }
    destruct (IH a' j' (j' + j')) as [R1 [R2 R3]];
      [lia|lia|exact Hn'| | |lia|].
    + apply (perm_reindex n (hwr a base i tmp) _
               (fun p => if p =? base + j' - 1 then base + i - 1
                         else if p =? base + i - 1 then base + j' - 1
                              else p) Hp).
      * now rewrite length_hwr.
      * intros p Hp0. split; [|apply Hv; lia].
        destruct (Z.eqb_spec p (base + j' - 1)); [lia|].
        destruct (Z.eqb_spec p (base + i - 1)); lia.
      * intros p q Hp0 Hq0.
        destruct (Z.eqb_spec p (base + j' - 1)),
          (Z.eqb_spec p (base + i - 1)),
          (Z.eqb_spec q (base + j' - 1)),
          (Z.eqb_spec q (base + i - 1)); lia.
    + destruct Hh as [H1 H2]. split.
      * intros k c Hk Hkj Hkc Hcm Hcj. unfold a'.
        rewrite !hkey_hwr by lia. change (key v (hrd a base j')) with (hkey a j').
        destruct (Z.eqb_spec c i) as [Ec|Ec], (Z.eqb_spec k i) as [Ek|Ek];
          try lia.
        -- subst c.
           exact (proj2 (H2 k ltac:(lia) Hkc) j' ltac:(lia) Hj'm).
        -- subst k. apply Hbig; [exact Hkc|exact Hcm].
        -- now apply H1.
      * intros p Hp0 Hpj. assert (p = i) by lia. subst p. unfold a'.
        rewrite !hkey_hwr by lia. rewrite Z.eqb_refl.
        change (key v (hrd a base j')) with (hkey a j'). split; [lia|].
        intros c Hc Hcm. rewrite hkey_hwr by lia.
        destruct (Z.eqb_spec c i); [lia|].
        apply H1; try lia.
    + split; [exact R1|]. split; [|exact R3].
      intros p Hp0 Ho. rewrite R2.
      * rewrite Hv by lia.
        destruct (Z.eqb_spec p (base + j' - 1)); [lia|].
        destruct (Z.eqb_spec p (base + i - 1)); [lia|reflexivity].
      * rewrite length_hwr in Hp0 |- *. lia.
      * lia.
Qed.

End Sift.

Lemma hwr_same (a : list nat) (k : Z) (p : Z) :
  1 <= k -> base + k <= Z.of_nat (List.length a) -> 0 <= p ->
  rd (hwr a base k (hrd a base k)) p = rd a p.
Proof.
  intros Hk Hr Hp. rewrite rd_hwr by lia.
  destruct (Z.eqb_spec p (base + k - 1)) as [->|]; reflexivity.
Qed.

Lemma perm_same (a a' : list nat) :
  perm n a -> List.length a' = n ->
  (forall p, 0 <= p < Z.of_nat n -> rd a' p = rd a p) ->
  perm n a'.
Proof.
  intros Ha Hl He. apply (perm_reindex n a a' (fun p => p) Ha Hl).
  - intros p Hp. split; [lia|now apply He].
  - intros p q _ _ E. exact E.
Qed.

Lemma heapify_spec (m : Z) (fuel : nat) :
  base + m <= Z.of_nat n ->
  forall a l,
    0 <= l -> l <= m ->
    perm n a ->
    heap a (l + 1) m ->
    l <= Z.of_nat fuel ->
    let r := heapify v fuel a base l m in
    perm n r /\ kept base (base + m - 1) a r /\ heap r 1 m.
Proof.
  intros Hm.
  induction fuel as [|f IH]; intros a l Hl Hlm Ha Hh Hf; cbn [heapify].
  - destruct (Z.ltb_spec 0 l); [lia|].
    split; [exact Ha|]. split; [apply kept_refl|].
    replace l with 0 in Hh by lia. exact Hh.
  - destruct (Z.ltb_spec 0 l) as [Hpos|Hz];
      [|split; [exact Ha|]; split; [apply kept_refl|];
        replace l with 0 in Hh by lia; exact Hh].
    pose proof Ha as [Hn _].
    assert (Hp : perm n (hwr a base l (hrd a base l))).
    { apply (perm_same a); [exact Ha|now rewrite length_hwr|].
      intros p Hp. apply hwr_same; lia. }
    destruct (sift_spec m l (hrd a base l) Hm ltac:(lia) (List.length a)
                        a l (Z.shiftl l 1))
      as [S1 [S2 S3]];
      [rewrite Z.shiftl_mul_pow2 by lia; change (2 ^ 1) with 2; lia
      |lia|exact Hn|exact Hp| |rewrite Z.shiftl_mul_pow2 by lia;
                               change (2 ^ 1) with 2; lia|].
    { split.
      - intros k c Hk Hkl Hkc Hcm Hcl. apply Hh; [lia|exact Hkc|exact Hcm].
      - intros p Hp0 Hpl. lia. }
    destruct (IH (sift v (List.length a) a base l (Z.shiftl l 1) m
                       (hrd a base l)) (l - 1))
      as [R1 [R2 R3]]; [lia|lia|exact S1| |lia|].
    + replace (l - 1 + 1) with l by lia. exact S3.
    + split; [exact R1|]. split; [|exact R3].
      intros p Hp0 Ho. rewrite R2; [|destruct S1 as [E _]; lia|lia].
      rewrite S2; [|rewrite length_hwr; lia|lia].
      apply hwr_same; lia.
Qed.

(** The root of a heap holds the largest key. *)
Lemma heap_root (a : list nat) (m : Z) :
  heap a 1 m -> forall k, 1 <= k <= m -> hkey a k <= hkey a 1.
Proof.
  intros Hh k Hk.
  assert (H : forall d : nat, forall k, 1 <= k <= m -> k <= Z.of_nat d ->
                              hkey a k <= hkey a 1).
  { induction d as [|d IHd]; intros k' Hk' Hd; [lia|].
    destruct (Z.eq_dec k' 1) as [->|Hne]; [lia|].
    pose proof (Z.div_mod k' 2 ltac:(lia)) as Hdm.
    pose proof (Z.mod_pos_bound k' 2 ltac:(lia)) as Hmb.
    apply Z.le_trans with (hkey a (k' / 2)).
    - apply Hh; lia.
    - apply IHd; lia. }
  apply (H (Z.to_nat k)); lia.
Qed.

Lemma unheap_spec (size : Z) (fuel : nat) :
  base + size <= Z.of_nat n ->
  forall a m,
    0 <= m <= size ->
    perm n a ->
    heap a 1 m ->
    sorted_in a (base + m) (base + size - 1) ->
    (forall i j, 1 <= i <= m -> m < j <= size -> hkey a i <= hkey a j) ->
    m - 1 <= Z.of_nat fuel ->
    let r := unheap v fuel a base m in
    perm n r /\ kept base (base + size - 1) a r
    /\ sorted_in r base (base + size - 1).
Proof.
  intros Hsz.
  assert (Hdone : forall a m, 0 <= m <= 1 -> m <= size ->
             sorted_in a (base + m) (base + size - 1) ->
             (forall i j, 1 <= i <= m -> m < j <= size ->
                          hkey a i <= hkey a j) ->
             sorted_in a base (base + size - 1)).
  { intros a m Hm Hms Hs Hc i j H1 H2 H3.
    destruct (Z.eq_dec i j) as [->|Hne]; [lia|].
    destruct (Z_le_dec (base + m) i) as [Hi|Hi]; [apply Hs; lia|].
    assert (m = 1) by lia. subst m. assert (i = base) by lia. subst i.
    specialize (Hc 1 (j - base + 1) ltac:(lia) ltac:(lia)).
    unfold hkey in Hc.
    replace (base + 1 - 1) with base in Hc by lia.
    replace (base + (j - base + 1) - 1) with j in Hc by lia. exact Hc. }
  induction fuel as [|f IH]; intros a m Hm Ha Hh Hs Hc Hf; cbn [unheap].
  - destruct (Z.ltb_spec 1 m); [lia|].
    split; [exact Ha|]. split; [apply kept_refl|].
    apply (Hdone a m); (lia || assumption).
  - destruct (Z.ltb_spec 1 m) as [Hbig|Hsmall];
      [|split; [exact Ha|]; split; [apply kept_refl|];
        apply (Hdone a m); (lia || assumption)].
    pose proof Ha as [Hn _]. cbn zeta.
    set (tmp := hrd a base m).
    set (a1 := hwr a base m (hrd a base 1)).
    assert (Hn1 : List.length a1 = n)
      by (unfold a1; now rewrite length_hwr).
    assert (Hv : forall p, 0 <= p ->
               rd (hwr a1 base 1 tmp) p
               = rd a (if p =? base then base + m - 1
                       else if p =? base + m - 1 then base else p)).
    { intros p Hp. rewrite (rd_hwr a1) by lia. unfold a1, tmp.
      replace (base + 1 - 1) with base by lia.
      destruct (Z.eqb_spec p base); [reflexivity|].
      rewrite rd_hwr by lia.
      destruct (Z.eqb_spec p (base + m - 1)); [|reflexivity].
      unfold hrd. now replace (base + 1 - 1) with base by lia. }
    assert (Hp1 : perm n (hwr a1 base 1 tmp)).
    { apply (perm_reindex n a _
               (fun p => if p =? base then base + m - 1
                         else if p =? base + m - 1 then base else p) Ha).
      - now rewrite length_hwr.
      - intros p Hp. split; [|apply Hv; lia].
        destruct (Z.eqb_spec p base); [lia|].
        destruct (Z.eqb_spec p (base + m - 1)); lia.
      - intros p q Hp Hq.
        destruct (Z.eqb_spec p base), (Z.eqb_spec p (base + m - 1)),
          (Z.eqb_spec q base), (Z.eqb_spec q (base + m - 1)); lia. }
    destruct (sift_spec (m - 1) 1 tmp ltac:(lia) ltac:(lia) (List.length a1)
                        a1 1 2)
      as [S1 [S2 S3]]; [lia|lia|exact Hn1|exact Hp1| |lia|].
    { split.
      - intros k c Hk Hk1 Hkc Hcm Hc1. unfold a1.
        rewrite !hkey_hwr by lia.
        destruct (Z.eqb_spec c m); [lia|]. destruct (Z.eqb_spec k m); [lia|].
        apply Hh; lia.
      - intros p Hp Hp1'. lia. }
    set (r1 := sift v (List.length a1) a1 base 1 2 (m - 1) tmp) in *.
    replace (base + 1 - 1) with base in S2 by lia.
    assert (Hout : forall p, base + m - 1 <= p < Z.of_nat n ->
               rd r1 p = rd a (if p =? base + m - 1 then base else p)).
    { intros p Hp. rewrite S2;
        [|rewrite length_hwr; lia|lia].
      rewrite Hv by lia. destruct (Z.eqb_spec p base); [lia|].
      reflexivity. }
    assert (Hin : forall i, 1 <= i <= m - 1 ->
               exists i', 1 <= i' <= m /\ hkey r1 i = hkey a i').
    { intros i Hi.
      destruct (kept_inside n _ r1 base (base + (m - 1) - 1)
                             (base + i - 1) Hp1 S1 S2)
        as [p [Hp [Hpr E]]]; [lia|lia|].
      rewrite Hv in E by lia.
      destruct (Z.eqb_spec p base) as [Ep|Ep].
      - exists m. split; [lia|]. unfold hkey, K. now rewrite E.
      - destruct (Z.eqb_spec p (base + m - 1)); [lia|].
        exists (p - base + 1). split; [lia|]. unfold hkey, K. rewrite E.
        now replace (base + (p - base + 1) - 1) with p by lia. }
    destruct (IH r1 (m - 1)) as [R1 [R2 R3]];
      [lia|exact S1|exact S3| | |lia|].
    + (* the ordered end, one longer *)
      intros i j H1 H2 H3. unfold K. rewrite !Hout by lia. fold (K a base).
      destruct (Z.eqb_spec i (base + m - 1)) as [Ei|Ei],
        (Z.eqb_spec j (base + m - 1)) as [Ej|Ej]; try lia.
      * specialize (Hc 1 (j - base + 1) ltac:(lia) ltac:(lia)).
        unfold hkey in Hc.
        replace (base + 1 - 1) with base in Hc by lia.
        replace (base + (j - base + 1) - 1) with j in Hc by lia.
        exact Hc.
      * apply Hs; lia.
    + (* the heap is below the ordered end *)
      intros i j Hi Hj. destruct (Hin i Hi) as [i' [Hi' ->]].
      assert (Ej : hkey r1 j = hkey a (if j =? m then 1 else j)).
      { unfold hkey, K. rewrite Hout by lia.
        destruct (Z.eqb_spec (base + j - 1) (base + m - 1)),
          (Z.eqb_spec j m); try lia.
        now replace (base + 1 - 1) with base by lia. }
      rewrite Ej. destruct (Z.eqb_spec j m).
      * now apply (heap_root a m).
      * apply Hc; lia.
    + split; [exact R1|]. split; [|exact R3].
      intros p Hp Ho. rewrite R2; [|destruct S1 as [E _]; lia|lia].
      rewrite S2; [|rewrite length_hwr; lia|lia].
      rewrite Hv by lia. destruct (Z.eqb_spec p base); [lia|].
      destruct (Z.eqb_spec p (base + m - 1)); [lia|reflexivity].
Qed.

Lemma aheapsort_spec (a : list nat) (size : Z) :
  0 <= size -> base + size <= Z.of_nat n ->
  perm n a ->
  let r := aheapsort v a base size in
  perm n r /\ kept base (base + size - 1) a r
  /\ sorted_in r base (base + size - 1).
Proof.
  intros Hs Hf Ha. pose proof Ha as [Hn _]. cbn zeta. unfold aheapsort.
  assert (Hhalf : 0 <= Z.shiftr size 1 <= size
                  /\ size < 2 * (Z.shiftr size 1 + 1)).
  { rewrite Z.shiftr_div_pow2 by lia. change (2 ^ 1) with 2.
    pose proof (Z.div_mod size 2 ltac:(lia)).
    pose proof (Z.mod_pos_bound size 2 ltac:(lia)). lia. }
  destruct (heapify_spec size (List.length a) Hf a (Z.shiftr size 1))
    as [H1 [H2 H3]]; [lia|lia|exact Ha| |lia|].
  { intros k c Hk Hc Hcm. lia. }
  destruct (unheap_spec size (List.length a) Hf
              (heapify v (List.length a) a base (Z.shiftr size 1) size) size)
    as [U1 [U2 U3]]; [lia|exact H1|exact H3| | |lia|].
  - intros i j Hi Hij Hj. lia.
  - intros i j Hi Hj. lia.
  - split; [exact U1|]. split; [|exact U3].
    apply (kept_trans _ _ a
             (heapify v (List.length a) a base (Z.shiftr size 1) size));
      [destruct H1 as [E _]; lia|exact H2|exact U2].
Qed.

End Heap.

(** *** The ranges still to sort *)

Section Ranges.
Variable n : nat.

Definition ranges (st : list (Z * Z * Z)) : list (Z * Z) :=
  List.map (fun e => (fst (fst e), snd (fst e))) st.

Definition apart (x y : Z * Z) : Prop := snd x < fst y \/ snd y < fst x.

(** Two places that no range holds together are in order. *)
Definition ordered_but (a : list nat) (P : list (Z * Z)) : Prop :=
  forall i j, 0 <= i -> i < j -> j < Z.of_nat n ->
              (forall x, In x P -> ~ (fst x <= i /\ j <= snd x)) ->
              K a i <= K a j.

Definition pending (a : list nat) (P : list (Z * Z)) : Prop :=
  perm n a
  /\ (forall x, In x P -> 0 <= fst x /\ fst x <= snd x /\ snd x < Z.of_nat n)
  /\ ForallOrdPairs apart P
  /\ ordered_but a P.

Definition weight (P : list (Z * Z)) : Z :=
  fold_right (fun x w => snd x - fst x + 1 + w) 0 P.

Lemma weight_cons (x : Z * Z) (P : list (Z * Z)) :
  weight (x :: P) = snd x - fst x + 1 + weight P.
Proof. reflexivity. Qed.

Lemma weight_length (P : list (Z * Z)) :
  (forall x, In x P -> fst x <= snd x) ->
  Z.of_nat (List.length P) <= weight P.
Proof.
  induction P as [|x P IH]; intros H; cbn [List.length weight fold_right];
    [lia|].
  fold (weight P). specialize (H x (or_introl eq_refl)) as H0.
  assert (Z.of_nat (List.length P) <= weight P)
    by (apply IH; intros y Hy; apply H; now right).
  lia.
Qed.

Lemma ordered_transfer (a a' : list nat) (l r : Z) (P : list (Z * Z)) :
  perm n a -> perm n a' -> kept l r a a' ->
  0 <= l -> r < Z.of_nat n ->
  Forall (apart (l, r)) P ->
  ordered_but a ((l, r) :: P) ->
  forall i j, 0 <= i -> i < j -> j < Z.of_nat n ->
              ~ (l <= i /\ j <= r) ->
              (forall x, In x P -> ~ (fst x <= i /\ j <= snd x)) ->
              K a' i <= K a' j.
Proof.
  intros Ha Ha' Hf Hl Hr Hd Ho i j Hi Hij Hj Hn HP.
  pose proof Ha as [Hlen _]. rewrite Forall_forall in Hd.
  assert (Hout : forall i' j', 0 <= i' -> i' < j' -> j' < Z.of_nat n ->
             ~ (l <= i' /\ j' <= r) ->
             (forall x, In x P -> ~ (fst x <= i' /\ j' <= snd x)) ->
             K a i' <= K a j').
  { intros i' j' H1 H2 H3 H4 H5. apply Ho; try assumption.
    intros x [<-|Hx]; [exact H4|now apply H5]. }
  destruct (Z_lt_dec i l) as [Hil|Hil].
  - (* i before the range *)
    destruct (Z_lt_dec j l) as [Hjl|Hjl];
      [|destruct (Z_lt_dec r j) as [Hjr|Hjr]].
    + unfold K. rewrite !Hf by lia. apply Hout; (lia || assumption).
    + unfold K. rewrite !Hf by lia. apply Hout; (lia || assumption).
    + destruct (kept_inside n a a' l r j Ha Ha' Hf) as [j' [H1 [H2 E]]];
        [lia|lia|].
      unfold K. rewrite E, Hf by lia. apply Hout; try lia.
      intros x Hx [H3 H4]. specialize (Hd x Hx). unfold apart in Hd.
      cbn [fst snd] in Hd.
      apply (HP x Hx). lia.
  - destruct (Z_lt_dec r i) as [Hir|Hir].
    + unfold K. rewrite !Hf by lia. apply Hout; (lia || assumption).
    + (* i in the range, j after it *)
      destruct (kept_inside n a a' l r i Ha Ha' Hf) as [i' [H1 [H2 E]]];
        [lia|lia|].
      unfold K. rewrite E, (Hf j) by lia. apply Hout; try lia.
      intros x Hx [H3 H4]. specialize (Hd x Hx). unfold apart in Hd.
      cbn [fst snd] in Hd.
      apply (HP x Hx). lia.
Qed.

(** The range at the head is sorted: it leaves the list. *)
Lemma pending_done (a a' : list nat) (l r : Z) (P : list (Z * Z)) :
  pending a ((l, r) :: P) ->
  perm n a' -> kept l r a a' -> sorted_in a' l r ->
  pending a' P.
Proof.
  intros [Ha [Hv [Hd Ho]]] Ha' Hf Hs.
  inversion Hd as [|x P' Hd1 Hd2]; subst.
  destruct (Hv (l, r) (or_introl eq_refl)) as [Hl [Hlr Hr]].
  cbn [fst snd] in *.
  split; [exact Ha'|]. split; [intros x Hx; apply Hv; now right|].
  split; [exact Hd2|].
  intros i j Hi Hij Hj HP.
  destruct (Z_le_dec l i) as [H1|H1];
    [destruct (Z_le_dec j r) as [H2|H2]; [apply Hs; lia|]|];
    apply (ordered_transfer a a' l r P); (lia || assumption).
Qed.

(** The range at the head is divided around the place [q]. *)
Lemma pending_split (a a' : list nat) (l r q : Z) (P : list (Z * Z)) :
  pending a ((l, r) :: P) ->
  perm n a' -> kept l r a a' ->
  l < q < r ->
  (forall i, l <= i < q -> K a' i <= K a' q) ->
  (forall j, q < j <= r -> K a' q <= K a' j) ->
  pending a' ((l, q - 1) :: (q + 1, r) :: P)
  /\ pending a' ((q + 1, r) :: (l, q - 1) :: P).
Proof.
  intros [Ha [Hv [Hd Ho]]] Ha' Hf Hq Hlo Hhi.
  inversion Hd as [|x P' Hd1 Hd2]; subst.
  destruct (Hv (l, r) (or_introl eq_refl)) as [Hl [Hlr Hr]].
  cbn [fst snd] in *.
  assert (Hd1' : Forall (apart (l, q - 1)) P /\ Forall (apart (q + 1, r)) P).
  { split; apply (Forall_impl _ (P := apart (l, r))); try exact Hd1;
      intros x; unfold apart; cbn [fst snd]; lia. }
  assert (Hord : forall i j, 0 <= i -> i < j -> j < Z.of_nat n ->
             ~ (l <= i /\ j <= q - 1) -> ~ (q + 1 <= i /\ j <= r) ->
             (forall x, In x P -> ~ (fst x <= i /\ j <= snd x)) ->
             K a' i <= K a' j).
  { intros i j Hi Hij Hj H1 H2 HP.
    destruct (Z_le_dec l i) as [Hli|Hli];
      [destruct (Z_le_dec j r) as [Hjr|Hjr]|];
      try (apply (ordered_transfer a a' l r P); (lia || assumption)).
    assert (Hiq : i <= q) by lia. assert (Hqj : q <= j) by lia.
    apply Z.le_trans with (K a' q).
    - destruct (Z.eq_dec i q) as [->|]; [lia|apply Hlo; lia].
    - destruct (Z.eq_dec j q) as [->|]; [lia|apply Hhi; lia]. }
  split.
  - split; [exact Ha'|]. split; [|split].
    + intros x [<-|[<-|Hx]]; cbn [fst snd]; try lia. apply Hv. now right.
    + constructor; [|constructor; [exact (proj2 Hd1')|exact Hd2]].
      constructor; [|exact (proj1 Hd1')].
      unfold apart. cbn [fst snd]. lia.
    + intros i j Hi Hij Hj HP. apply Hord; try assumption.
      * exact (HP (l, q - 1) (or_introl eq_refl)).
      * exact (HP (q + 1, r) (or_intror (or_introl eq_refl))).
      * intros x Hx. apply HP. now right; right.
  - split; [exact Ha'|]. split; [|split].
    + intros x [<-|[<-|Hx]]; cbn [fst snd]; try lia. apply Hv. now right.
    + constructor; [|constructor; [exact (proj1 Hd1')|exact Hd2]].
      constructor; [|exact (proj2 Hd1')].
      unfold apart. cbn [fst snd]. lia.
    + intros i j Hi Hij Hj HP. apply Hord; try assumption.
      * exact (HP (l, q - 1) (or_intror (or_introl eq_refl))).
      * exact (HP (q + 1, r) (or_introl eq_refl)).
      * intros x Hx. apply HP. now right; right.
Qed.

(** The range of a state and those put aside. *)
Definition to_sort (s : state) : list (Z * Z) :=
  (pl s, pr s) :: ranges (stack s).

Lemma partition_pending (s : state) :
  pending (arr s) (to_sort s) ->
  SMALL_QUICKSORT < pr s - pl s ->
  pending (arr (partition v s)) (to_sort (partition v s))
  /\ weight (to_sort (partition v s)) <= weight (to_sort s)
  /\ pr (partition v s) - pl (partition v s) <= pr s - pl s - 2.
Proof.
  intros Hs Hbig. unfold SMALL_QUICKSORT in Hbig.
  pose proof Hs as [Ha [Hv _]].
  destruct (Hv (pl s, pr s) (or_introl eq_refl)) as [Hl [_ Hr]].
  cbn [fst snd] in Hl, Hr.
  destruct (partition_spec n s Ha Hl Hr ltac:(lia))
    as [q [Hq [Pa [Fa [Lo [Hi Hst]]]]]].
  destruct (pending_split (arr s) (arr (partition v s)) (pl s) (pr s) q
                          (ranges (stack s)) Hs Pa Fa Hq Lo Hi)
    as [Q1 Q2].
  unfold to_sort.
  destruct Hst as [[E1 [E2 E3]]|[E1 [E2 E3]]]; rewrite E1, E2, E3;
    cbn [ranges List.map fst snd]; fold (ranges (stack s));
    rewrite !weight_cons; cbn [fst snd];
    (split; [assumption|lia]).
Qed.

Lemma partitions_spec (fuel : nat) :
  forall s,
    pending (arr s) (to_sort s) ->
    pending (arr (partitions v fuel s)) (to_sort (partitions v fuel s))
    /\ weight (to_sort (partitions v fuel s)) <= weight (to_sort s).
Proof.
  induction fuel as [|f IH]; intros s Hs; cbn [partitions].
  - destruct (SMALL_QUICKSORT <? pr s - pl s); split; (exact Hs || lia).
  - destruct (Z.ltb_spec SMALL_QUICKSORT (pr s - pl s)) as [Hbig|Hsmall];
      [|split; [exact Hs|lia]].
    destruct (partition_pending s Hs Hbig) as [N1 [N2 _]].
    destruct (IH (partition v s) N1) as [R1 R2]. split; [exact R1|lia].
Qed.

(** The bound on the partitions of one range is not what ends them: they
    go on until the range is short. *)
Lemma partitions_short (fuel : nat) :
  forall s,
    pending (arr s) (to_sort s) ->
    pr s - pl s <= Z.of_nat fuel ->
    pr (partitions v fuel s) - pl (partitions v fuel s) <= SMALL_QUICKSORT.
Proof.
  induction fuel as [|f IH]; intros s Hs Hf; cbn [partitions];
    destruct (Z.ltb_spec SMALL_QUICKSORT (pr s - pl s)) as [Hbig|Hsmall];
    try exact Hsmall.
  - unfold SMALL_QUICKSORT in Hbig. lia.
  - destruct (partition_pending s Hs Hbig) as [N1 [_ N3]].
    apply IH; [exact N1|lia].
Qed.

(** One turn of the loop of [aquicksort], up to the label [stack_pop]. *)
Definition round (s : state) : state :=
  let k := List.length (arr s) in
  if cdepth s <? 0 then
    mkState (aheapsort v (arr s) (pl s) (pr s - pl s + 1))
            (pl s) (pr s) (stack s) (cdepth s)
  else
    let s1 := partitions v k s in
    mkState (insertion v k (arr s1) (pl s1) (pr s1) (pl s1 + 1))
            (pl s1) (pr s1) (stack s1) (cdepth s1).

Lemma rounds_round (fuel : nat) (s : state) :
  rounds v fuel s
  = match stack (round s) with
    | [] => arr (round s)
    | (l, r, d) :: rest =>
        match fuel with
        | 0%nat => arr (round s)
        | S f => rounds v f (mkState (arr (round s)) l r rest d)
        end
    end.
Proof. destruct fuel; reflexivity. Qed.

Lemma round_spec (s : state) :
  pending (arr s) (to_sort s) ->
  pending (arr (round s)) (ranges (stack (round s)))
  /\ weight (ranges (stack (round s))) < weight (to_sort s).
Proof.
  intros Hs. unfold round. cbn zeta.
  destruct (Z.ltb_spec (cdepth s) 0) as [Hdeep|Hok]; cbn [arr stack].
  - pose proof Hs as [Ha [Hv _]].
    destruct (Hv (pl s, pr s) (or_introl eq_refl)) as [Hl [Hlr Hr]].
    cbn [fst snd] in Hl, Hlr, Hr.
    destruct (aheapsort_spec n (pl s) Hl (arr s) (pr s - pl s + 1))
      as [P1 [F1 S1]]; [lia|lia|exact Ha|].
    replace (pl s + (pr s - pl s + 1) - 1) with (pr s) in F1, S1 by lia.
    split.
    + exact (pending_done (arr s) _ (pl s) (pr s) _ Hs P1 F1 S1).
    + unfold to_sort. rewrite weight_cons. cbn [fst snd]. lia.
  - destruct (partitions_spec (List.length (arr s)) s Hs) as [Q1 Q2].
    set (s1 := partitions v (List.length (arr s)) s) in *.
    pose proof Q1 as [Ha [Hv _]].
    destruct (Hv (pl s1, pr s1) (or_introl eq_refl)) as [Hl [Hlr Hr]].
    cbn [fst snd] in Hl, Hlr, Hr.
    assert (Hn : List.length (arr s) = n) by (destruct Hs as [[E _] _]; exact E).
    destruct (insertion_spec n (pl s1) (pr s1) (List.length (arr s)) Hl Hr
                             (arr s1) (pl s1 + 1) Ha)
      as [P1 [F1 S1]]; [lia|lia| |].
    { intros i j H1 H2 H3. assert (i = j) by lia. subst j. lia. }
    split.
    + exact (pending_done (arr s1) _ (pl s1) (pr s1) _ Q1 P1 F1 S1).
    + unfold to_sort in Q2 |- *. rewrite !weight_cons in *. cbn [fst snd] in *.
      lia.
Qed.

(** The loop of [aquicksort]: when the ranges to sort weigh no more than
    the rounds left, the array comes out in order. *)
Lemma rounds_spec (fuel : nat) :
  forall s,
    pending (arr s) (to_sort s) ->
    weight (to_sort s) <= Z.of_nat fuel + 1 ->
    pending (rounds v fuel s) [].
Proof.
  induction fuel as [|f IH]; intros s Hs Hw; rewrite rounds_round;
    destruct (round_spec s Hs) as [R1 R2];
    destruct (stack (round s)) as [|[[l r] d] rest] eqn:Est;
    try exact R1.
  - exfalso. destruct R1 as [_ [Hv _]].
    pose proof (weight_length (ranges ((l, r, d) :: rest))
                  (fun x Hx => proj1 (proj2 (Hv x Hx)))) as Hwl.
    cbn [List.length] in Hwl. unfold ranges in Hwl at 1.
    rewrite length_map in Hwl. cbn [List.length] in Hwl. lia.
  - apply IH; cbn [arr]; [exact R1|].
    unfold to_sort. cbn [pl pr stack]. 
    change (weight (ranges ((l, r, d) :: rest)) <= Z.of_nat f + 1). lia.
Qed.

End Ranges.

(** The array of positions [argsort] returns holds every position of [v]
    once, with keys that do not decrease. *)
Lemma argsort_spec :
  let n := List.length v in
  Permutation (seq 0 n) (argsort v)
  /\ forall i j, (i <= j)%nat -> (j < n)%nat ->
                 key v (nth i (argsort v) 0%nat)
                 <= key v (nth j (argsort v) 0%nat).
Proof.
  cbn zeta. set (n := List.length v).
  assert (H0 : perm n (seq 0 n)).
  { split; [apply length_seq|]. split; [apply seq_NoDup|].
    intros x Hx. apply in_seq in Hx. lia. }
  assert (Hp : pending n (argsort v) []).
  { unfold argsort. fold n. destruct (Nat.eq_dec n 0) as [E|E].
    - rewrite E. cbn. split; [|split; [|split]].
      + rewrite E in H0. exact H0.
      + intros x [].
      + constructor.
      + intros i j Hi Hij Hj. lia.
    - apply rounds_spec.
      + unfold to_sort. cbn [arr pl pr stack ranges List.map].
        split; [exact H0|]. split; [|split].
        * intros x [<-|[]]. cbn [fst snd]. lia.
        * constructor; constructor.
        * intros i j Hi Hij Hj HP. exfalso.
          apply (HP (0, Z.of_nat n - 1) (or_introl eq_refl)).
          cbn [fst snd]. lia.
      + unfold to_sort. cbn [arr pl pr stack ranges List.map].
        rewrite weight_cons. cbn [fst snd weight fold_right]. lia. }
  destruct Hp as [[Hl [Hn Hb]] [_ [_ Ho]]].
  split.
  - apply Permutation_sym. apply NoDup_Permutation_bis;
      [exact Hn|rewrite length_seq; lia|].
    intros x Hx. apply in_seq. specialize (Hb x Hx). lia.
  - intros i j Hij Hj. destruct (Nat.eq_dec i j) as [->|Hne]; [lia|].
    rewrite <- !rd_nth. apply (Ho (Z.of_nat i) (Z.of_nat j)); try lia.
    intros x [].
Qed.

End ArgsortFacts.

(** *** The rows in the order of the positions *)

Lemma take_seq (df : list row) :
  Numpy.take df (seq 0 (List.length df)) = df.
Proof.
  assert (H : forall suf pre,
             Numpy.take (pre ++ suf)
                        (seq (List.length pre) (List.length suf)) = suf).
  { induction suf as [|r suf IH]; intros pre; [reflexivity|].
    cbn [List.length seq]. unfold Numpy.take. cbn [flat_map].
    rewrite nth_error_app2, Nat.sub_diag by lia. cbn [nth_error app].
    f_equal. specialize (IH (pre ++ [r])).
    rewrite length_app, Nat.add_1_r, <- app_assoc in IH. exact IH. }
  exact (H df []).
Qed.

Lemma sorted_of_nth (before : nat -> nat -> Prop) (l : list nat) :
  (forall i j, (i < j)%nat -> (j < List.length l)%nat ->
               before (nth i l 0%nat) (nth j l 0%nat)) ->
  StronglySorted before l.
Proof.
  induction l as [|x l IH]; intros H; constructor.
  - apply IH. intros i j Hij Hj.
    apply (H (S i) (S j)); cbn [List.length]; lia.
  - apply Forall_forall. intros y Hy.
    apply (In_nth _ _ 0%nat) in Hy. destruct Hy as [k [Hk <-]].
    apply (H 0%nat (S k)); cbn [List.length]; lia.
Qed.

Lemma key_row (df : list row) (i : nat) (r : row) :
  nth_error df i = Some r -> Numpy.key (List.map dt df) i = dt r.
Proof.
  intros H. unfold Numpy.key. apply nth_error_nth.
  now rewrite nth_error_map, H.
Qed.

Lemma take_sorted (df : list row) (idx : list nat) :
  StronglySorted
    (fun i j => (Numpy.key (List.map dt df) i
                 <= Numpy.key (List.map dt df) j)%Z) idx ->
  StronglySorted dt_le (Numpy.take df idx).
Proof.
  induction 1 as [|i idx Hs IH Hi]; [constructor|].
  unfold Numpy.take. cbn [flat_map]. fold (Numpy.take df idx).
  destruct (nth_error df i) as [r|] eqn:Er; [|exact IH].
  cbn [app]. constructor; [exact IH|].
  apply Forall_forall. intros x Hx.
  unfold Numpy.take in Hx. apply in_flat_map in Hx.
  destruct Hx as [j [Hj Hx]].
  destruct (nth_error df j) as [y|] eqn:Ey; [|contradiction].
  destruct Hx as [<-|[]].
  rewrite Forall_forall in Hi. specialize (Hi j Hj). cbn beta in Hi.
  rewrite (key_row df i r Er), (key_row df j y Ey) in Hi. exact Hi.
Qed.

Lemma numpy_sort_perm (df : list row) : Permutation df (Numpy.sort_values df).
Proof.
  unfold Numpy.sort_values.
  pose proof (argsort_spec (List.map dt df)) as H. cbn zeta in H.
  rewrite length_map in H. destruct H as [Hp _].
  rewrite <- (take_seq df) at 1.
  apply Permutation_flat_map. exact Hp.
Qed.

Lemma numpy_sort_sorted (df : list row) :
  StronglySorted dt_le (Numpy.sort_values df).
Proof.
  unfold Numpy.sort_values. apply take_sorted.
  pose proof (argsort_spec (List.map dt df)) as H. cbn zeta in H.
  destruct H as [Hp Hs].
  apply sorted_of_nth. intros i j Hij Hj.
  apply Hs; [lia|].
  rewrite <- (Permutation_length Hp), length_seq in Hj. exact Hj.
Qed.

(** The reference runtime with the sort of numpy. *)
Definition numpy_runtime : Runtime :=
  {| isdecimal := Ref.isdecimal;
     lower := Ref.lower;
     strptime := Ref.strptime;
     to_datetime := Ref.to_datetime;
     distinct_emoji_list := Ref.distinct_emoji_list;
     sort_values := Numpy.sort_values;
     sort_values_perm := numpy_sort_perm;
     sort_values_sorted := numpy_sort_sorted;
     isdecimal_ascii := ref_isdecimal_ascii |}.

(** ** Orderings of one list of rows *)

Lemma filter_perm (f : row -> bool) (l l' : list row) :
  Permutation l l' -> Permutation (filter f l) (filter f l').
Proof.
  induction 1 as [|x l l' _ IH|x y l|l l' l'' _ IH1 _ IH2]; cbn [filter].
  - constructor.
  - destruct (f x); [now constructor|exact IH].
  - destruct (f x), (f y); try apply Permutation_refl. apply perm_swap.
  - now apply perm_trans with (filter f l').
Qed.

Lemma insert_keep_filter (t : Z) (r : row) (l : list row) :
  StronglySorted dt_le l ->
  filter (fun x => (dt x =? t)%Z)
         (Ref.insert (fun r x => (dt r <=? dt x)%Z) r l)
  = filter (fun x => (dt x =? t)%Z) (r :: l).
Proof.
  induction 1 as [|x l Hs IH Hx]; [reflexivity|].
  cbn [Ref.insert]. destruct (Z.leb_spec (dt r) (dt x)) as [Hle|Hlt];
    [reflexivity|].
  cbn [filter] in *. rewrite IH.
  destruct (Z.eqb_spec (dt x) t) as [Ex|Ex];
    destruct (Z.eqb_spec (dt r) t) as [Er|Er]; try reflexivity.
  lia.
Qed.

(** The insertion sort of the reference runtime is the stable sort. *)
Lemma sort_keep_stable (rows : list row) :
  appearance_order_kept rows (Ref.sort_keep rows).
Proof.
  intros t. induction rows as [|r rows IH]; [reflexivity|].
  change (Ref.sort_keep (r :: rows))
    with (Ref.insert (fun r x => (dt r <=? dt x)%Z) r (Ref.sort_keep rows)).
  rewrite insert_keep_filter
    by exact (isort_sorted _ leb_before leb_after rows).
  cbn [filter]. now rewrite IH.
Qed.

Lemma sorted_keys (l : list row) :
  StronglySorted dt_le l -> StronglySorted Z.le (List.map dt l).
Proof.
  induction 1 as [|x l Hs IH Hx]; [constructor|].
  cbn [List.map]. constructor; [exact IH|].
  rewrite Forall_forall in *. intros k Hk.
  apply in_map_iff in Hk. destruct Hk as [y [<- Hy]]. exact (Hx y Hy).
Qed.

(** An ordered list of numbers is the only ordered rearrangement of
    itself. *)
Lemma sorted_perm_unique (l : list Z) :
  forall l',
    StronglySorted Z.le l -> StronglySorted Z.le l' -> Permutation l l' ->
    l = l'.
Proof.
  induction l as [|a l IH]; intros l' Hs Hs' Hp.
  - apply Permutation_nil in Hp. now subst l'.
  - destruct l' as [|b l'];
      [apply Permutation_sym, Permutation_nil in Hp; discriminate|].
    apply StronglySorted_inv in Hs. destruct Hs as [Hs Ha].
    apply StronglySorted_inv in Hs'. destruct Hs' as [Hs' Hb].
    rewrite Forall_forall in Ha, Hb.
    assert (Hab : a = b).
    { assert (H1 : In a (b :: l'))
        by (apply (Permutation_in _ Hp); now left).
      assert (H2 : In b (a :: l))
        by (apply (Permutation_in _ (Permutation_sym Hp)); now left).
      assert (L1 : (b <= a)%Z)
        by (destruct H1 as [E|H1]; [lia|exact (Hb a H1)]).
      assert (L2 : (a <= b)%Z)
        by (destruct H2 as [E|H2]; [lia|exact (Ha b H2)]).
      lia. }
    subst b. f_equal. apply (IH l' Hs Hs').
    exact (Permutation_cons_inv Hp).
Qed.

Lemma same_keys_same_rows (l : list row) :
  forall l',
    List.map dt l = List.map dt l' ->
    (forall x, In x l' -> In x l) ->
    NoDup (List.map dt l) ->
    l = l'.
Proof.
  induction l as [|a l IH]; intros l' Hm Hin Hn.
  - now destruct l'.
  - destruct l' as [|b l']; [discriminate|].
    cbn [List.map] in Hm, Hn. injection Hm as Hab Hm.
    apply NoDup_cons_iff in Hn. destruct Hn as [Ha Hn].
    assert (E : a = b).
    { destruct (Hin b (or_introl eq_refl)) as [E|Hb]; [exact E|].
      exfalso. apply Ha. rewrite Hab. now apply in_map. }
    subst b. f_equal. apply (IH l' Hm); [|exact Hn].
    intros x Hx. destruct (Hin x (or_intror Hx)) as [E|Hl]; [|exact Hl].
    exfalso. apply Ha. subst x. rewrite Hm. now apply in_map.
Qed.

(** Two orderings by timestamp of the same rows show the same timestamps
    in the same places, and are the same list when no timestamp comes
    twice. *)
Lemma orderings_agree (l l' : list row) :
  StronglySorted dt_le l -> StronglySorted dt_le l' -> Permutation l l' ->
  List.map dt l = List.map dt l'
  /\ (NoDup (List.map dt l) -> l = l').
Proof.
  intros Hs Hs' Hp.
  assert (Hm : List.map dt l = List.map dt l').
  { apply sorted_perm_unique; [now apply sorted_keys..|].
    now apply Permutation_map. }
  split; [exact Hm|].
  intros Hn. apply same_keys_same_rows; [exact Hm| |exact Hn].
  intros x Hx. exact (Permutation_in _ (Permutation_sym Hp) Hx).
Qed.

(** ** Facts about strings *)

Lemma startswith_spec (s p : str) :
  startswith s p = true <-> exists v, s = p ++ v.
Proof.
  revert s; induction p as [|a p IH]; intros s.
  - split; [intros _; now exists s|intros _; now destruct s].
  - destruct s as [|b s]; simpl.
    + split; [discriminate|intros [v Hv]; discriminate].
    + rewrite andb_true_iff, N.eqb_eq, IH. split.
      * intros [-> [v ->]]. now exists v.
      * intros [v Hv]. injection Hv as -> ->. split; [reflexivity|now exists v].
Qed.

Lemma contains_spec (s p : str) :
  contains s p = true <-> exists u v, s = u ++ p ++ v.
Proof.
  induction s as [|b s IH].
  - change (contains [] p) with (startswith [] p || false).
    rewrite orb_false_r, startswith_spec. split.
    + intros [v Hv]. now exists [], v.
    + intros [u [v Hv]]. destruct u; [now exists v|discriminate].
  - change (contains (b :: s) p)
      with (startswith (b :: s) p || contains s p).
    rewrite orb_true_iff, startswith_spec, IH. split.
    + intros [[v Hv]|[u [v Hv]]].
      * now exists [], v.
      * exists (b :: u), v. simpl. now rewrite Hv.
    + intros [u [v Hv]]. destruct u as [|c u].
      * left. now exists v.
      * right. injection Hv as _ Hv. now exists u, v.
Qed.

Lemma nonempty_spec (s : str) : nonempty s = true <-> s <> [].
Proof. destruct s; simpl; split; congruence. Qed.

(** ** Facts about the matcher: only the classes of the characters of the
       subject matter *)

Section MatcherExt.
Variables dec1 dec2 : char -> bool.

Definition agree (s : str) : Prop := Forall (fun a => dec1 a = dec2 a) s.

Lemma test_ext (c : cls) (a : char) :
  dec1 a = dec2 a -> test dec1 c a = test dec2 c a.
Proof. destruct c; simpl; congruence. Qed.

Lemma rep_ext (c : cls) (k1 k2 : str -> mstate -> option (list str))
      (s : str) :
  agree s ->
  (forall s' m, agree s' -> k1 s' m = k2 s' m) ->
  forall lo hi m, rep dec1 c lo hi k1 s m = rep dec2 c lo hi k2 s m.
Proof.
  intros Hs Hk. induction Hs as [|a s Ha Hs IH]; intros lo hi m.
  - simpl. destruct lo; [apply Hk; constructor|reflexivity].
  - simpl. rewrite (test_ext c a Ha), IH.
    assert (Hstop : match lo with
                    | 0 => k1 (a :: s) m
                    | S _ => None
                    end = match lo with
                          | 0 => k2 (a :: s) m
                          | S _ => None
                          end).
    { destruct lo; [apply Hk; now constructor|reflexivity]. }
    now rewrite Hstop.
Qed.

Lemma run_ext (p : regex) :
  forall s m, agree s -> run dec1 p s m = run dec2 p s m.
Proof.
  induction p as [|n p IH]; intros s m Hs; [reflexivity|].
  destruct n; simpl.
  - now apply rep_ext.
  - now apply IH.
  - destruct (cur m); [now apply IH|reflexivity].
  - destruct (pos m); [now apply IH|reflexivity].
  - destruct s as [|a [|b s]]; [now apply IH| |reflexivity].
    destruct (a =? 10)%N; [now apply IH|reflexivity].
Qed.
End MatcherExt.

Section ProgramFacts.
Context {R : Runtime}.

(** On an ASCII line the match is the one the reference runtime finds. *)
Lemma line_match_ascii (s : str) :
  is_ascii s = true -> line_match s = line_match (R := ref_runtime) s.
Proof.
  intros Hs. unfold line_match, re_match.
  rewrite (run_ext isdecimal Ref.isdecimal); [reflexivity|].
  unfold agree. apply Forall_forall. intros a Ha.
  unfold is_ascii in Hs. rewrite forallb_forall in Hs.
  specialize (Hs a Ha). apply N.ltb_lt in Hs.
  now rewrite isdecimal_ascii.
Qed.

Lemma append_last_snoc (pre : list row) (m : row) (extra : str) :
  append_last (pre ++ [m]) extra = pre ++ [set_text m (text m ++ extra)].
Proof.
  induction pre as [|a pre IH]; [reflexivity|].
  simpl app. simpl append_last. rewrite IH.
  now destruct pre.
Qed.

Lemma parse_lines_app (l1 l2 : list str) (rows : list row) :
  parse_lines (l1 ++ l2) rows =
  (rows' <- parse_lines l1 rows ;; parse_lines l2 rows').
Proof.
  revert rows; induction l1 as [|l l1 IH]; intros rows; simpl.
  - reflexivity.
  - destruct (parse_line rows l) as [rows'|e]; simpl; [apply IH|reflexivity].
Qed.

(** A line that is not a message line never raises, and keeps the number
    of rows. *)
Lemma parse_line_continuation (rows : list row) (line : str) :
  line_match (strip line) = None ->
  parse_line rows line =
  Ok (match rows with
      | _ :: _ => append_last rows (32%N :: strip line)
      | [] => []
      end).
Proof. intros H. unfold parse_line. rewrite H. now destruct rows. Qed.

Lemma parse_lines_no_match (lines : list str) :
  (forall line, In line lines -> line_match (strip line) = None) ->
  parse_lines lines [] = Ok [].
Proof.
  induction lines as [|l lines IH]; intros H; [reflexivity|].
  simpl. rewrite parse_line_continuation by (apply H; now left).
  simpl. apply IH. intros; apply H; now right.
Qed.

Lemma sort_values_one (r : row) : sort_values [r] = [r].
Proof.
  apply Permutation_length_1_inv. apply sort_values_perm.
Qed.

End ProgramFacts.

(** ** Facts about positional access *)

Lemma iloc_nth (df : list row) (i : nat) (r : row) :
  nth_error df i = Some r -> iloc df (Z.of_nat i) = Ok r.
Proof.
  intros H. unfold iloc.
  assert (Hi : (i < List.length df)%nat) by (apply nth_error_Some; congruence).
  destruct (Z.ltb_spec (Z.of_nat i) 0); [lia|].
  destruct (Z.leb_spec 0 (Z.of_nat i)); [|lia].
  destruct (Z.ltb_spec (Z.of_nat i) (Z.of_nat (List.length df))); [|lia].
  simpl. now rewrite Nat2Z.id, H.
Qed.

Lemma iloc_succ (df : list row) (i : nat) (r : row) :
  nth_error df (S i) = Some r -> iloc df (Z.of_nat i + 1) = Ok r.
Proof.
  intros H. replace (Z.of_nat i + 1)%Z with (Z.of_nat (S i)) by lia.
  now apply iloc_nth.
Qed.

Lemma iloc_pred (df : list row) (i : nat) (r : row) :
  nth_error df i = Some r -> iloc df (Z.of_nat (S i) - 1) = Ok r.
Proof.
  intros H. replace (Z.of_nat (S i) - 1)%Z with (Z.of_nat i) by lia.
  now apply iloc_nth.
Qed.

(** [df.iloc[-1]] is the last row. *)
Lemma iloc_minus_one (df : list row) (r : row) :
  iloc (df ++ [r]) (-1) = Ok r.
Proof.
  unfold iloc. rewrite length_app. simpl List.length.
  change (-1 <? 0)%Z with true. cbv iota.
  destruct (Z.leb_spec 0 (Z.of_nat (List.length df + 1) + -1)); [|lia].
  destruct (Z.ltb_spec (Z.of_nat (List.length df + 1) + -1)
                       (Z.of_nat (List.length df + 1))); [|lia].
  simpl andb. cbv iota.
  replace (Z.to_nat (Z.of_nat (List.length df + 1) + -1))
    with (List.length df) by lia.
  now rewrite nth_error_app2, Nat.sub_diag by lia.
Qed.

Lemma iloc_zero (r0 : row) (rest : list row) : iloc (r0 :: rest) 0 = Ok r0.
Proof. exact (iloc_nth (r0 :: rest) 0 r0 eq_refl). Qed.

Lemma iloc_empty (k : Z) : iloc [] k = Raise IndexError.
Proof.
  unfold iloc. simpl List.length.
  destruct (k <? 0)%Z eqn:E.
  - destruct (Z.leb_spec 0 (Z.of_nat 0 + k)); [lia|reflexivity].
  - destruct (Z.leb_spec 0 k); [|reflexivity].
    destruct (Z.ltb_spec k (Z.of_nat 0)); [lia|reflexivity].
Qed.

(** ** The segmenter, position by position *)

Section SegmenterFacts.
Context {R : Runtime}.
Variable end_phrases : list str.

Lemma prev_ts_succ (df : list row) (i : nat) (r : row) :
  nth_error df i = Some r -> prev_ts df (S i) = dt r.
Proof.
  intros H. unfold prev_ts. simpl Nat.pred.
  apply nth_error_nth. now rewrite nth_error_map, H.
Qed.

Lemma seg_step_spec (df : list row) (st : seg) (i : nat) (r : row) :
  nth_error df i = Some r ->
  prev_time st = prev_ts df i ->
  seg_step df end_phrases st (i, r) =
  Ok (if closes end_phrases df i
      then mkSeg (ends st ++ [Z.of_nat i])
                 (starters st ++ next_author df i) (dt r)
      else mkSeg (ends st) (starters st) (dt r)).
Proof.
  intros Hr Hp. unfold seg_step, closes, gap, next_author.
  rewrite Hr, Hp.
  destruct (is_end end_phrases r || (six_hours <? dt r - prev_ts df i)%Z).
  - assert (Hn : (i < List.length df)%nat)
      by (apply nth_error_Some; congruence).
    destruct (Z.ltb_spec (Z.of_nat i) (Z.of_nat (List.length df) - 1)).
    + destruct (nth_error df (S i)) as [nxt|] eqn:En.
      * now rewrite (iloc_succ df i nxt En).
      * apply nth_error_None in En. lia.
    + destruct (nth_error df (S i)) as [nxt|] eqn:En.
      * assert (S i < List.length df)%nat
          by (apply nth_error_Some; congruence). lia.
      * simpl. now rewrite app_nil_r.
  - reflexivity.
Qed.

Lemma seg_loop_spec (df : list row) :
  forall (suf pre : list row) (st : seg),
    df = pre ++ suf ->
    prev_time st = prev_ts df (List.length pre) ->
    let idx := filter (closes end_phrases df) (seq (List.length pre) (List.length suf)) in
    exists st',
      seg_loop df end_phrases
               (combine (seq (List.length pre) (List.length suf)) suf) st
      = Ok st'
      /\ ends st' = ends st ++ List.map Z.of_nat idx
      /\ starters st' = starters st ++ flat_map (next_author df) idx.
Proof.
  induction suf as [|r suf IH]; intros pre st Hdf Hp idx.
  - exists st. subst idx. simpl. now rewrite !app_nil_r.
  - assert (Hr : nth_error df (List.length pre) = Some r).
    { rewrite Hdf, nth_error_app2, Nat.sub_diag by lia. reflexivity. }
    subst idx. cbn [List.length seq combine seg_loop filter].
    rewrite (seg_step_spec df st _ r Hr Hp). cbn [bind].
    set (st1 := if closes end_phrases df (List.length pre) then _ else _).
    destruct (IH (pre ++ [r]) st1) as [st' [Hl [He Hs]]].
    + now rewrite <- app_assoc.
    + rewrite length_app, Nat.add_1_r, (prev_ts_succ df _ r Hr).
      subst st1. now destruct (closes end_phrases df (List.length pre)).
    + rewrite length_app, Nat.add_1_r in Hl, He, Hs.
      exists st'. split; [exact Hl|].
      rewrite He, Hs. subst st1.
      destruct (closes end_phrases df (List.length pre)); simpl;
        now rewrite <- ?app_assoc.
Qed.

(** The loop on a whole non-empty frame. *)
Lemma seg_run_spec (r0 : row) (rest : list row) :
  let df := r0 :: rest in
  let idx := filter (closes end_phrases df) (seq 0 (List.length df)) in
  exists st,
    seg_run df end_phrases = Ok st
    /\ ends st = (-1)%Z :: List.map Z.of_nat idx
    /\ starters st = flat_map (next_author df) idx.
Proof.
  intros df idx. unfold seg_run, seg_init.
  subst df. rewrite iloc_zero. cbn [bind]. set (df := r0 :: rest) in *.
  destruct (seg_loop_spec df df [] (mkSeg [(-1)%Z] [] (dt r0)))
    as [st [Hl [He Hs]]]; [reflexivity|reflexivity|].
  exists st. split; [exact Hl|]. now split.
Qed.

Lemma get_conversation_ends_spec (r0 : row) (rest : list row) :
  let df := r0 :: rest in
  let idx := filter (closes end_phrases df) (seq 0 (List.length df)) in
  get_conversation_ends df end_phrases =
  Ok ((-1)%Z :: List.map Z.of_nat idx,
      match flat_map (next_author df) idx with
      | [] => [author r0]
      | a :: l => a :: l
      end).
Proof.
  intros df idx. unfold get_conversation_ends.
  destruct (seg_run_spec r0 rest) as [st [Hl [He Hs]]].
  fold df in Hl, He, Hs. fold idx in He, Hs.
  rewrite Hl. simpl bind. rewrite Hs, He.
  destruct (flat_map (next_author df) idx); reflexivity.
Qed.

Lemma get_conversation_ends_empty :
  get_conversation_ends [] end_phrases = Raise IndexError.
Proof. reflexivity. Qed.

End SegmenterFacts.

(** ** The classifier, position by position *)

Section ClassifierFacts.
Variable split_idx : list Z.

Lemma dt_at_nth (df : list row) (i : nat) (r : row) :
  nth_error df i = Some r -> dt_at df i = dt r.
Proof.
  intros H. unfold dt_at. apply nth_error_nth. now rewrite nth_error_map, H.
Qed.

Lemma iloc_wrap (df : list row) (i : nat) (r : row) :
  nth_error df i = Some r ->
  exists b, iloc df (Z.of_nat i - 1) = Ok b
            /\ nth_error df (wrap_prev (List.length df) i) = Some b.
Proof.
  intros H. destruct i as [|j].
  - destruct (exists_last (l := df)) as [df' [l Hl]]; [now destruct df|].
    exists l. subst df. split; [apply iloc_minus_one|].
    simpl wrap_prev. rewrite length_app. simpl List.length.
    rewrite nth_error_app2 by lia.
    now replace (List.length df' + 1 - 1 - List.length df')%nat with 0%nat by lia.
  - destruct (nth_error df j) as [b|] eqn:Eb.
    + exists b. split; [now apply iloc_pred|exact Eb].
    + apply nth_error_None in Eb.
      assert (S j < List.length df)%nat by (apply nth_error_Some; congruence).
      lia.
Qed.

Lemma classify_step_spec (df : list row) (i : nat) (r : row) :
  nth_error df i = Some r ->
  classify_step df split_idx (i, r) = Ok (label split_idx df i).
Proof.
  intros H. unfold classify_step, label.
  destruct (in_idx i split_idx); [reflexivity|].
  rewrite (iloc_nth df i r H). cbn [bind].
  destruct (iloc_wrap df i r H) as [b [Hb Hw]].
  rewrite Hb. cbn [bind].
  now rewrite (dt_at_nth df i r H), (dt_at_nth df _ b Hw).
Qed.

Lemma classify_loop_spec (df : list row) :
  forall (suf pre : list row) (acc : list (option band)),
    df = pre ++ suf ->
    classify_loop df split_idx
                  (combine (seq (List.length pre) (List.length suf)) suf) acc
    = Ok (acc ++ List.map (label split_idx df) (seq (List.length pre) (List.length suf))).
Proof.
  induction suf as [|r suf IH]; intros pre acc Hdf.
  - simpl. now rewrite app_nil_r.
  - assert (Hr : nth_error df (List.length pre) = Some r).
    { rewrite Hdf, nth_error_app2, Nat.sub_diag by lia. reflexivity. }
    cbn [List.length seq combine classify_loop List.map].
    rewrite (classify_step_spec df _ r Hr). cbn [bind].
    specialize (IH (pre ++ [r]) (acc ++ [label split_idx df (List.length pre)])).
    rewrite length_app, Nat.add_1_r in IH.
    rewrite IH by now rewrite <- app_assoc.
    now rewrite <- app_assoc.
Qed.

(** The classifier never raises. *)
Lemma classify_spec (df : list row) :
  classify_response_times df split_idx =
  Ok (List.map (label split_idx df) (seq 0 (List.length df))).
Proof.
  unfold classify_response_times, iterrows.
  exact (classify_loop_spec df df [] [] eq_refl).
Qed.

Lemma nth_error_labels (df : list row) (i : nat) :
  (i < List.length df)%nat ->
  nth_error (List.map (label split_idx df) (seq 0 (List.length df))) i
  = Some (label split_idx df i).
Proof.
  intros H. rewrite nth_error_map.
  assert (E : nth_error (seq 0 (List.length df)) i = Some i).
  { rewrite (nth_error_nth' _ 0%nat) by now rewrite length_seq.
    now rewrite seq_nth. }
  now rewrite E.
Qed.

End ClassifierFacts.

(** In a frame ordered by time no row is earlier than the first. *)
Lemma sorted_first_le_last (r0 : row) (rest : list row) :
  StronglySorted dt_le (r0 :: rest) ->
  (dt r0 <= dt_at (r0 :: rest) (List.length rest))%Z.
Proof.
  intros Hs.
  destruct (nth_error (r0 :: rest) (List.length rest)) as [x|] eqn:Ex.
  - rewrite (dt_at_nth _ _ x Ex).
    apply nth_error_In in Ex. destruct Ex as [<-|Hin]; [lia|].
    apply StronglySorted_inv in Hs. destruct Hs as [_ Hall].
    rewrite Forall_forall in Hall. now apply Hall.
  - apply nth_error_None in Ex. simpl in Ex. lia.
Qed.

Lemma band_of_early (td : Z) : band_of td = Early <-> (td < 60)%Z.
Proof.
  unfold band_of.
  destruct (Z.ltb_spec td 60); [tauto|].
  destruct (Z.ltb_spec td 300); split; (discriminate || lia).
Qed.

Lemma band_of_near_early (td : Z) :
  band_of td = NearEarly <-> (60 <= td < 300)%Z.
Proof.
  unfold band_of.
  destruct (Z.ltb_spec td 60); [split; (discriminate || lia)|].
  destruct (Z.ltb_spec td 300); [tauto|split; (discriminate || lia)].
Qed.

Lemma band_of_late (td : Z) : band_of td = Late <-> (300 <= td)%Z.
Proof.
  unfold band_of.
  destruct (Z.ltb_spec td 60); [split; (discriminate || lia)|].
  destruct (Z.ltb_spec td 300); [split; (discriminate || lia)|tauto].
Qed.

(** ** Membership in the boundary list *)

Lemma in_idx_spec (i : nat) (l : list Z) :
  in_idx i l = true <-> In (Z.of_nat i) l.
Proof.
  unfold in_idx. rewrite existsb_exists. split.
  - intros [x [Hx E]]. apply Z.eqb_eq in E. now subst x.
  - intros H. exists (Z.of_nat i). split; [exact H|apply Z.eqb_refl].
Qed.

Lemma in_boundaries (i : nat) (idx : list nat) :
  In (Z.of_nat i) ((-1)%Z :: List.map Z.of_nat idx) <-> In i idx.
Proof.
  simpl. rewrite in_map_iff. split.
  - intros [H|[x [E Hx]]]; [lia|].
    apply Nat2Z.inj in E. now subst x.
  - intros H. right. now exists i.
Qed.

Lemma boundaries_nodup (f : nat -> bool) (n : nat) :
  NoDup ((-1)%Z :: List.map Z.of_nat (filter f (seq 0 n))).
Proof.
  constructor.
  - rewrite in_map_iff. intros [x [E _]]. lia.
  - apply Injective_map_NoDup.
    + intros a b. apply Nat2Z.inj.
    + apply NoDup_filter, seq_NoDup.
Qed.

Lemma flat_map_nil {A B : Type} (f : A -> list B) (l : list A) :
  (forall x, In x l -> f x = []) -> flat_map f l = [].
Proof.
  induction l as [|a l IH]; intros H; [reflexivity|].
  simpl. rewrite (H a) by now left.
  apply IH. intros x Hx. apply H. now right.
Qed.

Section BoundaryFacts.
Context {R : Runtime}.
Variable end_phrases : list str.

Lemma is_end_spec (r : row) :
  is_end end_phrases r = true <->
  exists ep, In ep end_phrases /\ strip ep <> [] /\
             exists u v, lower (text r) = u ++ lower (strip ep) ++ v.
Proof.
  unfold is_end. rewrite existsb_exists. split.
  - intros [ep [Hin Hc]]. apply filter_In in Hin. destruct Hin as [Hin Hne].
    exists ep. repeat split; [exact Hin|now apply nonempty_spec|].
    now apply contains_spec.
  - intros [ep [Hin [Hne Hc]]]. exists ep. split.
    + apply filter_In. split; [exact Hin|now apply nonempty_spec].
    + now apply contains_spec.
Qed.

Lemma in_closing (df : list row) (i : nat) :
  In i (filter (closes end_phrases df) (seq 0 (List.length df))) <->
  closes end_phrases df i = true.
Proof.
  rewrite filter_In, in_seq. split; [tauto|].
  intros H. split; [|exact H].
  unfold closes in H. destruct (nth_error df i) eqn:E; [|discriminate].
  assert (i < List.length df)%nat by (apply nth_error_Some; congruence).
  lia.
Qed.

Lemma closes_spec (df : list row) (i : nat) (r : row) :
  nth_error df i = Some r ->
  closes end_phrases df i = true <->
  is_end end_phrases r = true \/ (six_hours < dt r - prev_ts df i)%Z.
Proof.
  intros H. unfold closes. rewrite H, orb_true_iff, Z.ltb_lt. tauto.
Qed.

Lemma prev_ts_zero (r : row) (rest : list row) : prev_ts (r :: rest) 0 = dt r.
Proof. reflexivity. Qed.

Lemma closes_first (r : row) (rest : list row) :
  closes end_phrases (r :: rest) 0 = is_end end_phrases r.
Proof.
  unfold closes. cbn [nth_error]. rewrite prev_ts_zero, Z.sub_diag.
  change (six_hours <? 0)%Z with false. apply orb_false_r.
Qed.

End BoundaryFacts.

(** * The properties of the specification *)

Section Segmenter.
Context {R : Runtime}.

(** C3. On every frame and at every position [i] of it, the segmenter
    returns, and [i] is recorded as a boundary exactly when the lower-cased
    body of its message contains, as a substring, some closing phrase
    (trimmed, lower-cased, and not empty once trimmed), or its timestamp is
    more than six hours after the one the loop holds for the previous
    message; it is then recorded once, also when both hold. *)
Theorem boundary_iff_phrase_or_gap
        (df : list row) (end_phrases : list str) (i : nat) (r : row) :
  nth_error df i = Some r ->
  let phrase :=
    exists ep, In ep end_phrases /\ strip ep <> [] /\
               exists u v, lower (text r) = u ++ lower (strip ep) ++ v in
  let inactivity := (six_hours < dt r - prev_ts df i)%Z in
  exists es ss,
    get_conversation_ends df end_phrases = Ok (es, ss)
    /\ (In (Z.of_nat i) es <-> phrase \/ inactivity)
    /\ (phrase \/ inactivity -> count_occ Z.eq_dec es (Z.of_nat i) = 1%nat)
    /\ (~ (phrase \/ inactivity) ->
        count_occ Z.eq_dec es (Z.of_nat i) = 0%nat).
Proof.
  intros Hr phrase inactivity.
  destruct df as [|r0 rest]; [now destruct i|].
  rewrite get_conversation_ends_spec.
  set (df := r0 :: rest) in *.
  set (bs := filter (closes end_phrases df) (seq 0 (List.length df))).
  set (es := (-1)%Z :: List.map Z.of_nat bs).
  exists es. eexists. split; [reflexivity|].
  assert (Hin : In (Z.of_nat i) es <-> phrase \/ inactivity).
  { unfold es. rewrite in_boundaries. unfold bs.
    rewrite in_closing, (closes_spec _ _ _ r Hr), is_end_spec.
    reflexivity. }
  split; [exact Hin|]. split.
  - intros H. apply NoDup_count_occ'; [|now apply Hin].
    apply boundaries_nodup.
  - intros H. apply count_occ_not_In. now rewrite Hin.
Qed.

(** C4. On every non-empty frame the segmenter returns, and its starter
    list holds, boundary by boundary in the order they were recorded, the
    author of the next message where there is one: a recorded boundary that
    is not the last position puts the author of the message after it in the
    list, and when no recorded boundary has a message after it, the list is
    the author of the first message alone. *)
Theorem starters_follow_boundaries
        (df : list row) (end_phrases : list str) (r0 : row) :
  nth_error df 0 = Some r0 ->
  exists es ss bs,
    get_conversation_ends df end_phrases = Ok (es, ss)
    /\ es = (-1)%Z :: List.map Z.of_nat bs
    /\ ss = match flat_map (next_author df) bs with
            | [] => [author r0]
            | a :: l => a :: l
            end
    /\ (forall i nxt, In (Z.of_nat i) es -> nth_error df (S i) = Some nxt ->
                      In (author nxt) ss)
    /\ ((forall i, In (Z.of_nat i) es -> nth_error df (S i) = None) ->
        ss = [author r0]).
Proof.
  intros H0. destruct df as [|r rest]; [discriminate|].
  injection H0 as ->.
  rewrite get_conversation_ends_spec.
  set (df := r0 :: rest) in *.
  set (bs := filter (closes end_phrases df) (seq 0 (List.length df))).
  exists ((-1)%Z :: List.map Z.of_nat bs).
  eexists. exists bs.
  split; [reflexivity|]. split; [reflexivity|]. split; [reflexivity|].
  split.
  - intros i nxt Hi Hn. apply in_boundaries in Hi.
    assert (Hf : In (author nxt) (flat_map (next_author df) bs)).
    { apply in_flat_map. exists i. split; [exact Hi|].
      unfold next_author. rewrite Hn. now left. }
    destruct (flat_map (next_author df) bs); [contradiction|exact Hf].
  - intros Hall.
    assert (Hf : flat_map (next_author df) bs = []).
    { apply flat_map_nil. intros i Hi. unfold next_author.
      rewrite (Hall i); [reflexivity|].
      now apply in_boundaries. }
    now rewrite Hf.
Qed.

End Segmenter.

Section SegmenterWitnesses.
Local Existing Instance ref_runtime.

Lemma boundary_iff_phrase_or_gap_witness :
  nth_error two_days 1 = Some (msg (ten + 60) "B" "Iyi Geceler!")
  /\ exists es ss,
       get_conversation_ends two_days sign_offs = Ok (es, ss)
       /\ In 1%Z es
       /\ count_occ Z.eq_dec es 1%Z = 1%nat.
Proof.
  split; [reflexivity|].
  destruct (boundary_iff_phrase_or_gap (R := ref_runtime)
              two_days sign_offs 1
              (msg (ten + 60) "B" "Iyi Geceler!") eq_refl)
    as [es [ss [Hg [Hin [Hone _]]]]].
  assert (Hp : exists ep, In ep sign_offs /\ strip ep <> [] /\
                 exists u v,
                   lower (text (msg (ten + 60) "B" "Iyi Geceler!"))
                   = u ++ lower (strip ep) ++ v).
  { exists (of_string " geceler "). split; [now left|].
    split; [discriminate|].
    now exists (of_string "iyi "), (of_string "!"). }
  exists es, ss. split; [exact Hg|]. split.
  - apply Hin. now left.
  - apply Hone. now left.
Defined.

Lemma starters_follow_boundaries_witness :
  nth_error two_days 0 = Some (msg ten "A" "hi")
  /\ get_conversation_ends two_days sign_offs
     = Ok ([-1; 1; 2]%Z, [of_string "A"])
  /\ exists es ss,
       get_conversation_ends two_days sign_offs = Ok (es, ss)
       /\ ss = [of_string "A"].
Proof.
  split; [reflexivity|]. split; [reflexivity|].
  destruct (starters_follow_boundaries (R := ref_runtime)
              two_days sign_offs (msg ten "A" "hi") eq_refl)
    as [es [ss [bs [Hg _]]]].
  exists es, ss. split; [exact Hg|].
  assert (E : Ok (es, ss) = Ok ([-1; 1; 2]%Z, [of_string "A"]))
    by (rewrite <- Hg; reflexivity).
  now injection E.
Defined.

End SegmenterWitnesses.

Section FirstMessage.
Context {R : Runtime}.

(** C10. [prev_time] starts as the timestamp of the first message: the
    gap the first iteration computes is zero, the six-hour test fails
    there, and position 0 is recorded as a boundary exactly when the first
    message matches a closing phrase. *)
Theorem first_message_closes_only_by_phrase
        (r : row) (rest : list row) (end_phrases : list str) :
  exists st0,
    seg_init (r :: rest) = Ok st0
    /\ seg_run (r :: rest) end_phrases
       = (st1 <- seg_step (r :: rest) end_phrases st0 (0%nat, r) ;;
          seg_loop (r :: rest) end_phrases
                   (combine (seq 1 (List.length rest)) rest) st1)
    /\ prev_time st0 = dt r
    /\ gap st0 r = 0%Z
    /\ (six_hours <? gap st0 r)%Z = false
    /\ exists es ss,
         get_conversation_ends (r :: rest) end_phrases = Ok (es, ss)
         /\ (In 0%Z es <-> is_end end_phrases r = true).
Proof.
  exists (mkSeg [(-1)%Z] [] (dt r)).
  split; [unfold seg_init; now rewrite iloc_zero|].
  split; [unfold seg_run, seg_init; now rewrite iloc_zero|].
  split; [reflexivity|].
  assert (Hg : gap (mkSeg [(-1)%Z] [] (dt r)) r = 0%Z)
    by (unfold gap; simpl; lia).
  split; [exact Hg|]. split; [now rewrite Hg|].
  rewrite get_conversation_ends_spec. eexists. eexists.
  split; [reflexivity|].
  change 0%Z with (Z.of_nat 0).
  now rewrite in_boundaries, in_closing, closes_first.
Qed.

End FirstMessage.

Section Classifier.
Context {R : Runtime}.

(** C2, as the code has it. A message that has a predecessor in the frame
    and whose position is not in the list passed as [split_idx] is labelled
    by the time since the row just before it in the frame, whatever the
    boundaries are: Early below 60 seconds, NearEarly from 60 to below 300,
    Late from 300 on. *)
Theorem band_by_gap_to_previous_row
        (df : list row) (split_idx : list Z) (j : nat) (before r : row) :
  nth_error df j = Some before ->
  nth_error df (S j) = Some r ->
  ~ In (Z.of_nat (S j)) split_idx ->
  let delta := (dt r - dt before)%Z in
  exists labels b,
    classify_response_times df split_idx = Ok labels
    /\ nth_error labels (S j) = Some (Some b)
    /\ b = band_of delta
    /\ (b = Early <-> (delta < 60)%Z)
    /\ (b = NearEarly <-> (60 <= delta < 300)%Z)
    /\ (b = Late <-> (300 <= delta)%Z).
Proof.
  intros Hb Hr Hs delta.
  exists (List.map (label split_idx df) (seq 0 (List.length df))).
  exists (band_of delta).
  split; [apply classify_spec|].
  split.
  - rewrite nth_error_labels
      by (apply nth_error_Some; congruence).
    unfold label.
    destruct (in_idx (S j) split_idx) eqn:E;
      [apply in_idx_spec in E; contradiction|].
    cbn [wrap_prev].
    now rewrite (dt_at_nth df (S j) r Hr), (dt_at_nth df j before Hb).
  - split; [reflexivity|].
    split; [apply band_of_early|].
    split; [apply band_of_near_early|apply band_of_late].
Qed.

(** C1, as the code has it. On a frame ordered by time whose first
    message matches no closing phrase, the boundary list of the segmenter
    makes the classifier label the first message Early: it is compared
    with the last row of the frame. The label None goes to the positions
    the segmenter recorded, the messages that close a conversation. *)
Theorem first_message_labelled_early
        (df : list row) (end_phrases : list str) (r0 : row) :
  StronglySorted dt_le df ->
  nth_error df 0 = Some r0 ->
  is_end end_phrases r0 = false ->
  exists es ss labels,
    get_conversation_ends df end_phrases = Ok (es, ss)
    /\ classify_response_times df es = Ok labels
    /\ nth_error labels 0 = Some (Some Early)
    /\ forall i, (i < List.length df)%nat ->
                 (nth_error labels i = Some None
                  <-> closes end_phrases df i = true).
Proof.
  intros Hsort H0 Hend.
  destruct df as [|r rest]; [discriminate|].
  injection H0 as ->.
  rewrite get_conversation_ends_spec.
  set (df := r0 :: rest) in *.
  set (bs := filter (closes end_phrases df) (seq 0 (List.length df))).
  set (es := (-1)%Z :: List.map Z.of_nat bs).
  assert (Hidx : forall i, in_idx i es = closes end_phrases df i).
  { intros i. apply eq_true_iff_eq.
    unfold es. rewrite in_idx_spec, in_boundaries. apply in_closing. }
  exists es. eexists.
  exists (List.map (label es df) (seq 0 (List.length df))).
  split; [reflexivity|].
  split; [apply classify_spec|]. split.
  - rewrite nth_error_labels by (unfold df; simpl; lia).
    unfold label. rewrite Hidx. unfold df at 1.
    rewrite closes_first, Hend.
    do 2 f_equal. apply band_of_early.
    pose proof (sorted_first_le_last r0 rest Hsort) as Hlast.
    unfold df. cbn [wrap_prev List.length]. rewrite Nat.sub_succ, Nat.sub_0_r.
    rewrite (dt_at_nth (r0 :: rest) 0 r0 eq_refl).
    lia.
  - intros i Hi. rewrite nth_error_labels by exact Hi.
    unfold label. rewrite Hidx.
    destruct (closes end_phrases df i); split;
      (reflexivity || discriminate).
Qed.

End Classifier.

Lemma morning_sorted : StronglySorted dt_le morning.
Proof.
  unfold morning, dt_le.
  repeat (constructor; [|repeat constructor; simpl; unfold ten; lia]).
  constructor.
Qed.

Lemma band_by_gap_to_previous_row_witness :
  exists labels b,
    classify_response_times morning [(-1)%Z] = Ok labels
    /\ nth_error labels 1 = Some (Some b)
    /\ b = NearEarly.
Proof.
  destruct (band_by_gap_to_previous_row
              morning [(-1)%Z] 0 (msg ten "A" "hi") (msg (ten + 60) "B" "hey")
              eq_refl eq_refl)
    as [labels [b [Hc [Hn [Hb _]]]]].
  - simpl. intros [H|[]]. discriminate H.
  - exists labels, b. split; [exact Hc|]. split; [exact Hn|].
    rewrite Hb. reflexivity.
Defined.

(** C2, as the specification has it, fails at the first message: it has no
    row before it, and when its position is not in the list it is labelled
    by the time since the last row of the frame. *)
Lemma first_position_has_no_previous_row :
  ~ (forall (df : list row) (split_idx : list Z) (i : nat) (r : row),
        nth_error df i = Some r ->
        ~ In (Z.of_nat i) split_idx ->
        exists j before labels,
          i = S j
          /\ nth_error df j = Some before
          /\ classify_response_times df split_idx = Ok labels
          /\ nth_error labels i = Some (Some (band_of (dt r - dt before)))).
Proof.
  intros H.
  destruct (H morning [(-1)%Z] 0%nat (msg ten "A" "hi") eq_refl)
    as [j [before [labels [E _]]]].
  - cbn [In Z.of_nat]. intros [E|[]]. discriminate E.
  - discriminate E.
Qed.

(** On three messages that are not in order of time the first one is
    Late: 600 seconds after the last row. *)
Example first_position_reads_last_row :
  classify_response_times
    [msg (ten + 600) "A" "so"; msg (ten + 60) "B" "hey"; msg ten "A" "hi"]
    [(-1)%Z]
  = Ok [Some Late; Some Early; Some Early].
Proof. vm_compute. reflexivity. Qed.

Lemma first_message_labelled_early_witness :
  is_end (R := ref_runtime) [] (msg ten "A" "hi") = false
  /\ exists es ss labels,
       get_conversation_ends (R := ref_runtime) morning [] = Ok (es, ss)
       /\ classify_response_times morning es = Ok labels
       /\ nth_error labels 0 = Some (Some Early).
Proof.
  split; [reflexivity|].
  destruct (first_message_labelled_early (R := ref_runtime)
              morning [] (msg ten "A" "hi")
              morning_sorted eq_refl eq_refl)
    as [es [ss [labels [Hg [Hc [Hn _]]]]]].
  exists es, ss, labels. now repeat split.
Defined.

(** The script on [morning_lines]: one conversation, and the message that
    opens it labelled Early. *)
Example main_logic_morning :
  main_logic (R := ref_runtime) morning_lines []
  = Ok (Analysed (mkAnalysis morning [(-1)%Z] [of_string "A"] 1
                             [Some Early; Some NearEarly; Some Late])).
Proof. vm_compute. reflexivity. Qed.

Section Extraction.
Context {R : Runtime}.

Lemma parse_line_message (rows : list row) (line d t a x : str) (ts : Z) :
  line_match (strip line) = Some (d, t, a, x) ->
  parse_dt (d ++ 32%N :: t) = Ok ts ->
  parse_line rows line =
  Ok (rows ++ [mkRow ts (strip a) (strip x) (distinct_emoji_list x)]).
Proof. intros Hm Hd. unfold parse_line. now rewrite Hm, Hd. Qed.

Lemma hello_line_match :
  line_match (strip hello_line)
  = Some (of_string "1.1.2024", of_string "10:00",
          of_string "A", of_string "hello").
Proof. rewrite line_match_ascii by reflexivity. vm_compute. reflexivity. Qed.

Lemma world_line_match : line_match (strip world_line) = None.
Proof. rewrite line_match_ascii by reflexivity. vm_compute. reflexivity. Qed.

(** A message line followed by one line that is not a message line. *)
Lemma parse_chat_folded (first line d t a x : str) (ts : Z) :
  line_match (strip first) = Some (d, t, a, x) ->
  parse_dt (d ++ 32%N :: t) = Ok ts ->
  line_match (strip line) = None ->
  parse_chat [first; line] =
  Ok [mkRow ts (strip a) (strip x ++ 32%N :: strip line)
            (distinct_emoji_list x)].
Proof.
  intros Hm Hd Hn. unfold parse_chat. cbn [parse_lines].
  rewrite (parse_line_message [] first d t a x ts Hm Hd). cbn [bind app].
  rewrite (parse_line_continuation _ line Hn). cbn [bind append_last].
  now rewrite sort_values_one.
Qed.

(** C5. A line that does not match [LINE_RE] once trimmed is dropped when
    no message was extracted before it, and otherwise added, trimmed and
    after one space, to the body of the message extracted last; the two
    lines of the example give one message with the body [hello world]. *)
Theorem continuation_line_extends_last_message :
  (forall before line rows,
      parse_lines before [] = Ok rows ->
      line_match (strip line) = None ->
      (rows = [] -> parse_lines (before ++ [line]) [] = Ok [])
      /\ forall pre m,
           rows = pre ++ [m] ->
           parse_lines (before ++ [line]) []
           = Ok (pre ++ [set_text m (text m ++ 32%N :: strip line)]))
  /\ (forall ts,
         parse_dt hello_stamp = Ok ts ->
         parse_chat [hello_line; world_line]
         = Ok [mkRow ts (of_string "A") (of_string "hello world")
                     (distinct_emoji_list (of_string "hello"))]).
Proof.
  split.
  - intros before line rows Hb Hn.
    rewrite parse_lines_app, Hb. cbn [bind parse_lines].
    rewrite (parse_line_continuation rows line Hn). cbn [bind].
    split.
    + now intros ->.
    + intros pre m ->. rewrite <- append_last_snoc. now destruct pre.
  - intros ts Hd.
    now rewrite (parse_chat_folded hello_line world_line _ _ _ _ ts
                                   hello_line_match Hd world_line_match).
Qed.

(** C9, as the code has it. The [emojis] of a message are those of the
    text of its own line; the lines folded into its body afterwards leave
    them as they are. *)
Theorem emojis_ignore_continuation_lines
        (first line d t a x : str) (ts : Z) :
  line_match (strip first) = Some (d, t, a, x) ->
  parse_dt (d ++ 32%N :: t) = Ok ts ->
  line_match (strip line) = None ->
  exists m,
    parse_chat [first; line] = Ok [m]
    /\ text m = strip x ++ 32%N :: strip line
    /\ emojis m = distinct_emoji_list x.
Proof.
  intros Hm Hd Hn.
  exists (mkRow ts (strip a) (strip x ++ 32%N :: strip line)
                (distinct_emoji_list x)).
  split; [exact (parse_chat_folded first line d t a x ts Hm Hd Hn)|].
  now split.
Qed.

(** C7. A message line whose date and time neither [strptime] nor
    [pd.to_datetime] accepts makes [parse_chat] raise: no frame is
    returned, and when the lines before it were extracted the exception is
    the one of that record. *)
Theorem unparseable_timestamp_raises
        (before after : list str) (line d t a x : str) :
  line_match (strip line) = Some (d, t, a, x) ->
  strptime (d ++ 32%N :: t) = None ->
  to_datetime (d ++ 32%N :: t) = None ->
  (forall df, parse_chat (before ++ line :: after) <> Ok df)
  /\ (forall rows,
         parse_lines before [] = Ok rows ->
         parse_chat (before ++ line :: after)
         = Raise (DateParseError (d ++ 32%N :: t))).
Proof.
  intros Hm Hs Hf.
  assert (Hl : forall rows,
             parse_line rows line = Raise (DateParseError (d ++ 32%N :: t))).
  { intros rows. unfold parse_line, parse_dt. now rewrite Hm, Hs, Hf. }
  assert (Hp : forall rows,
             parse_lines before [] = Ok rows ->
             parse_chat (before ++ line :: after)
             = Raise (DateParseError (d ++ 32%N :: t))).
  { intros rows Hb. unfold parse_chat.
    rewrite parse_lines_app, Hb. cbn [bind parse_lines].
    now rewrite Hl. }
  split; [|exact Hp].
  intros df. destruct (parse_lines before []) as [rows|e] eqn:Eb.
  - now rewrite (Hp rows eq_refl).
  - unfold parse_chat. rewrite parse_lines_app, Eb. discriminate.
Qed.

(** C6, as the code has it. When the extraction raises nothing,
    [parse_chat] returns a frame ordered by timestamp that holds the
    messages extracted, for every timestamp the same ones. Its timestamps
    stand as the stable sort [Ref.sort_keep] leaves them, and the frame is
    that of the stable sort when no two messages have the same timestamp.
    Nothing is said of the order of two messages of one timestamp. *)
Theorem parse_chat_sorted (lines : list str) (rows : list row) :
  parse_lines lines [] = Ok rows ->
  exists df,
    parse_chat lines = Ok df
    /\ StronglySorted dt_le df
    /\ Permutation rows df
    /\ (forall t, Permutation (filter (fun r => (dt r =? t)%Z) rows)
                              (filter (fun r => (dt r =? t)%Z) df))
    /\ appearance_order_kept rows (Ref.sort_keep rows)
    /\ List.map dt df = List.map dt (Ref.sort_keep rows)
    /\ (NoDup (List.map dt rows) ->
        df = Ref.sort_keep rows /\ appearance_order_kept rows df).
Proof.
  intros H.
  assert (Hdf : exists df,
             parse_chat lines = Ok df
             /\ StronglySorted dt_le df /\ Permutation rows df).
  { unfold parse_chat. rewrite H. cbn [bind].
    destruct rows as [|r rows].
    - exists []. split; [reflexivity|]. split; constructor.
    - exists (sort_values (r :: rows)). split; [reflexivity|].
      split; [apply sort_values_sorted|apply sort_values_perm]. }
  destruct Hdf as [df [Hp [Hs Hperm]]].
  exists df. split; [exact Hp|]. split; [exact Hs|]. split; [exact Hperm|].
  split; [intros t; now apply filter_perm|].
  split; [apply sort_keep_stable|].
  assert (Hk : Permutation (Ref.sort_keep rows) df).
  { apply perm_trans with rows; [|exact Hperm].
    apply Permutation_sym. apply isort_perm. }
  destruct (orderings_agree (Ref.sort_keep rows) df
              (isort_sorted _ leb_before leb_after rows) Hs Hk)
    as [Hm Hu].
  split; [now symmetry|].
  intros Hn.
  assert (E : df = Ref.sort_keep rows).
  { symmetry. apply Hu.
    apply (Permutation_NoDup (l := List.map dt rows)); [|exact Hn].
    apply Permutation_map. apply isort_perm. }
  split; [exact E|]. rewrite E. apply sort_keep_stable.
Qed.

(** C8, as the code has it. When no line is a message line (or there is
    no line) [parse_chat] returns the empty frame, the script reports that
    there is no valid message and stops before the segmenter and the
    classifier run, and the classifier takes the empty frame. *)
Theorem empty_transcript_reported (lines end_phrases : list str) :
  (forall line, In line lines -> line_match (strip line) = None) ->
  parse_chat lines = Ok []
  /\ main_logic lines end_phrases = Ok NoValidMessages
  /\ forall split_idx, classify_response_times [] split_idx = Ok [].
Proof.
  intros H.
  assert (Hp : parse_chat lines = Ok [])
    by (unfold parse_chat; now rewrite parse_lines_no_match).
  split; [exact Hp|]. split; [|reflexivity].
  unfold main_logic. now rewrite Hp.
Qed.

End Extraction.

Lemma continuation_line_extends_last_message_witness :
  parse_lines (R := ref_runtime) [hello_line] [] = Ok [msg ten "A" "hello"]
  /\ line_match (R := ref_runtime) (strip world_line) = None
  /\ parse_lines (R := ref_runtime) [hello_line; world_line] []
     = Ok [msg ten "A" "hello world"]
  /\ parse_dt (R := ref_runtime) hello_stamp = Ok ten
  /\ parse_chat (R := ref_runtime) [hello_line; world_line]
     = Ok [msg ten "A" "hello world"].
Proof.
  destruct (continuation_line_extends_last_message (R := ref_runtime))
    as [Hfold Hexample].
  split; [reflexivity|]. split; [reflexivity|].
  split.
  - exact (proj2 (Hfold [hello_line] world_line [msg ten "A" "hello"]
                        eq_refl eq_refl)
                 [] (msg ten "A" "hello") eq_refl).
  - split; [reflexivity|exact (Hexample ten eq_refl)].
Defined.

Lemma emojis_ignore_continuation_lines_witness :
  exists m,
    parse_chat (R := ref_runtime) [hello_line; [grinning]] = Ok [m]
    /\ text m = of_string "hello" ++ [32%N; grinning]
    /\ emojis m = []
    /\ distinct_emoji_list (Runtime := ref_runtime) (text m) = [[grinning]].
Proof.
  destruct (emojis_ignore_continuation_lines (R := ref_runtime)
              hello_line [grinning]
              (of_string "1.1.2024") (of_string "10:00")
              (of_string "A") (of_string "hello") ten
              eq_refl eq_refl eq_refl)
    as [m [Hp [Ht He]]].
  exists m. split; [exact Hp|]. split; [exact Ht|]. split; [exact He|].
  rewrite Ht. reflexivity.
Defined.

Lemma unparseable_timestamp_raises_witness :
  parse_chat (R := ref_runtime) [hello_line; bad_line; world_line]
  = Raise (DateParseError (of_string "31.2.2024 10:00")).
Proof.
  exact (proj2 (unparseable_timestamp_raises (R := ref_runtime)
                  [hello_line] [world_line] bad_line
                  (of_string "31.2.2024") (of_string "10:00")
                  (of_string "A") (of_string "hello")
                  eq_refl eq_refl eq_refl)
               [msg ten "A" "hello"] eq_refl).
Defined.

Lemma parse_chat_sorted_witness :
  parse_lines (R := ref_runtime) (rev morning_lines) [] = Ok (rev morning)
  /\ NoDup (List.map dt (rev morning))
  /\ parse_chat (R := ref_runtime) (rev morning_lines) = Ok morning
  /\ exists df,
       parse_chat (R := ref_runtime) (rev morning_lines) = Ok df
       /\ StronglySorted dt_le df
       /\ Permutation (rev morning) df
       /\ appearance_order_kept (rev morning) df.
Proof.
  assert (Hn : NoDup (List.map dt (rev morning))).
  { unfold morning, ten. cbn [rev app List.map dt msg].
    repeat (constructor; [cbn [In]; lia|]). constructor. }
  split; [reflexivity|]. split; [exact Hn|]. split; [reflexivity|].
  destruct (parse_chat_sorted (R := ref_runtime) (rev morning_lines)
                              (rev morning) eq_refl)
    as [df [Hp [Hs [Hperm [_ [_ [_ Hu]]]]]]].
  exists df. split; [exact Hp|]. split; [exact Hs|]. split; [exact Hperm|].
  exact (proj2 (Hu Hn)).
Defined.

(** With the sort of numpy the frame is the rows in the order of
    [Numpy.argsort]: ordered by timestamp because the routine orders, with
    nothing assumed of it. *)
Lemma parse_chat_numpy (lines : list str) (rows : list row) :
  parse_lines (R := numpy_runtime) lines [] = Ok rows ->
  parse_chat (R := numpy_runtime) lines
  = Ok (Numpy.take rows (Numpy.argsort (List.map dt rows)))
  /\ StronglySorted dt_le (Numpy.take rows (Numpy.argsort (List.map dt rows)))
  /\ Permutation rows (Numpy.take rows (Numpy.argsort (List.map dt rows))).
Proof.
  intros H. split; [|split].
  - unfold parse_chat. rewrite H. cbn [bind]. now destruct rows.
  - exact (numpy_sort_sorted rows).
  - exact (numpy_sort_perm rows).
Qed.

(** Eighteen messages of one minute, as numpy's sort leaves them: the
    first partition sends the second message to the sixteenth place and
    the sixteenth to the second. *)
Example same_minute_sorted :
  Numpy.argsort (List.map dt same_minute_rows) = same_minute_order
  /\ parse_lines (R := numpy_runtime) same_minute_lines []
     = Ok same_minute_rows
  /\ parse_chat (R := numpy_runtime) same_minute_lines
     = Ok (Numpy.take same_minute_rows same_minute_order)
  /\ List.map text (Numpy.take same_minute_rows same_minute_order)
     = List.map of_string
         ["m00"; "m15"; "m14"; "m13"; "m12"; "m11"; "m10"; "m09"; "m08";
          "m07"; "m06"; "m05"; "m04"; "m03"; "m02"; "m01"; "m16";
          "m17"]%string.
Proof. repeat split; vm_compute; reflexivity. Qed.

(** C6, as the specification has it, fails. [sort_values] is called with
    its default [kind], the introsort of numpy, which is not stable: of
    eighteen messages of one minute the frame holds the second to the
    sixteenth in reverse order. *)
Lemma same_minute_messages_reordered :
  ~ (forall (lines : list str) (rows df : list row),
        parse_lines (R := numpy_runtime) lines [] = Ok rows ->
        parse_chat (R := numpy_runtime) lines = Ok df ->
        StronglySorted dt_le df /\ appearance_order_kept rows df).
Proof.
  intros H.
  assert (E1 : parse_lines (R := numpy_runtime) same_minute_lines []
               = Ok same_minute_rows) by (vm_compute; reflexivity).
  assert (E2 : parse_chat (R := numpy_runtime) same_minute_lines
               = Ok (Numpy.take same_minute_rows same_minute_order))
    by (vm_compute; reflexivity).
  destruct (H _ _ _ E1 E2) as [_ Hk].
  specialize (Hk ten). vm_compute in Hk. discriminate Hk.
Qed.

Lemma empty_transcript_reported_witness :
  parse_chat (R := ref_runtime) [world_line; []] = Ok []
  /\ main_logic (R := ref_runtime) [world_line; []] sign_offs
     = Ok NoValidMessages.
Proof.
  destruct (empty_transcript_reported (R := ref_runtime)
              [world_line; []] sign_offs)
    as [Hp [Hm _]].
  - intros line [<-|[<-|[]]]; reflexivity.
  - now split.
Defined.

(** C8, as the specification has it, fails: on the empty frame the
    segmenter reads the first row and raises. *)
Lemma segmenter_rejects_empty_frame :
  ~ (forall (R : Runtime) (end_phrases : list str) (split_idx : list Z),
        (exists v, get_conversation_ends [] end_phrases = Ok v)
        /\ (exists l, classify_response_times [] split_idx = Ok l)).
Proof.
  intros H. destruct (H ref_runtime [] []) as [[v Hv] _].
  discriminate Hv.
Qed.

(** * Further properties of the code *)

(** ** What a match of [LINE_RE] says about the line *)

Section MatcherSound.
Variable dec : char -> bool.

Lemma cur_eats (u : str) (m : mstate) :
  cur (eats u m) = option_map (fun g => g ++ u) (cur m).
Proof.
  revert m; induction u as [|a u IH]; intros m; simpl.
  - destruct (cur m); simpl; [now rewrite app_nil_r|reflexivity].
  - rewrite IH. simpl. destruct (cur m); simpl; [|reflexivity].
    now rewrite <- app_assoc.
Qed.

Lemma closed_eats (u : str) (m : mstate) : closed (eats u m) = closed m.
Proof. revert m; induction u as [|a u IH]; intros m; simpl; [|rewrite IH]; reflexivity. Qed.

(** A successful repetition consumed a prefix in the class, of a length
    within the bounds, and the continuation succeeded on the rest. *)
Lemma rep_sound (c : cls) (k : str -> mstate -> option (list str)) :
  forall (s : str) (lo : nat) (hi : option nat) (m : mstate) (r : list str),
    rep dec c lo hi k s m = Some r ->
    exists u v,
      s = u ++ v
      /\ Forall (fun a => test dec c a = true) u
      /\ (lo <= List.length u)%nat
      /\ (forall h, hi = Some h -> (List.length u <= h)%nat)
      /\ k v (eats u m) = Some r.
Proof.
  assert (Hstop : forall s lo hi m r,
             match lo with 0 => k s m | S _ => None end = Some r ->
             exists u v,
               s = u ++ v
               /\ Forall (fun a => test dec c a = true) u
               /\ (lo <= List.length u)%nat
               /\ (forall h, hi = Some h -> (List.length u <= h)%nat)
               /\ k v (eats u m) = Some r).
  { intros s lo hi m r H. destruct lo; [|discriminate].
    exists [], s. repeat split; simpl; try constructor; try exact H; lia. }
  induction s as [|a s IH]; intros lo hi m r H.
  - now apply Hstop.
  - cbn [rep] in H.
    destruct (test dec c a && may_more hi) eqn:E; [|now apply Hstop].
    destruct (rep dec c (Nat.pred lo) (option_map Nat.pred hi) k s (eat a m))
      as [r'|] eqn:Er; [|now apply Hstop].
    injection H as <-.
    apply andb_true_iff in E. destruct E as [Et Em].
    destruct (IH _ _ _ _ Er) as [u [v [-> [Hu [Hlo [Hhi Hk]]]]]].
    exists (a :: u), v. split; [reflexivity|].
    split; [now constructor|]. split; [simpl; lia|]. split; [|exact Hk].
    intros h ->. destruct h as [|h]; [discriminate|].
    specialize (Hhi h eq_refl). simpl; lia.
Qed.

End MatcherSound.

Section LineShape.
Context {R : Runtime}.

Lemma line_match_run (s d t a x : str) :
  line_match s = Some (d, t, a, x) ->
  run isdecimal LINE_RE s start = Some [d; t; a; x].
Proof.
  unfold line_match, re_match.
  destruct (run isdecimal LINE_RE s start) as [[|g1 [|g2 [|g3 [|g4 [|g5 gs]]]]]|];
    try discriminate.
  now intros [= -> -> -> ->].
Qed.

Lemma one_char (P : char -> Prop) (u : str) :
  Forall P u -> (1 <= List.length u)%nat ->
  (forall h, Some 1%nat = Some h -> (List.length u <= h)%nat) ->
  exists c, u = [c] /\ P c.
Proof.
  intros Hu Hlo Hhi. specialize (Hhi 1%nat eq_refl).
  destruct u as [|c [|c' u]]; simpl in *; try lia.
  exists c. split; [reflexivity|]. now inversion Hu.
Qed.

Ltac rep_step H u Hu Lu Uu :=
  apply rep_sound in H;
  let v := fresh "rest" in
  destruct H as [u [v [-> [Hu [Lu [Uu H]]]]]];
  cbn beta in H.

Ltac group_step H :=
  rewrite ?cur_eats in H; cbn [cur option_map] in H.

(** Every character of [s] is a decimal digit, a white space character. *)
Definition all_decimal (s : str) : Prop := Forall (fun c => isdecimal c = true) s.
Definition all_space (s : str) : Prop := Forall (fun c => isspace c = true) s.

(** The same for the matcher itself. *)
Lemma run_shape (s d t a x : str) :
  run isdecimal LINE_RE s start = Some [d; t; a; x] ->
  exists day month year hour minute gap1 gap2 sp1 sp2 tail,
    s = d ++ gap1 ++ t ++ gap2 ++ 45%N :: sp1 :: a ++ 58%N :: sp2 :: x ++ tail
    /\ d = day ++ 46%N :: month ++ 46%N :: year
    /\ t = hour ++ 58%N :: minute
    /\ (all_decimal day /\ 1 <= List.length day <= 2)%nat
    /\ (all_decimal month /\ 1 <= List.length month <= 2)%nat
    /\ (all_decimal year /\ List.length year = 4)%nat
    /\ (all_decimal hour /\ 1 <= List.length hour <= 2)%nat
    /\ (all_decimal minute /\ List.length minute = 2)%nat
    /\ (all_space gap1 /\ gap1 <> [])
    /\ (all_space gap2 /\ gap2 <> [])
    /\ isspace sp1 = true
    /\ isspace sp2 = true
    /\ (a <> [] /\ ~ In 58%N a)
    /\ ~ In 10%N x
    /\ (tail = [] \/ tail = [10%N]).
Proof.
  intros H.
  unfold LINE_RE, one, plus, star, times in H. cbn [run start] in H.
  cbn [pos] in H.
  rep_step H dd Hdd Ldd Udd.
  rep_step H p1 Hp1 Lp1 Up1.
  rep_step H mm Hmm Lmm Umm.
  rep_step H p2 Hp2 Lp2 Up2.
  rep_step H yy Hyy Lyy Uyy.
  group_step H.
  rep_step H w1 Hw1 Lw1 Uw1.
  rep_step H hh Hhh Lhh Uhh.
  rep_step H p3 Hp3 Lp3 Up3.
  rep_step H mi Hmi Lmi Umi.
  group_step H.
  rep_step H w2 Hw2 Lw2 Uw2.
  rep_step H p4 Hp4 Lp4 Up4.
  rep_step H w3 Hw3 Lw3 Uw3.
  rep_step H au Hau Lau Uau.
  group_step H.
  rep_step H p5 Hp5 Lp5 Up5.
  rep_step H w4 Hw4 Lw4 Uw4.
  rep_step H tx Htx Ltx Utx.
  group_step H.
  assert (Hend : (rest0 = [] \/ rest0 = [10%N])
                 /\ Some [(((dd ++ p1) ++ mm) ++ p2) ++ yy;
                          (hh ++ p3) ++ mi; au; tx]
                    = Some [d; t; a; x]).
  { destruct rest0 as [|c [|c' rest0]]; [| |discriminate].
    - split; [now left|].
      rewrite ?closed_eats in H. cbn [closed rev app] in H.
      rewrite ?closed_eats in H. cbn [closed rev app start] in H.
      exact H.
    - destruct (N.eqb_spec c 10); [subst c|discriminate].
      split; [now right|].
      rewrite ?closed_eats in H. cbn [closed rev app] in H.
      rewrite ?closed_eats in H. cbn [closed rev app start] in H.
      exact H. }
  clear H. destruct Hend as [Htail H]. injection H as <- <- <- <-.
  destruct (one_char _ p1 Hp1 Lp1 Up1) as [c1 [-> E1]].
  destruct (one_char _ p2 Hp2 Lp2 Up2) as [c2 [-> E2]].
  destruct (one_char _ p3 Hp3 Lp3 Up3) as [c3 [-> E3]].
  destruct (one_char _ p4 Hp4 Lp4 Up4) as [c4 [-> E4]].
  destruct (one_char _ p5 Hp5 Lp5 Up5) as [c5 [-> E5]].
  destruct (one_char _ w3 Hw3 Lw3 Uw3) as [sp1 [-> Es1]].
  destruct (one_char _ w4 Hw4 Lw4 Uw4) as [sp2 [-> Es2]].
  cbn [test] in E1, E2, E3, E4, E5, Es1, Es2.
  apply N.eqb_eq in E1, E2, E3, E4, E5. subst c1 c2 c3 c4 c5.
  specialize (Udd _ eq_refl). specialize (Umm _ eq_refl).
  specialize (Uyy _ eq_refl). specialize (Uhh _ eq_refl).
  specialize (Umi _ eq_refl).
  exists dd, mm, yy, hh, mi, w1, w2, sp1, sp2, rest0.
  unfold str, char in *.
  split; [now rewrite <- !app_assoc|].
  split; [now rewrite <- !app_assoc|].
  split; [now rewrite <- !app_assoc|].
  split; [split; [exact Hdd|lia]|].
  split; [split; [exact Hmm|lia]|].
  split; [split; [exact Hyy|lia]|].
  split; [split; [exact Hhh|lia]|].
  split; [split; [exact Hmi|lia]|].
  split; [split; [exact Hw1|now destruct w1]|].
  split; [split; [exact Hw2|now destruct w2]|].
  split; [exact Es1|]. split; [exact Es2|].
  split; [split; [now destruct au|]|].
  - intros Hin. rewrite Forall_forall in Hau. specialize (Hau _ Hin).
    cbn [test] in Hau. now rewrite N.eqb_refl in Hau.
  - split; [|exact Htail].
    intros Hin. rewrite Forall_forall in Htx. specialize (Htx _ Hin).
    cbn [test] in Htx. now rewrite N.eqb_refl in Htx.
Qed.


(** X1. A line that [LINE_RE] matches is, from its first character on, its
    four groups with their separators: the date, white space, the time,
    white space, a hyphen, one white space character, the author, a colon,
    one white space character and the text, followed by nothing or by one
    final newline. The date is one or two digits, a dot, one or two digits,
    a dot and four digits; the time is one or two digits, a colon and two
    digits; the author is not empty and holds no colon; the text holds no
    newline. *)
Theorem line_match_shape (s d t a x : str) :
  line_match s = Some (d, t, a, x) ->
  exists day month year hour minute gap1 gap2 sp1 sp2 tail,
    s = d ++ gap1 ++ t ++ gap2 ++ 45%N :: sp1 :: a ++ 58%N :: sp2 :: x ++ tail
    /\ d = day ++ 46%N :: month ++ 46%N :: year
    /\ t = hour ++ 58%N :: minute
    /\ (all_decimal day /\ 1 <= List.length day <= 2)%nat
    /\ (all_decimal month /\ 1 <= List.length month <= 2)%nat
    /\ (all_decimal year /\ List.length year = 4)%nat
    /\ (all_decimal hour /\ 1 <= List.length hour <= 2)%nat
    /\ (all_decimal minute /\ List.length minute = 2)%nat
    /\ (all_space gap1 /\ gap1 <> [])
    /\ (all_space gap2 /\ gap2 <> [])
    /\ isspace sp1 = true
    /\ isspace sp2 = true
    /\ (a <> [] /\ ~ In 58%N a)
    /\ ~ In 10%N x
    /\ (tail = [] \/ tail = [10%N]).
Proof.
  intros H. apply run_shape. now apply line_match_run.
Qed.

(** The author group of a match is free of colons. *)
Lemma line_match_author (s d t a x : str) :
  line_match s = Some (d, t, a, x) -> ~ In 58%N a.
Proof.
  intros H. apply line_match_run, run_shape in H.
  destruct H as [? [? [? [? [? [? [? [? [? [? H]]]]]]]]]].
  now destruct H as [_ [_ [_ [_ [_ [_ [_ [_ [_ [_ [_ [_ [[_ Hc] _]]]]]]]]]]]]].
Qed.

End LineShape.

Lemma line_match_shape_witness :
  exists day month year hour minute gap1 gap2 sp1 sp2 tail,
    hello_line
    = of_string "1.1.2024" ++ gap1 ++ of_string "10:00" ++ gap2
      ++ 45%N :: sp1 :: of_string "A" ++ 58%N :: sp2 :: of_string "hello" ++ tail
    /\ of_string "1.1.2024" = day ++ 46%N :: month ++ 46%N :: year
    /\ of_string "10:00" = hour ++ 58%N :: minute.
Proof.
  destruct (line_match_shape (R := ref_runtime) hello_line
              (of_string "1.1.2024") (of_string "10:00")
              (of_string "A") (of_string "hello") eq_refl)
    as [day [month [year [hour [minute [gap1 [gap2 [sp1 [sp2 [tail
       [Hs [Hd [Ht _]]]]]]]]]]]]].
  exists day, month, year, hour, minute, gap1, gap2, sp1, sp2, tail.
  now repeat split.
Defined.

(** ** Trimming *)

(** Neither the first nor the last character of [s] is white space. *)
Definition trimmed (s : str) : Prop :=
  (forall c r, s = c :: r -> isspace c = false)
  /\ (forall r c, s = r ++ [c] -> isspace c = false).

Lemma lstrip_split (s : str) :
  exists w, s = w ++ lstrip s /\ all_space w.
Proof.
  induction s as [|c s [w [Hs Hw]]].
  - exists []. split; [reflexivity|constructor].
  - simpl. destruct (isspace c) eqn:E.
    + exists (c :: w). split; [simpl; now rewrite <- Hs|now constructor].
    + exists []. split; [reflexivity|constructor].
Qed.

Lemma lstrip_head (s : str) (c : char) (r : str) :
  lstrip s = c :: r -> isspace c = false.
Proof.
  induction s as [|a s IH]; simpl; [discriminate|].
  destruct (isspace a) eqn:E; [exact IH|].
  now intros [= <- _].
Qed.

Lemma lstrip_fixed (s : str) :
  (forall c r, s = c :: r -> isspace c = false) -> lstrip s = s.
Proof.
  intros H. destruct s as [|c r]; [reflexivity|].
  simpl. now rewrite (H c r eq_refl).
Qed.

Lemma lstrip_all_space (w : str) : all_space w -> lstrip w = [].
Proof.
  induction 1 as [|c w Hc _ IH]; simpl; [reflexivity|]. now rewrite Hc.
Qed.

(** White space in front of [s] does not count. *)
Lemma lstrip_app_space (w s : str) : all_space w -> lstrip (w ++ s) = lstrip s.
Proof.
  induction 1 as [|c w Hc _ IH]; simpl; [reflexivity|]. now rewrite Hc.
Qed.

Lemma rstrip_split (s : str) :
  exists w, s = rstrip s ++ w /\ all_space w.
Proof.
  destruct (lstrip_split (rev s)) as [w [Hs Hw]].
  exists (rev w). split.
  - unfold rstrip. rewrite <- rev_app_distr, <- Hs. now rewrite rev_involutive.
  - apply Forall_rev. exact Hw.
Qed.

Lemma rstrip_last (s r : str) (c : char) :
  rstrip s = r ++ [c] -> isspace c = false.
Proof.
  unfold rstrip. intros H.
  apply (f_equal (@rev char)) in H.
  rewrite rev_involutive, rev_app_distr in H. simpl in H.
  exact (lstrip_head _ _ _ H).
Qed.

Lemma rstrip_app_space (s w : str) : all_space w -> rstrip (s ++ w) = rstrip s.
Proof.
  intros Hw. unfold rstrip. rewrite rev_app_distr.
  rewrite lstrip_app_space; [reflexivity|now apply Forall_rev].
Qed.

Lemma rstrip_fixed (s : str) :
  (forall r c, s = r ++ [c] -> isspace c = false) -> rstrip s = s.
Proof.
  intros H. unfold rstrip. rewrite lstrip_fixed; [apply rev_involutive|].
  intros c r E. apply (H (rev r) c).
  rewrite <- (rev_involutive s), E. reflexivity.
Qed.

(** [strip] leaves a trimmed string, the part of [s] between two runs of
    white space. *)
Lemma strip_split (s : str) :
  exists w1 w2, s = w1 ++ strip s ++ w2 /\ all_space w1 /\ all_space w2.
Proof.
  destruct (lstrip_split s) as [w1 [H1 Hw1]].
  destruct (rstrip_split (lstrip s)) as [w2 [H2 Hw2]].
  exists w1, w2. unfold strip. now rewrite <- H2.
Qed.

Lemma strip_trimmed (s : str) : trimmed (strip s).
Proof.
  split.
  - intros c r E.
    destruct (rstrip_split (lstrip s)) as [w [H _]].
    fold (strip s) in H. rewrite E in H. simpl in H.
    exact (lstrip_head _ _ _ H).
  - intros r c E. exact (rstrip_last _ _ _ E).
Qed.

Lemma trimmed_strip (s : str) : trimmed s -> strip s = s.
Proof.
  intros [Hh Hl]. unfold strip. rewrite (lstrip_fixed s Hh).
  now apply rstrip_fixed.
Qed.

Lemma strip_idempotent (s : str) : strip (strip s) = strip s.
Proof. apply trimmed_strip, strip_trimmed. Qed.

Lemma strip_all_space (w : str) : all_space w -> strip w = [].
Proof. intros H. unfold strip. now rewrite lstrip_all_space. Qed.

(** White space after the last character does not count. *)
Lemma strip_app_space (s w : str) : all_space w -> strip (s ++ w) = strip s.
Proof.
  intros Hw. unfold strip.
  destruct (lstrip_split s) as [w1 [H1 Hw1]].
  destruct (lstrip s) as [|c r] eqn:E.
  - rewrite app_nil_r in H1. subst w1.
    rewrite lstrip_all_space; [reflexivity|].
    apply Forall_app. now split.
  - assert (Hl : lstrip (s ++ w) = (c :: r) ++ w).
    { rewrite H1 at 1. rewrite <- app_assoc.
      rewrite lstrip_app_space by exact Hw1.
      simpl. now rewrite (lstrip_head _ _ _ E). }
    rewrite Hl. now apply rstrip_app_space.
Qed.

Lemma strip_incl (s : str) (c : char) : In c (strip s) -> In c s.
Proof.
  intros H. destruct (strip_split s) as [w1 [w2 [E _]]].
  rewrite E. apply in_or_app. right. apply in_or_app. now left.
Qed.

(** ** The rows the extraction builds *)

Section Rows.
Context {R : Runtime}.

(** The groups of the lines that are message lines, in the order of the
    lines. *)
Definition message_lines (lines : list str) : list (str * str * str * str) :=
  flat_map (fun line => match line_match (strip line) with
                        | Some g => [g]
                        | None => []
                        end) lines.

Definition group_author (g : str * str * str * str) : str :=
  let '(_, _, a, _) := g in strip a.

Definition group_emojis (g : str * str * str * str) : list str :=
  let '(_, _, _, t) := g in distinct_emoji_list t.

Lemma bind_ok {A B : Type} (m : result A) (k : A -> result B) (b : B) :
  bind m k = Ok b -> exists a, m = Ok a /\ k a = Ok b.
Proof. destruct m as [a|e]; [now exists a|discriminate]. Qed.

Lemma parse_lines_cons_ok (line : str) (lines : list str) (rows0 rows : list row) :
  parse_lines (line :: lines) rows0 = Ok rows ->
  exists rows1,
    parse_line rows0 line = Ok rows1 /\ parse_lines lines rows1 = Ok rows.
Proof.
  exact (bind_ok (parse_line rows0 line)
                 (fun rows' => parse_lines lines rows') rows).
Qed.

Lemma append_last_fields (rows : list row) (extra : str) :
  List.map author (append_last rows extra) = List.map author rows
  /\ List.map emojis (append_last rows extra) = List.map emojis rows
  /\ List.map dt (append_last rows extra) = List.map dt rows.
Proof.
  induction rows as [|r rows [Ha [He Hd]]]; [now repeat split|].
  destruct rows as [|r' rows]; [now repeat split|].
  change (append_last (r :: r' :: rows) extra)
    with (r :: append_last (r' :: rows) extra).
  cbn [List.map]. now rewrite Ha, He, Hd.
Qed.

(** One line adds at most one row, after the rows there are, and leaves
    the authors and emojis of those as they were. *)
Lemma parse_line_fields (rows rows' : list row) (line : str) :
  parse_line rows line = Ok rows' ->
  List.map author rows' = List.map author rows
                          ++ List.map group_author (message_lines [line])
  /\ List.map emojis rows' = List.map emojis rows
                             ++ List.map group_emojis (message_lines [line]).
Proof.
  unfold parse_line, message_lines. cbn [flat_map].
  destruct (line_match (strip line)) as [[[[d t] a] x]|].
  - destruct (parse_dt (d ++ 32%N :: t)) as [ts|e]; [|discriminate].
    cbn [bind]. intros [= <-]. rewrite !map_app. now split.
  - intros [= <-]. cbn [app List.map]. rewrite !app_nil_r.
    destruct rows as [|r rows]; [now split|].
    destruct (append_last_fields (r :: rows) (32%N :: strip line))
      as [Ha [He _]].
    now split.
Qed.

Lemma message_lines_cons (line : str) (lines : list str) :
  message_lines (line :: lines) = message_lines [line] ++ message_lines lines.
Proof. unfold message_lines. cbn [flat_map]. now rewrite app_nil_r. Qed.

Lemma parse_lines_fields (lines : list str) :
  forall rows0 rows,
    parse_lines lines rows0 = Ok rows ->
    List.map author rows = List.map author rows0
                           ++ List.map group_author (message_lines lines)
    /\ List.map emojis rows = List.map emojis rows0
                              ++ List.map group_emojis (message_lines lines).
Proof.
  induction lines as [|line lines IH]; intros rows0 rows H.
  - injection H as <-. unfold message_lines. cbn [flat_map List.map].
    rewrite !app_nil_r. split; reflexivity.
  - apply parse_lines_cons_ok in H. destruct H as [rows1 [E H]].
    destruct (parse_line_fields _ _ _ E) as [Ha1 He1].
    destruct (IH _ _ H) as [Ha He].
    rewrite message_lines_cons, !map_app, !app_assoc.
    rewrite Ha, He, Ha1, He1. split; reflexivity.
Qed.

Lemma parse_chat_rows (lines : list str) (df : list row) :
  parse_chat lines = Ok df ->
  exists rows, parse_lines lines [] = Ok rows /\ Permutation rows df.
Proof.
  unfold parse_chat. intros H.
  destruct (parse_lines lines []) as [rows|e]; [|discriminate].
  cbn [bind] in H. injection H as <-.
  exists rows. split; [reflexivity|].
  destruct rows; [constructor|apply sort_values_perm].
Qed.

(** X2. When [parse_chat] returns a frame, the frame holds one row for
    each line that [LINE_RE] matches once trimmed, and no other row: it is a
    rearrangement of rows whose authors and emoji lists are, in the order
    of the lines, the trimmed author group and the emojis of the text group
    of those lines. Lines that are not message lines add no row. *)
Theorem one_row_per_message_line (lines : list str) (df : list row) :
  parse_chat lines = Ok df ->
  List.length df = List.length (message_lines lines)
  /\ exists rows,
       Permutation rows df
       /\ List.map author rows = List.map group_author (message_lines lines)
       /\ List.map emojis rows = List.map group_emojis (message_lines lines).
Proof.
  intros H. destruct (parse_chat_rows lines df H) as [rows [E Hp]].
  destruct (parse_lines_fields _ _ _ E) as [Ha He]. cbn [List.map app] in Ha, He.
  split.
  - rewrite <- (Permutation_length Hp).
    rewrite <- (length_map author rows), Ha. apply length_map.
  - exists rows. now repeat split.
Qed.

(** X3. In every row of a frame [parse_chat] returns, the author has no
    white space at either end and holds no colon. *)
Theorem authors_trimmed_without_colon (lines : list str) (df : list row) :
  parse_chat lines = Ok df ->
  Forall (fun r => trimmed (author r) /\ ~ In 58%N (author r)) df.
Proof.
  intros H. destruct (parse_chat_rows lines df H) as [rows [E Hp]].
  destruct (parse_lines_fields _ _ _ E) as [Ha _]. cbn [List.map app] in Ha.
  eapply Permutation_Forall; [exact Hp|].
  apply Forall_forall. intros r Hr.
  assert (Hin : In (author r) (List.map group_author (message_lines lines)))
    by (rewrite <- Ha; now apply in_map).
  apply in_map_iff in Hin. destruct Hin as [[[[d t] a] x] [Hg Hin]].
  cbn in Hg. rewrite <- Hg. split; [apply strip_trimmed|].
  unfold message_lines in Hin. apply in_flat_map in Hin.
  destruct Hin as [line [_ Hl]].
  destruct (line_match (strip line)) as [g|] eqn:E'; [|contradiction].
  destruct Hl as [->|[]].
  intros Hin. apply (line_match_author _ _ _ _ _ E'). now apply strip_incl.
Qed.

End Rows.

Lemma one_row_per_message_line_witness :
  parse_chat (R := ref_runtime) [hello_line; world_line]
  = Ok [msg ten "A" "hello world"]
  /\ List.length [msg ten "A" "hello world"]
     = List.length (message_lines (R := ref_runtime) [hello_line; world_line]).
Proof.
  split; [reflexivity|].
  exact (proj1 (one_row_per_message_line (R := ref_runtime)
                  [hello_line; world_line] [msg ten "A" "hello world"]
                  eq_refl)).
Defined.

Lemma authors_trimmed_without_colon_witness :
  parse_chat (R := ref_runtime) (rev morning_lines) = Ok morning
  /\ Forall (fun r => trimmed (author r) /\ ~ In 58%N (author r)) morning.
Proof.
  split; [reflexivity|].
  exact (authors_trimmed_without_colon (R := ref_runtime)
           (rev morning_lines) morning eq_refl).
Defined.

Section Lines.
Context {R : Runtime}.

Lemma parse_line_strip (rows : list row) (line line' : str) :
  strip line = strip line' -> parse_line rows line = parse_line rows line'.
Proof. intros E. unfold parse_line. now rewrite E. Qed.

Lemma parse_lines_strip (lines lines' : list str) :
  Forall2 (fun l l' => strip l = strip l') lines lines' ->
  forall rows, parse_lines lines rows = parse_lines lines' rows.
Proof.
  induction 1 as [|l l' lines lines' E _ IH]; intros rows; [reflexivity|].
  cbn [parse_lines]. rewrite (parse_line_strip rows l l' E).
  destruct (parse_line rows l'); cbn [bind]; [apply IH|reflexivity].
Qed.

(** X4. The newline that [readlines] leaves at the end of each line makes
    no difference: the lines with it and the lines without it, as
    [splitlines] gives them, are parsed to the same result. *)
Theorem parse_chat_ignores_line_ends (lines : list str) :
  parse_chat (List.map (fun l => l ++ [10%N]) lines) = parse_chat lines.
Proof.
  unfold parse_chat. rewrite (parse_lines_strip _ lines); [reflexivity|].
  induction lines as [|l lines IH]; constructor; [|exact IH].
  apply strip_app_space. now repeat constructor.
Qed.

(** X5. Lines before the first message line that are not message lines
    themselves (a header, blank lines) are dropped: the result is that of
    the transcript without them. *)
Theorem parse_chat_drops_leading_lines (junk lines : list str) :
  (forall line, In line junk -> line_match (strip line) = None) ->
  parse_chat (junk ++ lines) = parse_chat lines.
Proof.
  intros H. unfold parse_chat.
  now rewrite parse_lines_app, (parse_lines_no_match junk H).
Qed.

End Lines.

Lemma parse_chat_drops_leading_lines_witness :
  parse_chat (R := ref_runtime) ([world_line; []] ++ [hello_line])
  = parse_chat (R := ref_runtime) [hello_line].
Proof.
  apply (parse_chat_drops_leading_lines (R := ref_runtime)).
  intros line [<-|[<-|[]]]; reflexivity.
Defined.

(** ** The lists the segmenter returns *)

Lemma positions_increasing (f : nat -> bool) :
  forall n k,
    StronglySorted Z.lt (List.map Z.of_nat (filter f (seq k n)))
    /\ Forall (fun e => Z.of_nat k <= e < Z.of_nat (k + n))%Z
              (List.map Z.of_nat (filter f (seq k n))).
Proof.
  induction n as [|n IH]; intros k; [split; constructor|].
  destruct (IH (S k)) as [Hs Hb]. cbn [seq filter].
  assert (Hb' : Forall (fun e => Z.of_nat k <= e < Z.of_nat (k + S n))%Z
                       (List.map Z.of_nat (filter f (seq (S k) n)))).
  { eapply Forall_impl; [|exact Hb]. cbn beta. intros e He. lia. }
  destruct (f k); [|now split].
  cbn [List.map]. split.
  - constructor; [exact Hs|].
    eapply Forall_impl; [|exact Hb]. cbn beta. intros e He. lia.
  - constructor; [lia|exact Hb'].
Qed.

Lemma next_author_short (df : list row) (bs : list nat) :
  (List.length (flat_map (next_author df) bs) <= List.length bs)%nat
  /\ forall a, In a (flat_map (next_author df) bs) ->
               exists r, In r df /\ author r = a.
Proof.
  induction bs as [|i bs [Hl Hin]]; [split; [constructor|contradiction]|].
  cbn [flat_map]. unfold next_author at 1 3.
  destruct (nth_error df (S i)) as [nxt|] eqn:E.
  - split; [simpl; lia|].
    intros a [<-|Ha]; [|now apply Hin].
    exists nxt. split; [now apply (nth_error_In df (S i))|reflexivity].
  - split; [simpl; lia|exact Hin].
Qed.

Section SegmenterLists.
Context {R : Runtime}.

(** X6. On a non-empty frame the boundary list starts with -1 and goes on
    strictly increasing through positions of the frame, so the number of
    conversations the script shows, its length, is between 1 and the number
    of messages plus one. *)
Theorem ends_increasing_positions
        (df : list row) (end_phrases : list str) (r0 : row) :
  nth_error df 0 = Some r0 ->
  exists es ss,
    get_conversation_ends df end_phrases = Ok (es, ss)
    /\ hd_error es = Some (-1)%Z
    /\ StronglySorted Z.lt es
    /\ Forall (fun e => -1 <= e < Z.of_nat (List.length df))%Z es
    /\ (1 <= List.length es <= S (List.length df))%nat.
Proof.
  intros H0. destruct df as [|r rest]; [discriminate|]. injection H0 as ->.
  rewrite get_conversation_ends_spec.
  set (df := r0 :: rest).
  set (bs := filter (closes end_phrases df) (seq 0 (List.length df))).
  destruct (positions_increasing (closes end_phrases df) (List.length df) 0)
    as [Hs Hb]. fold bs in Hs, Hb.
  eexists. eexists. split; [reflexivity|]. split; [reflexivity|].
  split; [|split].
  - constructor; [exact Hs|].
    eapply Forall_impl; [|exact Hb]. cbn beta. intros e He. lia.
  - constructor; [lia|].
    eapply Forall_impl; [|exact Hb]. cbn beta. intros e He. lia.
  - cbn [List.length]. rewrite length_map.
    pose proof (filter_length_le (closes end_phrases df)
                                 (seq 0 (List.length df))) as Hle.
    fold bs in Hle. rewrite length_seq in Hle. lia.
Qed.

(** X7. On a non-empty frame the starter list is never empty, every name in
    it is the author of a message of the frame, and it has at most as many
    names as there are boundaries after the leading -1, or one name when
    there is none. *)
Theorem starters_are_authors
        (df : list row) (end_phrases : list str) (r0 : row) :
  nth_error df 0 = Some r0 ->
  exists es ss,
    get_conversation_ends df end_phrases = Ok (es, ss)
    /\ ss <> []
    /\ (forall a, In a ss -> exists r, In r df /\ author r = a)
    /\ (List.length ss <= Nat.max 1 (List.length es - 1))%nat.
Proof.
  intros H0. destruct df as [|r rest]; [discriminate|]. injection H0 as ->.
  rewrite get_conversation_ends_spec.
  set (df := r0 :: rest).
  set (bs := filter (closes end_phrases df) (seq 0 (List.length df))).
  destruct (next_author_short df bs) as [Hl Hin].
  eexists. eexists. split; [reflexivity|].
  destruct (flat_map (next_author df) bs) as [|a l] eqn:E.
  - split; [discriminate|]. split.
    + intros a [<-|[]]. exists r0. split; [now left|reflexivity].
    + cbn [List.length]. lia.
  - split; [discriminate|]. split; [exact Hin|].
    cbn [List.length] in *. rewrite length_map. lia.
Qed.

Lemma is_end_usable (end_phrases : list str) (r : row) :
  is_end (List.map strip (filter (fun ep => nonempty (strip ep)) end_phrases)) r
  = is_end end_phrases r.
Proof.
  unfold is_end.
  induction end_phrases as [|ep l IH]; [reflexivity|].
  cbn [filter]. destruct (nonempty (strip ep)) eqn:E; [|exact IH].
  cbn [List.map filter]. rewrite strip_idempotent, E.
  cbn [existsb]. now rewrite IH, strip_idempotent.
Qed.

Lemma seg_loop_ext (df : list row) (ph ph' : list str) :
  (forall r, is_end ph r = is_end ph' r) ->
  forall todo st, seg_loop df ph todo st = seg_loop df ph' todo st.
Proof.
  intros H. induction todo as [|[i r] todo IH]; intros st; [reflexivity|].
  cbn [seg_loop].
  assert (E : seg_step df ph st (i, r) = seg_step df ph' st (i, r))
    by (unfold seg_step; now rewrite H).
  rewrite E. destruct (seg_step df ph' st (i, r)); cbn [bind];
    [apply IH|reflexivity].
Qed.

(** X8. The phrase list counts as its entries trimmed, without the ones
    that are blank: padding around a phrase and empty entries (as a comma
    at the end of the setting leaves) change nothing in what the segmenter
    returns. *)
Theorem phrases_count_trimmed (df : list row) (end_phrases : list str) :
  get_conversation_ends
    df (List.map strip (filter (fun ep => nonempty (strip ep)) end_phrases))
  = get_conversation_ends df end_phrases.
Proof.
  unfold get_conversation_ends, seg_run.
  destruct (seg_init df) as [st0|e]; [|reflexivity]. cbn [bind].
  now rewrite (seg_loop_ext df _ end_phrases (is_end_usable end_phrases)).
Qed.

(** X9. When every entry of the phrase list is blank, inactivity alone
    closes conversations: a position is a boundary exactly when its
    timestamp is more than six hours after the one held for the previous
    message. *)
Theorem blank_phrases_leave_inactivity
        (df : list row) (end_phrases : list str) (i : nat) (r : row) :
  (forall ep, In ep end_phrases -> strip ep = []) ->
  nth_error df i = Some r ->
  exists es ss,
    get_conversation_ends df end_phrases = Ok (es, ss)
    /\ (In (Z.of_nat i) es <-> (six_hours < dt r - prev_ts df i)%Z).
Proof.
  intros Hb Hr. destruct df as [|r0 rest]; [now destruct i|].
  rewrite get_conversation_ends_spec. eexists. eexists.
  split; [reflexivity|].
  rewrite in_boundaries, in_closing, (closes_spec _ _ _ r Hr).
  assert (He : is_end end_phrases r = false).
  { destruct (is_end end_phrases r) eqn:E; [|reflexivity].
    apply is_end_spec in E. destruct E as [ep [Hin [Hne _]]].
    now rewrite (Hb ep Hin) in Hne. }
  rewrite He. split; [intros [H|H]; [discriminate|exact H]|now right].
Qed.

End SegmenterLists.

Lemma ends_increasing_positions_witness :
  exists es ss,
    get_conversation_ends (R := ref_runtime) two_days sign_offs = Ok (es, ss)
    /\ StronglySorted Z.lt es
    /\ (1 <= List.length es <= 4)%nat.
Proof.
  destruct (ends_increasing_positions (R := ref_runtime)
              two_days sign_offs (msg ten "A" "hi") eq_refl)
    as [es [ss [Hg [_ [Hs [_ Hl]]]]]].
  exists es, ss. now repeat split.
Defined.

Lemma starters_are_authors_witness :
  exists es ss,
    get_conversation_ends (R := ref_runtime) two_days sign_offs = Ok (es, ss)
    /\ ss <> [].
Proof.
  destruct (starters_are_authors (R := ref_runtime)
              two_days sign_offs (msg ten "A" "hi") eq_refl)
    as [es [ss [Hg [Hn _]]]].
  exists es, ss. now split.
Defined.

Lemma blank_phrases_leave_inactivity_witness :
  exists es ss,
    get_conversation_ends (R := ref_runtime) two_days [of_string "  "; []]
    = Ok (es, ss)
    /\ (In 2%Z es <-> (six_hours < (ten + 8 * 3600) - (ten + 60))%Z).
Proof.
  destruct (blank_phrases_leave_inactivity (R := ref_runtime)
              two_days [of_string "  "; []] 2
              (msg (ten + 8 * 3600) "A" "morning"))
    as [es [ss [Hg Hi]]].
  - intros ep [<-|[<-|[]]]; reflexivity.
  - reflexivity.
  - exists es, ss. split; [exact Hg|exact Hi].
Defined.

(** ** The classifier and the script *)

(** X10. The classifier raises nothing and returns one label for each row,
    whatever list of positions it is given, also one with positions outside
    the frame. *)
Theorem one_label_per_row (df : list row) (split_idx : list Z) :
  exists labels,
    classify_response_times df split_idx = Ok labels
    /\ List.length labels = List.length df
    /\ forall i, (i < List.length df)%nat ->
                 (nth_error labels i = Some None <-> In (Z.of_nat i) split_idx).
Proof.
  exists (List.map (label split_idx df) (seq 0 (List.length df))).
  split; [apply classify_spec|].
  split; [now rewrite length_map, length_seq|].
  intros i Hi. rewrite nth_error_labels by exact Hi.
  unfold label. rewrite <- in_idx_spec.
  destruct (in_idx i split_idx); split; (reflexivity || discriminate).
Qed.

Definition is_none {A : Type} (o : option A) : bool :=
  match o with None => true | Some _ => false end.

Lemma filter_map_length {A B : Type} (f : A -> B) (p : B -> bool) (l : list A) :
  List.length (filter p (List.map f l))
  = List.length (filter (fun x => p (f x)) l).
Proof.
  induction l as [|x l IH]; [reflexivity|].
  cbn [List.map filter]. destruct (p (f x)); cbn [List.length]; now rewrite IH.
Qed.

(** In a frame ordered by time a row is not earlier than the one before. *)
Lemma sorted_consecutive (df : list row) :
  StronglySorted dt_le df ->
  forall j a b,
    nth_error df j = Some a -> nth_error df (S j) = Some b ->
    (dt a <= dt b)%Z.
Proof.
  induction 1 as [|x l Hs IH Hx]; intros j a b Ha Hb; [now destruct j|].
  destruct j as [|j].
  - injection Ha as <-. cbn [nth_error] in Hb.
    rewrite Forall_forall in Hx. apply (Hx b).
    now apply (nth_error_In l 0).
  - exact (IH j a b Ha Hb).
Qed.

Section Script.
Context {R : Runtime}.

Lemma bind_raise {A B : Type} (m : result A) (k : A -> result B) (e : exn) :
  bind m k = Raise e ->
  m = Raise e \/ exists a, m = Ok a /\ k a = Raise e.
Proof.
  destruct m as [a|e']; intros H; [right; now exists a|].
  left. cbn [bind] in H. now injection H as ->.
Qed.

Lemma parse_line_raises (rows : list row) (line : str) (e : exn) :
  parse_line rows line = Raise e -> exists s, e = DateParseError s.
Proof.
  unfold parse_line.
  destruct (line_match (strip line)) as [[[[d t] a] x]|]; [|discriminate].
  unfold parse_dt.
  destruct (strptime (d ++ 32%N :: t)); [discriminate|].
  destruct (to_datetime (d ++ 32%N :: t)); [discriminate|].
  intros [= <-]. eexists. reflexivity.
Qed.

Lemma parse_lines_cons_raise
      (line : str) (lines : list str) (rows : list row) (e : exn) :
  parse_lines (line :: lines) rows = Raise e ->
  parse_line rows line = Raise e
  \/ exists rows', parse_line rows line = Ok rows'
                   /\ parse_lines lines rows' = Raise e.
Proof.
  exact (bind_raise (parse_line rows line)
                    (fun rows' => parse_lines lines rows') e).
Qed.

Lemma parse_lines_raises (lines : list str) :
  forall rows e, parse_lines lines rows = Raise e ->
                 exists s, e = DateParseError s.
Proof.
  induction lines as [|line lines IH]; intros rows e H.
  - cbn [parse_lines] in H. discriminate H.
  - apply parse_lines_cons_raise in H.
    destruct H as [H|[rows' [_ H]]].
    + exact (parse_line_raises _ _ _ H).
    + exact (IH _ _ H).
Qed.

Lemma parse_chat_frame (lines : list str) (df : list row) :
  parse_chat lines = Ok df -> StronglySorted dt_le df.
Proof.
  unfold parse_chat. intros H.
  destruct (parse_lines lines []) as [rows|e]; [|discriminate].
  cbn [bind] in H. injection H as <-.
  destruct rows; [constructor|apply sort_values_sorted].
Qed.

(** What the script has computed when it goes on to its tabs. *)
Lemma main_logic_analysed (lines end_phrases : list str) (a : analysis) :
  main_logic lines end_phrases = Ok (Analysed a) ->
  exists r0 rest,
    let df := r0 :: rest in
    let bs := filter (closes end_phrases df) (seq 0 (List.length df)) in
    parse_chat lines = Ok df
    /\ frame a = df
    /\ end_idxs a = (-1)%Z :: List.map Z.of_nat bs
    /\ conversation_starters a
       = match flat_map (next_author df) bs with
         | [] => [author r0]
         | n :: l => n :: l
         end
    /\ num_convs a = S (List.length bs)
    /\ reply_types a
       = List.map (label (end_idxs a) df) (seq 0 (List.length df)).
Proof.
  unfold main_logic. intros H.
  destruct (parse_chat lines) as [[|r0 rest]|e]; [discriminate| |discriminate].
  cbn [bind] in H. rewrite get_conversation_ends_spec in H.
  cbn [bind fst snd] in H. rewrite classify_spec in H. cbn [bind] in H.
  injection H as <-. exists r0, rest. cbn zeta. cbn [frame end_idxs
    conversation_starters num_convs reply_types].
  repeat split. cbn [List.length]. now rewrite length_map.
Qed.

(** X11. From the lines of the transcript on (opening, reading and
    decoding the file come before and are not part of [main_logic]), the
    script ends in one of three ways: with the exception of a timestamp
    that neither parser reads; with the report that there is no valid
    message; or with a non-empty frame that has one reply label for each
    row, at least one starter, and a number of conversations that is the
    length of the boundary list. The [IndexError] of the segmenter on an
    empty frame is not among them: the test of the script stops before. *)
Theorem main_logic_outcomes (lines end_phrases : list str) :
  (exists s, main_logic lines end_phrases = Raise (DateParseError s))
  \/ (main_logic lines end_phrases = Ok NoValidMessages
      /\ parse_chat lines = Ok [])
  \/ (exists a,
         main_logic lines end_phrases = Ok (Analysed a)
         /\ parse_chat lines = Ok (frame a)
         /\ frame a <> []
         /\ List.length (reply_types a) = List.length (frame a)
         /\ conversation_starters a <> []
         /\ num_convs a = List.length (end_idxs a)).
Proof.
  destruct (main_logic lines end_phrases) as [[|a]|e] eqn:E.
  - right. left. split; [reflexivity|].
    unfold main_logic in E.
    destruct (parse_chat lines) as [[|r0 rest]|e]; [reflexivity| |discriminate].
    cbn [bind] in E. rewrite get_conversation_ends_spec in E.
    cbn [bind fst snd] in E. rewrite classify_spec in E. discriminate.
  - right. right. exists a. split; [reflexivity|].
    destruct (main_logic_analysed _ _ _ E)
      as [r0 [rest [Hp [Hf [He [Hs [Hn Hr]]]]]]].
    cbn zeta in *. rewrite Hf, Hr, He, Hs, Hn.
    split; [exact Hp|]. split; [discriminate|].
    split; [now rewrite length_map, length_seq|].
    split; [|cbn [List.length]; now rewrite length_map].
    destruct (flat_map _ _); discriminate.
  - left. unfold main_logic in E.
    destruct (parse_chat lines) as [[|r0 rest]|e'] eqn:Ep; [discriminate| |].
    + cbn [bind] in E. rewrite get_conversation_ends_spec in E.
      cbn [bind fst snd] in E. rewrite classify_spec in E. discriminate.
    + cbn [bind] in E. injection E as <-.
      unfold parse_chat in Ep.
      destruct (parse_lines lines []) as [rows|e0] eqn:El; [discriminate|].
      cbn [bind] in Ep. injection Ep as <-.
      destruct (parse_lines_raises _ _ _ El) as [s ->]. now exists s.
Qed.

(** X12. In what the script computes, the messages without a reply label
    are as many as the boundaries after the leading -1: one less than the
    number of conversations shown. *)
Theorem unlabelled_are_boundaries (lines end_phrases : list str) (a : analysis) :
  main_logic lines end_phrases = Ok (Analysed a) ->
  S (List.length (filter is_none (reply_types a))) = num_convs a.
Proof.
  intros H.
  destruct (main_logic_analysed _ _ _ H)
    as [r0 [rest [_ [_ [He [_ [Hn Hr]]]]]]].
  cbn zeta in *. rewrite Hn, Hr. f_equal.
  rewrite filter_map_length. f_equal.
  apply filter_ext. intros i. unfold label.
  assert (Hi : in_idx i (end_idxs a) = closes end_phrases (r0 :: rest) i).
  { apply eq_true_iff_eq. rewrite in_idx_spec, He, in_boundaries.
    apply in_closing. }
  rewrite Hi. now destruct (closes end_phrases (r0 :: rest) i).
Qed.

(** X13. In what the script computes, a message that has a reply label and
    a message before it in the frame came at most six hours after that
    message, and not before it: the label Late stands for a wait between
    five minutes and six hours. *)
Theorem labelled_gap_within_six_hours
        (lines end_phrases : list str) (a : analysis)
        (j : nat) (before r : row) (b : band) :
  main_logic lines end_phrases = Ok (Analysed a) ->
  nth_error (frame a) j = Some before ->
  nth_error (frame a) (S j) = Some r ->
  nth_error (reply_types a) (S j) = Some (Some b) ->
  (0 <= dt r - dt before <= six_hours)%Z
  /\ b = band_of (dt r - dt before)
  /\ (b = Late -> 300 <= dt r - dt before <= six_hours)%Z.
Proof.
  intros H Hb Hr Hl.
  destruct (main_logic_analysed _ _ _ H)
    as [r0 [rest [Hp [Hf [He [_ [_ Ht]]]]]]].
  cbn zeta in *. rewrite Hf in Hb, Hr. rewrite Ht in Hl.
  set (df := r0 :: rest) in *.
  assert (Hlen : (S j < List.length df)%nat)
    by (apply nth_error_Some; congruence).
  rewrite nth_error_labels in Hl by exact Hlen.
  unfold label in Hl.
  assert (Hi : in_idx (S j) (end_idxs a) = closes end_phrases df (S j)).
  { apply eq_true_iff_eq. rewrite in_idx_spec, He, in_boundaries.
    apply in_closing. }
  rewrite Hi in Hl.
  destruct (closes end_phrases df (S j)) eqn:Ec; [discriminate|].
  injection Hl as Hl. cbn [wrap_prev] in Hl.
  rewrite (dt_at_nth df (S j) r Hr), (dt_at_nth df j before Hb) in Hl.
  unfold closes in Ec. rewrite Hr in Ec.
  apply orb_false_iff in Ec. destruct Ec as [_ Eg].
  rewrite (prev_ts_succ df j before Hb) in Eg. apply Z.ltb_ge in Eg.
  assert (Hord : (dt before <= dt r)%Z)
    by exact (sorted_consecutive df (parse_chat_frame _ _ Hp) j before r Hb Hr).
  split; [lia|]. split; [now rewrite Hl|].
  intros ->. apply band_of_late in Hl. lia.
Qed.

End Script.

Lemma unlabelled_are_boundaries_witness :
  exists a,
    main_logic (R := ref_runtime) morning_lines [] = Ok (Analysed a)
    /\ S (List.length (filter is_none (reply_types a))) = num_convs a.
Proof.
  eexists. split; [reflexivity|].
  exact (unlabelled_are_boundaries (R := ref_runtime) morning_lines [] _
                                   eq_refl).
Defined.

Lemma labelled_gap_within_six_hours_witness :
  (0 <= (ten + 600) - (ten + 60) <= six_hours)%Z
  /\ Late = band_of ((ten + 600) - (ten + 60)).
Proof.
  destruct (labelled_gap_within_six_hours (R := ref_runtime)
              morning_lines []
              (mkAnalysis morning [(-1)%Z] [of_string "A"] 1
                          [Some Early; Some NearEarly; Some Late])
              1 (msg (ten + 60) "B" "hey") (msg (ten + 600) "A" "so") Late
              eq_refl eq_refl eq_refl eq_refl)
    as [Hg [Hb _]].
  split; [exact Hg|exact Hb].
Defined.

(** ** The emoji ranking

    [favorite_emojis] with what it takes from [collections]: a [Counter]
    is a dictionary, here the list of its items in the order the keys were
    first added; [most_common(n)] is the first [n] of the items ordered by
    falling count, items of one count staying in that order. The only empty
    frame the script has is [pd.DataFrame()], which has no column. *)

Inductive key_error : Type := KeyError (column : string).

Module Tally.

(** [c[x] += 1] *)
Fixpoint add (x : str) (c : list (str * nat)) : list (str * nat) :=
  match c with
  | [] => [(x, 1%nat)]
  | (y, n) :: c' =>
      if Str.eqb x y then (y, S n) :: c' else (y, n) :: add x c'
  end.

(** [Counter(l)] *)
Definition Counter (l : list str) : list (str * nat) :=
  fold_left (fun c x => add x c) l [].

(** [c[y]], 0 for a missing key. *)
Fixpoint get (c : list (str * nat)) (y : str) : nat :=
  match c with
  | [] => 0%nat
  | (z, n) :: c' => if Str.eqb y z then n else get c' y
  end.

Fixpoint insert (p : str * nat) (l : list (str * nat)) : list (str * nat) :=
  match l with
  | [] => [p]
  | q :: l' => if (snd q <=? snd p)%nat then p :: l else q :: insert p l'
  end.

(** [sorted(items, key=itemgetter(1), reverse=True)] *)
Definition by_count (c : list (str * nat)) : list (str * nat) :=
  fold_right insert [] c.

Definition most_common (n : nat) (c : list (str * nat)) : list (str * nat) :=
  firstn n (by_count c).

End Tally.

(** [all_emojis] of [favorite_emojis]. *)
Definition all_emojis (df : list row) : list str := List.concat (List.map emojis df).

Definition favorite_emojis (df : list row) : key_error + list (str * nat) :=
  match df with
  | [] => inl (KeyError "emojis")
  | _ :: _ => inr (Tally.most_common 10 (Tally.Counter (all_emojis df)))
  end.

(** How often [e] is in [l]. *)
Definition occurrences (e : str) (l : list str) : nat :=
  count_occ (list_eq_dec N.eq_dec) l e.

(** Falling counts. *)
Definition count_ge (p q : str * nat) : Prop := (snd q <= snd p)%nat.

Lemma str_eqb_spec (a b : str) : reflect (a = b) (Str.eqb a b).
Proof.
  unfold Str.eqb. destruct (list_eq_dec N.eq_dec a b); now constructor.
Qed.

Lemma get_add (x y : str) (c : list (str * nat)) :
  Tally.get (Tally.add x c) y
  = if Str.eqb y x then S (Tally.get c x) else Tally.get c y.
Proof.
  induction c as [|[z n] c IH]; cbn [Tally.add Tally.get].
  - destruct (str_eqb_spec y x); [|reflexivity].
    subst. now destruct (str_eqb_spec x x).
  - destruct (str_eqb_spec x z) as [->|Hxz]; cbn [Tally.get].
    + destruct (str_eqb_spec y z) as [->|Hyz]; [|reflexivity].
      now destruct (str_eqb_spec z z).
    + destruct (str_eqb_spec y z) as [->|Hyz].
      * destruct (str_eqb_spec z x); [congruence|reflexivity].
      * rewrite IH. destruct (str_eqb_spec y x); [|reflexivity].
        subst. now destruct (str_eqb_spec x z).
Qed.

(** The items of a counter: keys without repetition, counts from 1 on,
    each the count [get] reads. *)
Definition tidy (c : list (str * nat)) : Prop :=
  NoDup (List.map fst c)
  /\ forall y n, In (y, n) c -> (1 <= n)%nat /\ Tally.get c y = n.

Lemma add_keys (x : str) (c : list (str * nat)) (y : str) :
  In y (List.map fst (Tally.add x c)) <-> y = x \/ In y (List.map fst c).
Proof.
  induction c as [|[z n] c IH]; cbn [Tally.add List.map fst In].
  - intuition congruence.
  - destruct (str_eqb_spec x z) as [->|Hxz]; cbn [List.map fst In].
    + intuition congruence.
    + rewrite IH. intuition congruence.
Qed.

Lemma add_tidy (x : str) (c : list (str * nat)) :
  tidy c -> tidy (Tally.add x c).
Proof.
  induction c as [|[z n] c IH]; intros [Hn Hg].
  - split; [repeat constructor; intros []|].
    intros y n [[= <- <-]|[]]. split; [lia|].
    cbn. now destruct (str_eqb_spec x x).
  - cbn [List.map fst] in Hn. apply NoDup_cons_iff in Hn.
    destruct Hn as [Hz Hn].
    assert (Hc : tidy c).
    { split; [exact Hn|]. intros y m Hin.
      destruct (Hg y m (or_intror Hin)) as [Hm Hget]. split; [exact Hm|].
      cbn [Tally.get] in Hget.
      destruct (str_eqb_spec y z) as [->|_]; [|exact Hget].
      exfalso. apply Hz. apply in_map_iff. now exists (z, m). }
    cbn [Tally.add]. destruct (str_eqb_spec x z) as [->|Hxz].
    + split; [cbn [List.map fst]; now constructor|].
      intros y m [[= <- <-]|Hin].
      * split; [lia|]. cbn [Tally.get]. now destruct (str_eqb_spec z z).
      * destruct (Hg y m (or_intror Hin)) as [Hm Hget]. split; [exact Hm|].
        cbn [Tally.get] in *.
        destruct (str_eqb_spec y z) as [->|_]; [|exact Hget].
        exfalso. apply Hz. apply in_map_iff. now exists (z, m).
    + destruct (IH Hc) as [Hn' Hg']. split.
      * cbn [List.map fst]. constructor; [|exact Hn'].
        rewrite add_keys. intros [E|Hin]; [congruence|contradiction].
      * intros y m [[= <- <-]|Hin].
        -- destruct (Hg z n (or_introl eq_refl)) as [Hm Hget].
           split; [exact Hm|]. cbn [Tally.get] in *.
           now destruct (str_eqb_spec z z).
        -- destruct (Hg' y m Hin) as [Hm Hget]. split; [exact Hm|].
           cbn [Tally.get]. destruct (str_eqb_spec y z) as [->|_]; [|exact Hget].
           exfalso. assert (Hk : In z (List.map fst (Tally.add x c)))
             by (apply in_map_iff; now exists (z, m)).
           apply add_keys in Hk. destruct Hk as [E|Hk]; [congruence|contradiction].
Qed.

Lemma occurrences_snoc (y x : str) (l : list str) :
  occurrences y (l ++ [x])
  = if Str.eqb y x then S (occurrences y l) else occurrences y l.
Proof.
  unfold occurrences. rewrite count_occ_app. cbn [count_occ].
  destruct (list_eq_dec N.eq_dec x y) as [E|E];
    destruct (str_eqb_spec y x) as [E'|E']; try congruence;
    rewrite ?Nat.add_1_r, ?Nat.add_0_r; reflexivity.
Qed.

(** The counter of [l] is tidy, has the members of [l] as keys and their
    numbers of occurrences as counts. *)
Lemma counter_spec (l : list str) :
  tidy (Tally.Counter l)
  /\ (forall y, Tally.get (Tally.Counter l) y = occurrences y l)
  /\ (forall y, In y (List.map fst (Tally.Counter l)) <-> In y l).
Proof.
  unfold Tally.Counter.
  induction l as [|x l IH] using rev_ind.
  - split; [split; [constructor|intros ? ? []]|]. split; [reflexivity|].
    intros y. reflexivity.
  - destruct IH as [Ht [Hg Hk]]. rewrite fold_left_app. cbn [fold_left].
    split; [now apply add_tidy|]. split.
    + intros y. rewrite get_add, occurrences_snoc, !Hg.
      destruct (str_eqb_spec y x) as [->|_]; reflexivity.
    + intros y. rewrite add_keys, Hk, in_app_iff. cbn [In]. intuition congruence.
Qed.

Lemma tally_insert_perm (p : str * nat) (l : list (str * nat)) :
  Permutation (p :: l) (Tally.insert p l).
Proof.
  induction l as [|q l IH]; cbn [Tally.insert]; [apply Permutation_refl|].
  destruct (snd q <=? snd p)%nat; [apply Permutation_refl|].
  eapply perm_trans; [apply perm_swap|]. now apply perm_skip.
Qed.

Lemma by_count_perm (c : list (str * nat)) : Permutation c (Tally.by_count c).
Proof.
  induction c as [|p c IH]; [constructor|].
  cbn. eapply perm_trans; [apply perm_skip, IH|apply tally_insert_perm].
Qed.

Lemma tally_insert_sorted (p : str * nat) (l : list (str * nat)) :
  StronglySorted count_ge l -> StronglySorted count_ge (Tally.insert p l).
Proof.
  induction 1 as [|q l Hs IH Hq]; cbn [Tally.insert]; [repeat constructor|].
  destruct (Nat.leb_spec (snd q) (snd p)) as [Hle|Hlt].
  - constructor; [now constructor|].
    constructor; [exact Hle|].
    eapply Forall_impl; [|exact Hq]. unfold count_ge. intros; lia.
  - constructor; [exact IH|].
    eapply Permutation_Forall; [apply tally_insert_perm|].
    constructor; [unfold count_ge; lia|exact Hq].
Qed.

Lemma by_count_sorted (c : list (str * nat)) :
  StronglySorted count_ge (Tally.by_count c).
Proof.
  induction c as [|p c IH]; [constructor|]. now apply tally_insert_sorted.
Qed.

(** In a list of falling counts the first [n] items count at least as much
    as each of the others. *)
Lemma firstn_tops (n : nat) (l : list (str * nat)) :
  StronglySorted count_ge l ->
  forall p q, In p (firstn n l) -> In q (skipn n l) -> count_ge p q.
Proof.
  intros Hs. revert n. induction Hs as [|x l Hs IH Hx]; intros n p q Hp Hq.
  - now rewrite firstn_nil in Hp.
  - destruct n as [|n]; [contradiction|].
    cbn [firstn skipn] in Hp, Hq. destruct Hp as [<-|Hp].
    + rewrite Forall_forall in Hx. apply Hx.
      rewrite <- (firstn_skipn n l). apply in_or_app. now right.
    + exact (IH n p q Hp Hq).
Qed.

Lemma firstn_sorted (n : nat) (l : list (str * nat)) :
  StronglySorted count_ge l -> StronglySorted count_ge (firstn n l).
Proof.
  intros Hs. revert n. induction Hs as [|x l Hs IH Hx]; intros n.
  - rewrite firstn_nil. constructor.
  - destruct n as [|n]; [constructor|]. cbn [firstn].
    constructor; [apply IH|].
    rewrite Forall_forall in *. intros y Hy. apply Hx.
    rewrite <- (firstn_skipn n l). apply in_or_app. now left.
Qed.

Lemma firstn_nodup_keys (n : nat) (l : list (str * nat)) :
  NoDup (List.map fst l) -> NoDup (List.map fst (firstn n l)).
Proof.
  intros H. rewrite <- (firstn_skipn n l), map_app in H.
  now apply NoDup_app_remove_r in H.
Qed.

(** X14. On a non-empty frame [favorite_emojis] returns at most ten items,
    with different emojis and falling counts; the count of an emoji is the
    number of times it is in the [emojis] lists of the rows, at least one;
    and an emoji of some row that is left out is in no more of them than any
    of the ten that are shown. *)
Theorem favorite_emojis_ranking (df : list row) (r0 : row) :
  nth_error df 0 = Some r0 ->
  exists favs,
    favorite_emojis df = inr favs
    /\ (List.length favs <= 10)%nat
    /\ NoDup (List.map fst favs)
    /\ StronglySorted count_ge favs
    /\ (forall e n, In (e, n) favs ->
                    n = occurrences e (all_emojis df) /\ (1 <= n)%nat)
    /\ (forall e, In e (all_emojis df) ->
                  In e (List.map fst favs)
                  \/ (List.length favs = 10%nat
                      /\ forall p, In p favs ->
                                   (occurrences e (all_emojis df) <= snd p)%nat)).
Proof.
  intros H0. destruct df as [|r rest]; [discriminate|]. clear H0.
  set (df := r :: rest). cbn [favorite_emojis]. fold df.
  set (c := Tally.Counter (all_emojis df)).
  destruct (counter_spec (all_emojis df)) as [[Hnd Hpos] [Hget Hkeys]].
  fold c in Hnd, Hpos, Hget, Hkeys.
  pose proof (by_count_perm c) as Hperm.
  pose proof (by_count_sorted c) as Hsort.
  unfold Tally.most_common. set (s := Tally.by_count c) in *.
  assert (Hsub : forall p, In p (firstn 10 s) -> In p c).
  { intros p Hp. apply (Permutation_in _ (Permutation_sym Hperm)).
    rewrite <- (firstn_skipn 10 s). apply in_or_app. now left. }
  exists (firstn 10 s). split; [reflexivity|].
  split; [rewrite length_firstn; lia|].
  split.
  { apply firstn_nodup_keys.
    exact (Permutation_NoDup (Permutation_map fst Hperm) Hnd). }
  split; [now apply firstn_sorted|]. split.
  - intros e n Hin. destruct (Hpos e n (Hsub _ Hin)) as [Hn Hg].
    rewrite Hget in Hg. now split.
  - intros e He. apply Hkeys in He. apply in_map_iff in He.
    destruct He as [[e' n] [E Hin]]. cbn in E. subst e'.
    destruct (Hpos e n Hin) as [_ Hg]. rewrite Hget in Hg.
    apply (Permutation_in _ Hperm) in Hin.
    rewrite <- (firstn_skipn 10 s) in Hin. apply in_app_or in Hin.
    destruct Hin as [Hin|Hin].
    + left. apply in_map_iff. now exists (e, n).
    + right. split.
      * rewrite length_firstn.
        assert (Hlen : (10 < List.length s)%nat).
        { destruct (Nat.lt_ge_cases 10 (List.length s)) as [Hlt|Hge];
            [exact Hlt|].
          rewrite skipn_all2 in Hin by lia. contradiction. }
        lia.
      * intros p Hp. pose proof (firstn_tops 10 s Hsort p (e, n) Hp Hin) as Hc.
        unfold count_ge in Hc. cbn [snd] in Hc. now rewrite Hg.
Qed.

(** X15. [favorite_emojis] raises [KeyError] on the frame without rows, and
    on a frame with rows its list is empty exactly when no row has an
    emoji. *)
Theorem favorite_emojis_none :
  favorite_emojis [] = inl (KeyError "emojis")
  /\ forall r rest,
       favorite_emojis (r :: rest) = inr []
       <-> Forall (fun m => emojis m = []) (r :: rest).
Proof.
  split; [reflexivity|]. intros r rest.
  change (favorite_emojis (r :: rest))
    with (@inr key_error _
            (Tally.most_common 10 (Tally.Counter (all_emojis (r :: rest))))).
  set (df := r :: rest).
  destruct (counter_spec (all_emojis df)) as [_ [_ Hkeys]].
  pose proof (by_count_perm (Tally.Counter (all_emojis df))) as Hperm.
  unfold Tally.most_common.
  assert (Hall : all_emojis df = [] <-> Forall (fun m => emojis m = []) df).
  { unfold all_emojis. rewrite concat_nil_Forall, Forall_map. reflexivity. }
  rewrite <- Hall. split.
  - destruct (Tally.by_count (Tally.Counter (all_emojis df))) as [|p s] eqn:E;
      [intros _|cbn [firstn]; discriminate].
    apply Permutation_sym, Permutation_nil in Hperm.
    destruct (all_emojis df) as [|e l]; [reflexivity|].
    exfalso. assert (He : In e (List.map fst (Tally.Counter (e :: l))))
      by (apply Hkeys; now left).
    now rewrite Hperm in He.
  - intros ->. reflexivity.
Qed.

Lemma favorite_emojis_ranking_witness :
  exists favs,
    favorite_emojis [mkRow ten (of_string "A") [grinning] [[grinning]]]
    = inr favs
    /\ (List.length favs <= 10)%nat.
Proof.
  destruct (favorite_emojis_ranking
              [mkRow ten (of_string "A") [grinning] [[grinning]]]
              (mkRow ten (of_string "A") [grinning] [[grinning]]) eq_refl)
    as [favs [Hf [Hl _]]].
  exists favs. now split.
Defined.

(** [df["emoji_count"] = df["emojis"].apply(len)] and its sum, the total
    the script shows. *)
Definition emoji_count (r : row) : nat := List.length (emojis r).

Definition total_emojis (df : list row) : nat :=
  list_sum (List.map emoji_count df).

Definition counts (c : list (str * nat)) : nat := list_sum (List.map snd c).

Lemma counts_cons (p : str * nat) (c : list (str * nat)) :
  counts (p :: c) = (snd p + counts c)%nat.
Proof. reflexivity. Qed.

Lemma counts_add (x : str) (c : list (str * nat)) :
  counts (Tally.add x c) = S (counts c).
Proof.
  induction c as [|[z n] c IH]; [reflexivity|].
  cbn [Tally.add]. destruct (Str.eqb x z).
  - now rewrite !counts_cons.
  - rewrite !counts_cons, IH. cbn [snd]. lia.
Qed.

Lemma counts_counter (l : list str) :
  counts (Tally.Counter l) = List.length l.
Proof.
  unfold Tally.Counter. induction l as [|x l IH] using rev_ind; [reflexivity|].
  rewrite fold_left_app, length_app. cbn [fold_left List.length].
  rewrite counts_add, IH. lia.
Qed.

Lemma counts_perm (c c' : list (str * nat)) :
  Permutation c c' -> counts c = counts c'.
Proof.
  induction 1 as [|p l l' _ IH|p q l|l l' l'' _ IH1 _ IH2];
    rewrite ?counts_cons; lia.
Qed.

Lemma counts_app (c c' : list (str * nat)) :
  counts (c ++ c') = (counts c + counts c')%nat.
Proof. unfold counts. now rewrite map_app, list_sum_app. Qed.

(** X16. On a non-empty frame the counts of the ranking add up to no more
    than the total of emojis the script shows, the sum of the lengths of the
    [emojis] lists, and to that total when there are at most ten different
    emojis. *)
Theorem ranking_within_total (df : list row) (r0 : row) :
  nth_error df 0 = Some r0 ->
  exists favs,
    favorite_emojis df = inr favs
    /\ total_emojis df = List.length (all_emojis df)
    /\ (counts favs <= total_emojis df)%nat
    /\ ((List.length (Tally.Counter (all_emojis df)) <= 10)%nat ->
        counts favs = total_emojis df).
Proof.
  intros H0. destruct df as [|r rest]; [discriminate|]. clear H0.
  set (df := r :: rest).
  change (favorite_emojis df)
    with (@inr key_error _
            (Tally.most_common 10 (Tally.Counter (all_emojis df)))).
  assert (Ht : total_emojis df = List.length (all_emojis df)).
  { unfold total_emojis, all_emojis, emoji_count.
    now rewrite length_concat, map_map. }
  set (c := Tally.Counter (all_emojis df)).
  pose proof (counts_perm _ _ (by_count_perm c)) as Hp.
  pose proof (counts_counter (all_emojis df)) as Hc. fold c in Hc.
  unfold Tally.most_common.
  pose proof (counts_app (firstn 10 (Tally.by_count c))
                         (skipn 10 (Tally.by_count c))) as Ha.
  rewrite firstn_skipn in Ha.
  eexists. split; [reflexivity|]. split; [exact Ht|].
  split; [lia|].
  intros Hl.
  rewrite (Permutation_length (by_count_perm c)) in Hl.
  rewrite skipn_all2 in Ha by exact Hl.
  change (counts []) with 0%nat in Ha. lia.
Qed.

Lemma ranking_within_total_witness :
  exists favs,
    favorite_emojis [mkRow ten (of_string "A") [grinning] [[grinning]]]
    = inr favs
    /\ counts favs = 1%nat.
Proof.
  destruct (ranking_within_total
              [mkRow ten (of_string "A") [grinning] [[grinning]]]
              (mkRow ten (of_string "A") [grinning] [[grinning]]) eq_refl)
    as [favs [Hf [_ [_ Hs]]]].
  exists favs. split; [exact Hf|].
  rewrite Hs; [reflexivity|]. vm_compute. lia.
Defined.
